(** * PerigeeWatch: orbital state and proximity analysis engine

    A shallow embedding of the numerical core of the PerigeeWatch front end:

    - [parseTLE] (the two-line element parser with its derived Keplerian
      quantities and orbit classification),
    - [getRiskLevel] (the conjunction risk ladder),
    - the propagation worker ([initTLEs], [propagateAll], [onmessage]) with
      its maneuver detector and position filter.

    JavaScript numbers are IEEE 754 binary64 values and are modelled by
    Rocq's primitive floats; JavaScript strings are modelled by [string],
    each [ascii] standing for the code unit of the same value.  What the
    code imports stays a parameter: [Math.pow] (implementation-approximated
    in ECMAScript), the functions of satellite.js, and the parsing of ISO
    timestamps by [Date]. *)

From Stdlib Require Import ZArith QArith Qabs Floats String Ascii List Bool Lia.
From Stdlib Require Import Reals Lra.
Import ListNotations.

Set Implicit Arguments.

(** The elements of a list that [f] maps to a value, in order. *)
Fixpoint keep {A B : Type} (f : A -> option B) (l : list A) : list B :=
  match l with
  | [] => []
  | a :: r => match f a with Some b => b :: keep f r | None => keep f r end
  end.

(** [l.push(a)] when there is something to push. *)
Definition push {A : Type} (l : list A) (o : option A) : list A :=
  match o with
  | Some a => l ++ [a]
  | None => l
  end.

(** ** JavaScript numbers *)

Module JS.

Definition number := float.

Definition NaN : number := nan.

Definition isNaN (x : number) : bool := is_nan x.

(** The Number value for a mathematical integer (round to nearest, ties
    to even). *)
Definition of_Z (z : Z) : number :=
  SF2Prim (binary_normalize prec emax z 0 false).

(** The Number value of the decimal [(-1)^neg * m * 10^e], rounded to
    nearest, ties to even.  A zero mantissa keeps the sign. *)
Definition of_decimal (neg : bool) (m : Z) (e : Z) : number :=
  match m with
  | Zpos p =>
      match e with
      | Zneg k =>
          SF2Prim (SF64div (S754_finite neg p 0)
                           (S754_finite false (Pos.pow 10 k) 0))
      | _ => SF2Prim (binary_round prec emax neg (p * Z.to_pos (10 ^ e)) 0)
      end
  | _ => if neg then PrimFloat.neg_zero else PrimFloat.zero
  end.

(** Numeric literals of the source text. *)
Definition lit (m : Z) (e : Z) : number :=
  of_decimal (m <? 0)%Z (Z.abs m) e.

(** [ToIntegerOrInfinity] on finite numbers (truncation toward zero);
    [None] for NaN and the infinities. *)
Definition truncate (x : number) : option Z :=
  match Prim2SF x with
  | S754_zero _ => Some 0%Z
  | S754_finite s m e =>
      let a := match e with
               | Zneg k => Z.shiftr (Zpos m) (Zpos k)
               | _ => Z.shiftl (Zpos m) e
               end in
      Some (if s then Z.opp a else a)
  | _ => None
  end.

(** The rational a finite number stands for. *)
Definition exact_value (x : number) : option Q :=
  match Prim2SF x with
  | S754_zero _ => Some 0%Q
  | S754_finite s m e =>
      let v := inject_Z (if s then Zneg m else Zpos m) in
      Some (match e with
            | Zneg k => v / inject_Z (Zpos (Pos.pow 2 k))
            | _ => v * inject_Z (2 ^ e)
            end)%Q
  | _ => None
  end.

(** The order of two finite numbers of one sign, as binary64 compares
    them: by exponent, then by mantissa. *)
Definition lexcmp (e1 : Z) (m1 : positive) (e2 : Z) (m2 : positive)
  : comparison :=
  match (e1 ?= e2)%Z with
  | Lt => Lt
  | Gt => Gt
  | Eq => Pos.compare_cont Eq m1 m2
  end.

(** Truthiness of a number: [NaN], [+0] and [-0] are falsy. *)
Definition truthy (x : number) : bool :=
  negb (is_nan x || is_zero x).

(** [a || b] on numbers. *)
Definition or_else (a b : number) : number :=
  if truthy a then a else b.

(** ** JavaScript strings *)

Definition code (c : ascii) : nat := nat_of_ascii c.

(** [WhiteSpace] and [LineTerminator] code units below 256. *)
Definition isWhiteSpace (c : ascii) : bool :=
  let n := code c in
  (Nat.eqb n 9 || Nat.eqb n 10 || Nat.eqb n 11 || Nat.eqb n 12
   || Nat.eqb n 13 || Nat.eqb n 32 || Nat.eqb n 160)%bool.

Fixpoint trimStart (s : string) : string :=
  match s with
  | String c r => if isWhiteSpace c then trimStart r else s
  | EmptyString => EmptyString
  end.

Fixpoint trimEnd (s : string) : string :=
  match s with
  | String c r =>
      match trimEnd r with
      | EmptyString => if isWhiteSpace c then EmptyString else String c EmptyString
      | r' => String c r'
      end
  | EmptyString => EmptyString
  end.

Definition trim (s : string) : string := trimEnd (trimStart s).

(** [s.substring(start, end)] with integer arguments: both are clamped to
    [0, s.length] and swapped when out of order. *)
Definition clamp (s : string) (i : Z) : nat :=
  Z.to_nat (Z.max 0 (Z.min i (Z.of_nat (String.length s)))).

Definition substring (s : string) (start fin : Z) : string :=
  let a := clamp s start in
  let b := clamp s fin in
  String.substring (Nat.min a b) (Nat.max a b - Nat.min a b) s.

(** [s.substring(start)]. *)
Definition substringFrom (s : string) (start : Z) : string :=
  substring s start (Z.of_nat (String.length s)).

Definition length (s : string) : Z := Z.of_nat (String.length s).

(** [s.charAt(i)]: the empty string when [i] is out of range. *)
Definition charAt (s : string) (i : nat) : string :=
  match String.get i s with
  | Some c => String c EmptyString
  | None => EmptyString
  end.

(** [s.replace(a, b)] for a one-character pattern: the first occurrence
    only. *)
Fixpoint replace (s : string) (a b : ascii) : string :=
  match s with
  | String c r => if Ascii.eqb c a then String b r else String c (replace r a b)
  | EmptyString => EmptyString
  end.

(** ** Numeric parsing *)

Definition digit (c : ascii) : option Z :=
  let n := code c in
  if (Nat.leb 48 n && Nat.leb n 57)%bool then Some (Z.of_nat (n - 48)) else None.

Definition hexDigit (c : ascii) : option Z :=
  let n := code c in
  if (Nat.leb 48 n && Nat.leb n 57)%bool then Some (Z.of_nat (n - 48))
  else if (Nat.leb 97 n && Nat.leb n 102)%bool then Some (Z.of_nat (n - 87))
  else if (Nat.leb 65 n && Nat.leb n 70)%bool then Some (Z.of_nat (n - 55))
  else None.

(** The longest prefix of digits, most significant first, and the rest. *)
Fixpoint span (dig : ascii -> option Z) (s : string) : list Z * string :=
  match s with
  | String c r =>
      match dig c with
      | Some d => let '(ds, rest) := span dig r in (d :: ds, rest)
      | None => ([], s)
      end
  | EmptyString => ([], EmptyString)
  end.

Definition valueOf (radix : Z) (ds : list Z) : Z :=
  fold_left (fun acc d => acc * radix + d)%Z ds 0%Z.

(** An optional sign: [true] for ["-"]. *)
Definition sign (s : string) : bool * string :=
  match s with
  | String "-" r => (true, r)
  | String "+" r => (false, r)
  | _ => (false, s)
  end.

Definition signed (neg : bool) (z : Z) : Z := if neg then Z.opp z else z.

(** [parseInt(s)] with no radix argument. *)
Definition parseInt (s : string) : number :=
  let '(neg, u) := sign (trimStart s) in
  let '(radix, v) :=
    match u with
    | String "0" (String "x" r) => (16%Z, r)
    | String "0" (String "X" r) => (16%Z, r)
    | _ => (10%Z, u)
    end in
  match fst (span (if Z.eqb radix 16 then hexDigit else digit) v) with
  | [] => NaN
  | ds =>
      match valueOf radix ds with
      | Z0 => if neg then PrimFloat.neg_zero else PrimFloat.zero
      | n => of_Z (signed neg n)
      end
  end.

(** The exponent part [e[+-]ddd] of a decimal literal; [0] when it is
    absent or incomplete. *)
Definition exponentPart (s : string) : Z :=
  match s with
  | String c r =>
      if (Ascii.eqb c "e" || Ascii.eqb c "E")%bool then
        let '(neg, u) := sign r in
        match fst (span digit u) with
        | [] => 0%Z
        | ds => signed neg (valueOf 10 ds)
        end
      else 0%Z
  | EmptyString => 0%Z
  end.

(** [parseFloat(s)]: the value of the longest prefix of the trimmed string
    that is a [StrDecimalLiteral]; [NaN] when there is none. *)
Definition parseFloat (s : string) : number :=
  let '(neg, u) := sign (trimStart s) in
  if String.prefix "Infinity" u then (if neg then neg_infinity else infinity)
  else
    let '(ip, r1) := span digit u in
    let '(fp, r2) :=
      match r1 with
      | String "." r => span digit r
      | _ => ([], r1)
      end in
    match ip ++ fp with
    | [] => NaN
    | ds => of_decimal neg (valueOf 10 ds)
              (exponentPart r2 - Z.of_nat (List.length fp))
    end.

(** ** Calls that may throw

    The outcome of a call: its value, or the exception it threw, of which
    only the name is kept (no caller in this code inspects it). *)
Inductive completion (A : Type) : Type :=
| Normal (v : A)
| Throw (e : string).
Arguments Normal {A} v.
Arguments Throw {A} e.

Definition bind {A B : Type} (c : completion A) (k : A -> completion B)
  : completion B :=
  match c with
  | Normal v => k v
  | Throw e => Throw e
  end.

Notation "x <- c ;; k" := (bind c (fun x => k))
  (at level 61, c at next level, right associativity).

End JS.

(** ** The TLE parser ([utils/tleParser.ts]) *)

Module TleParser.
Import JS.
Local Open Scope string_scope.

(** The arithmetic the derived-parameter block is written in.  JavaScript
    runs it on binary64 numbers ([Binary64]); [Exact] reads the same
    formulas over the real numbers. *)
Record Arith : Type := {
  num : Type;
  add : num -> num -> num;
  sub : num -> num -> num;
  mul : num -> num -> num;
  div : num -> num -> num;
  pow : num -> num -> num;        (* Math.pow *)
  sqrt : num -> num;              (* Math.sqrt *)
  lt : num -> num -> bool;        (* a < b *)
  literal : Z -> Z -> num;        (* the decimal literal m * 10^e *)
  Math_PI : num                   (* Math.PI *)
}.

(** Binary64 arithmetic.  [Math.pow] is implementation-approximated in
    ECMAScript, so it stays a parameter of the instance. *)
Definition Binary64 (Math_pow : number -> number -> number) : Arith := {|
  num := number;
  add := PrimFloat.add;
  sub := PrimFloat.sub;
  mul := PrimFloat.mul;
  div := PrimFloat.div;
  pow := Math_pow;
  sqrt := PrimFloat.sqrt;
  lt := PrimFloat.ltb;
  literal := lit;
  Math_PI := 0x1.921fb54442d18p+1%float
|}.

(** Exact real arithmetic. *)
Definition Exact : Arith := {|
  num := R;
  add := Rplus;
  sub := Rminus;
  mul := Rmult;
  div := Rdiv;
  pow := Rpower;
  sqrt := R_sqrt.sqrt;
  lt := fun a b => if Rlt_dec a b then true else false;
  literal := fun m e => (IZR m * powerRZ 10 e)%R;
  Math_PI := Rtrigo1.PI
|}.

Declare Scope arith_scope.
Delimit Scope arith_scope with arith.

Section Derived.

Variable A : Arith.

Notation "x + y" := (add A x y) : arith_scope.
Notation "x - y" := (sub A x y) : arith_scope.
Notation "x * y" := (mul A x y) : arith_scope.
Notation "x / y" := (div A x y) : arith_scope.
Notation "x < y" := (lt A x y) : arith_scope.
Notation "x > y" := (lt A y x) : arith_scope.
Local Open Scope arith_scope.

Definition EARTH_RADIUS_KM : num A := literal A 6378137 (-3).
Definition MU_EARTH : num A := literal A 3986004418 (-4).

Record Derived : Type := {
  d_period : num A;          (* minutes *)
  d_semiMajorAxis : num A;   (* km *)
  d_apogee : num A;          (* km above the Earth's surface *)
  d_perigee : num A;         (* km above the Earth's surface *)
  d_velocity : num A;        (* km/s *)
  d_orbitType : string       (* LEO, MEO, GEO, HEO *)
}.

(** "Classify orbit type". *)
Definition classify (perigee eccentricity : num A) : string :=
  if perigee < literal A 2000 0 then
    if eccentricity > literal A 25 (-2) then "HEO" else "LEO"
  else if perigee < literal A 35000 0 then "MEO"
  else "GEO".

(** "Derived Parameters". *)
Definition derive (eccentricity meanMotion : num A) : Derived :=
  let period := literal A 1440 0 / meanMotion in
  let periodSeconds := period * literal A 60 0 in
  let semiMajorAxis :=
    pow A (MU_EARTH * pow A (periodSeconds / (literal A 2 0 * Math_PI A)) (literal A 2 0))
          (literal A 1 0 / literal A 3 0) in
  let apogee := semiMajorAxis * (literal A 1 0 + eccentricity) - EARTH_RADIUS_KM in
  let perigee := semiMajorAxis * (literal A 1 0 - eccentricity) - EARTH_RADIUS_KM in
  let velocity := sqrt A (MU_EARTH / semiMajorAxis) in
  {| d_period := period;
     d_semiMajorAxis := semiMajorAxis;
     d_apogee := apogee;
     d_perigee := perigee;
     d_velocity := velocity;
     d_orbitType := classify perigee eccentricity |}.

End Derived.

(** *** Dates: [Date.UTC(year, 0, 1)], [getTime] and [setTime]

    A [Date] is its time value: milliseconds since 1970-01-01T00:00:00Z,
    [NaN] for an invalid date. *)

(** The day number of the first day of year [y]. *)
Definition DayFromYear (y : Z) : Z :=
  (365 * (y - 1970) + (y - 1969) / 4 - (y - 1901) / 100 + (y - 1601) / 400)%Z.

Definition msPerDay : Z := 86400000.

(** [TimeClip]: a time value is an integer of at most 8.64e15 in
    magnitude. *)
Definition TimeClip (t : number) : number :=
  match truncate t with
  | Some z => if (lit 864 13 <? abs t)%float then NaN else of_Z z
  | None => NaN
  end.

(** [new Date(Date.UTC(year, 0, 1))]. *)
Definition Date_UTC_jan1 (year : number) : number :=
  match truncate year with
  | Some y =>
      let yr := if (0 <=? y)%Z && (y <=? 99)%Z then (1900 + y)%Z else y in
      TimeClip (TimeClip (of_Z (DayFromYear yr * msPerDay)))
  | None => NaN
  end.

Record OrbitalElements : Type := {
  (* From TLE line 1 *)
  satelliteNumber : number;
  classification : string;
  internationalDesignator : string;
  epochYear : number;
  epochDay : number;
  epochDate : number;
  meanMotionDot : number;
  bstar : number;
  (* From TLE line 2 *)
  inclination : number;
  raan : number;
  eccentricity : number;
  argOfPerigee : number;
  meanAnomaly : number;
  meanMotion : number;
  revNumber : number;
  (* Derived parameters *)
  period : number;
  semiMajorAxis : number;
  apogee : number;
  perigee : number;
  velocity : number;
  orbitType : string
}.

Section Parse.

Variable Math_pow : number -> number -> number.

Local Open Scope float_scope.

(** [parseTLE(line1, line2)]. *)
Definition parseTLE (line1 line2 : string) : OrbitalElements :=
  (* Line 1 *)
  let satelliteNumber := parseInt (trim (substring line1 2 7)) in
  let classification := charAt line1 7 in
  let internationalDesignator := trim (substring line1 9 17) in
  let epochYearShort := parseInt (trim (substring line1 18 20)) in
  let epochDay := parseFloat (trim (substring line1 20 32)) in
  let epochYear :=
    if lit 57 0 <=? epochYearShort then lit 1900 0 + epochYearShort
    else lit 2000 0 + epochYearShort in
  let epochDate0 := Date_UTC_jan1 epochYear in
  let epochDate :=
    TimeClip (epochDate0 + (epochDay - lit 1 0) * lit 86400000 0) in
  let meanMotionDot := parseFloat (trim (substring line1 33 43)) in
  let bstarStr := trim (substring line1 53 61) in
  let bstarMantissa :=
    parseFloat (replace (substring bstarStr 0 (length bstarStr - 2)) " " "+") in
  let bstarExp := parseInt (substringFrom bstarStr (length bstarStr - 2)) in
  let bstar := bstarMantissa * Math_pow (lit 10 0) bstarExp in
  (* Line 2 *)
  let inclination := parseFloat (trim (substring line2 8 16)) in
  let raan := parseFloat (trim (substring line2 17 25)) in
  let eccentricity := parseFloat ("0." ++ trim (substring line2 26 33)) in
  let argOfPerigee := parseFloat (trim (substring line2 34 42)) in
  let meanAnomaly := parseFloat (trim (substring line2 43 51)) in
  let meanMotion := parseFloat (trim (substring line2 52 63)) in
  let revNumber := or_else (parseInt (trim (substring line2 63 68))) (lit 0 0) in
  (* Derived parameters *)
  let d := derive (Binary64 Math_pow) eccentricity meanMotion in
  {| satelliteNumber := satelliteNumber;
     classification := classification;
     internationalDesignator := internationalDesignator;
     epochYear := epochYear;
     epochDay := epochDay;
     epochDate := epochDate;
     meanMotionDot := meanMotionDot;
     bstar := bstar;
     inclination := inclination;
     raan := raan;
     eccentricity := eccentricity;
     argOfPerigee := argOfPerigee;
     meanAnomaly := meanAnomaly;
     meanMotion := meanMotion;
     revNumber := revNumber;
     period := d_period d;
     semiMajorAxis := d_semiMajorAxis d;
     apogee := d_apogee d;
     perigee := d_perigee d;
     velocity := d_velocity d;
     orbitType := d_orbitType d |}.

(** A call of [parseTLE] as its callers make it, inside [try]: the body
    has no [throw] and calls only [substring], [charAt], [trim], [replace],
    [parseInt], [parseFloat], [Date] and [Math] functions, none of which
    throws on strings and numbers. *)
Definition call_parseTLE (line1 line2 : string) : completion OrbitalElements :=
  Normal (parseTLE line1 line2).

End Parse.

(** The error the specification names for a malformed element set. *)
Definition MalformedElementSet : string := "MalformedElementSet".

End TleParser.

(** ** Conjunction risk ([services/conjunctions.ts]) *)

Module Conjunctions.
Import JS.
Local Open Scope float_scope.

Inductive RiskLevel : Type := CRITICAL | HIGH | MODERATE | LOW.

Record Vector3 : Type := { x : number; y : number; z : number }.

Definition getRiskLevel (distance : number) : RiskLevel :=
  if distance <? lit 1 0 then CRITICAL
  else if distance <? lit 5 0 then HIGH
  else if distance <? lit 25 0 then MODERATE
  else LOW.

(** Modelled from the spec: the input of the screening pass, which runs in
    the back end and is not among the sources.  A tracked object as
    section 4.4 uses it: catalog number, name and position, the position
    being a [Vector3] as in the events the front end receives. *)
Record Tracked : Type := {
  t_norad : number;
  t_name : string;
  t_position : Vector3
}.

(** The [ConjunctionEvent] interface, its [risk_level] filled in by the
    screening pass; the [timestamp] of the query is left out. *)
Record ConjunctionEvent : Type := {
  sat1_norad : number;
  sat1_name : string;
  sat2_norad : number;
  sat2_name : string;
  distance : number;
  threshold : number;
  risk_level : RiskLevel;
  sat1_position : Vector3;
  sat2_position : Vector3
}.

(** Modelled from the spec: the "Euclidean distance between their
    positions" of section 4.4 (the back end computes it). *)
Definition euclidean (a b : Vector3) : number :=
  let dx := x a - x b in
  let dy := y a - y b in
  let dz := z a - z b in
  PrimFloat.sqrt (dx * dx + dy * dy + dz * dz).

(** Modelled from the spec: one pair of the screening pass, retained when
    [distance < thresholdKm] and then classified by the ladder. *)
Definition pair_event (thresholdKm : number) (a b : Tracked)
  : option ConjunctionEvent :=
  let d := euclidean (t_position a) (t_position b) in
  if d <? thresholdKm then
    Some {| sat1_norad := t_norad a; sat1_name := t_name a;
            sat2_norad := t_norad b; sat2_name := t_name b;
            distance := d; threshold := thresholdKm;
            risk_level := getRiskLevel d;
            sat1_position := t_position a;
            sat2_position := t_position b |}
  else None.

(** Modelled from the spec: the screening pass [screen(states, thresholdKm)]
    runs in the back end, which is not among the sources; the front end only
    receives its events.  Following section 4.4: every unordered pair is
    measured by the Euclidean distance of its positions, pairs with
    [distance < thresholdKm] are retained, and the risk bucket is the
    distance ladder. *)
Fixpoint screen (states : list Tracked) (thresholdKm : number)
  : list ConjunctionEvent :=
  match states with
  | [] => []
  | a :: rest => keep (pair_event thresholdKm a) rest ++ screen rest thresholdKm
  end.

End Conjunctions.

(** ** The propagation worker ([workers/propagation.worker.ts]) *)

Module Worker.
Import JS.
Local Open Scope float_scope.

(** *** The types of satellite.js the worker touches *)

Record EciVec3 : Type := { x : number; y : number; z : number }.

(** [EciVec3 | boolean]. *)
Inductive EciOrBoolean : Type :=
| Eci (v : EciVec3)
| Boolean (b : bool).

Record PositionAndVelocity : Type := {
  position : EciOrBoolean;
  velocity : EciOrBoolean
}.

Record GeodeticLocation : Type := {
  longitude : number;
  latitude : number;
  height : number
}.

(** The imported functions.  [SatRec] is the library's propagator record; a
    [Date] is its time value.  [propagate] may return a falsy value
    ([None]). *)
Record SatelliteJs (SatRec : Type) : Type := {
  twoline2satrec : string -> string -> completion SatRec;
  propagate : SatRec -> number -> completion (option PositionAndVelocity);
  gstime : number -> completion number;
  eciToGeodetic : EciVec3 -> number -> completion GeodeticLocation;
  degreesLong : number -> completion number;
  degreesLat : number -> completion number
}.

(** *** The worker's own records *)

Module TLEInput.
Record t : Type := {
  norad_id : number;
  name : string;
  object_type : option string;
  line1 : string;
  line2 : string
}.
End TLEInput.

Module SatRecord.
Record t (SatRec : Type) : Type := {
  norad_id : number;
  name : string;
  object_type : string;
  satrec : SatRec;
  prevVelocity : option number
}.
Arguments norad_id {SatRec} _.
Arguments name {SatRec} _.
Arguments object_type {SatRec} _.
Arguments satrec {SatRec} _.
Arguments prevVelocity {SatRec} _.
End SatRecord.

(** An entry of the ['positions'] message. *)
Module Position.
Record t : Type := {
  norad_id : number;
  name : string;
  object_type : string;
  lat : number;
  lon : number;
  alt : number;
  velocity : number
}.
End Position.

(** An entry of the ['maneuvers'] message. *)
Module ManeuverEvent.
Record t : Type := {
  norad_id : number;
  name : string;
  deltaV : number;
  prevVelocity : number;
  newVelocity : number;
  timestamp : string
}.
End ManeuverEvent.

(** Messages posted by the worker. *)
Inductive Posted : Type :=
| init_complete (count : nat)
| positions (data : list Position.t)
| maneuvers (data : list ManeuverEvent.t).

(** Messages received by the worker. *)
Inductive Received : Type :=
| init (tles : list TLEInput.t)
| propagate_at (timestamp : string)
| other (type : string).

Section Worker.

Variable SatRec : Type.
Variable lib : SatelliteJs SatRec.
(** [new Date(timestamp)] on an ISO string. *)
Variable Date_parse : string -> number.

(** The module-level [satellites] array. *)
Definition State : Type := list (SatRecord.t SatRec).

(** [tle.object_type || 'UNKNOWN']. *)
Definition object_type_or_unknown (o : option string) : string :=
  match o with
  | Some EmptyString | None => "UNKNOWN"%string
  | Some s => s
  end.

(** The record [initTLEs] pushes for an element set: none when
    [twoline2satrec] throws ("Skip invalid TLEs"). *)
Definition track (tle : TLEInput.t) : option (SatRecord.t SatRec) :=
  match twoline2satrec lib (TLEInput.line1 tle) (TLEInput.line2 tle) with
  | Normal satrec =>
      Some {| SatRecord.norad_id := TLEInput.norad_id tle;
              SatRecord.name := TLEInput.name tle;
              SatRecord.object_type :=
                object_type_or_unknown (TLEInput.object_type tle);
              SatRecord.satrec := satrec;
              SatRecord.prevVelocity := None |}
  | Throw _ => None
  end.

(** One turn of the loop of [initTLEs]. *)
Definition addTLE (satellites : State) (tle : TLEInput.t) : State :=
  push satellites (track tle).

(** Whether [twoline2satrec] returns on an element set. *)
Definition accepted (tle : TLEInput.t) : bool :=
  match twoline2satrec lib (TLEInput.line1 tle) (TLEInput.line2 tle) with
  | Normal _ => true
  | Throw _ => false
  end.

Definition initTLEs (old : State) (tles : list TLEInput.t)
  : State * list Posted :=
  let satellites := fold_left addTLE tles [] in
  (satellites, [init_complete (List.length satellites)]).

(** What one turn of the loop of [propagateAll] has computed when it
    reaches the maneuver detection. *)
Record Observation : Type := {
  o_lat : number;
  o_lon : number;
  o_alt : number;
  o_velocity : number
}.

(** Lines 74-99: [None] stands for [continue], [Throw] is caught by the
    turn's own [catch]. *)
Definition observe (date gmst : number) (sat : SatRecord.t SatRec)
  : completion (option Observation) :=
  positionAndVelocity <- propagate lib (SatRecord.satrec sat) date ;;
  match positionAndVelocity with
  | Some {| position := Eci positionEci; velocity := Eci velocityEci |} =>
      geodetic <- eciToGeodetic lib positionEci gmst ;;
      lat <- degreesLat lib (latitude geodetic) ;;
      lon <- degreesLong lib (longitude geodetic) ;;
      let alt := height geodetic in
      let velocity :=
        PrimFloat.sqrt (x velocityEci * x velocityEci +
                        y velocityEci * y velocityEci +
                        z velocityEci * z velocityEci) in
      Normal (Some {| o_lat := lat; o_lon := lon; o_alt := alt;
                      o_velocity := velocity |})
  | _ => Normal None
  end.

(** Lines 101-114: maneuver detection. *)
Definition detect (timestamp : string) (sat : SatRecord.t SatRec)
  (velocity : number) : option ManeuverEvent.t :=
  match SatRecord.prevVelocity sat with
  | Some prev =>
      if lit 0 0 <? velocity then
        let deltaV := abs (velocity - prev) in
        if lit 5 (-2) <? deltaV then
          Some {| ManeuverEvent.norad_id := SatRecord.norad_id sat;
                  ManeuverEvent.name := SatRecord.name sat;
                  ManeuverEvent.deltaV := deltaV;
                  ManeuverEvent.prevVelocity := prev;
                  ManeuverEvent.newVelocity := velocity;
                  ManeuverEvent.timestamp := timestamp |}
        else None
      else None
  | None => None
  end.

(** Line 115: [sat.prevVelocity = velocity]. *)
Definition remember (sat : SatRecord.t SatRec) (velocity : number)
  : SatRecord.t SatRec :=
  {| SatRecord.norad_id := SatRecord.norad_id sat;
     SatRecord.name := SatRecord.name sat;
     SatRecord.object_type := SatRecord.object_type sat;
     SatRecord.satrec := SatRecord.satrec sat;
     SatRecord.prevVelocity := Some velocity |}.

(** Lines 117-119: "Filter invalid positions". *)
Definition valid_position (lat lon alt : number) : bool :=
  if (isNaN lat || isNaN lon || isNaN alt)%bool then false
  else if ((alt <? lit 0 0) || (lit 100000 0 <? alt))%bool then false
  else true.

(** Lines 121-129. *)
Definition report (sat : SatRecord.t SatRec) (o : Observation) : Position.t :=
  {| Position.norad_id := SatRecord.norad_id sat;
     Position.name := SatRecord.name sat;
     Position.object_type := SatRecord.object_type sat;
     Position.lat := o_lat o;
     Position.lon := o_lon o;
     Position.alt := o_alt o;
     Position.velocity := o_velocity o |}.

(** What one turn of the loop of [propagateAll] does: the satellite as
    the turn leaves it, the maneuver it pushes and the position it
    pushes. *)
Record Turn : Type := {
  left_as : SatRecord.t SatRec;
  pushed_maneuver : option ManeuverEvent.t;
  pushed_position : option Position.t
}.

Definition propagateOne (timestamp : string) (date gmst : number)
  (sat : SatRecord.t SatRec) : Turn :=
  match observe date gmst sat with
  | Normal (Some o) =>
      let m := detect timestamp sat (o_velocity o) in
      let sat' := remember sat (o_velocity o) in
      if valid_position (o_lat o) (o_lon o) (o_alt o)
      then {| left_as := sat'; pushed_maneuver := m;
              pushed_position := Some (report sat o) |}
      else {| left_as := sat'; pushed_maneuver := m;
              pushed_position := None |}
  | Normal None =>
      {| left_as := sat; pushed_maneuver := None; pushed_position := None |}
  | Throw _ => (* Skip propagation errors *)
      {| left_as := sat; pushed_maneuver := None; pushed_position := None |}
  end.

(** The loop of [propagateAll]: satellites already visited, [results] and
    [maneuvers]. *)
Definition turn (timestamp : string) (date gmst : number)
  (acc : State * list Position.t * list ManeuverEvent.t)
  (sat : SatRecord.t SatRec)
  : State * list Position.t * list ManeuverEvent.t :=
  let '(visited, results, found) := acc in
  let t := propagateOne timestamp date gmst sat in
  (visited ++ [left_as t],
   push results (pushed_position t),
   push found (pushed_maneuver t)).

(** [if (maneuvers.length > 0) self.postMessage(...)]. *)
Definition announce (found : list ManeuverEvent.t) : list Posted :=
  match found with
  | [] => []
  | _ => [maneuvers found]
  end.

(** [propagateAll(timestamp)].  [gstime] is called outside the [try]: when
    it throws, the handler ends there, nothing is posted and no satellite
    has been touched. *)
Definition propagateAll (satellites : State) (timestamp : string)
  : State * list Posted :=
  let date := Date_parse timestamp in
  match gstime lib date with
  | Throw _ => (satellites, [])
  | Normal gmst =>
      let '(satellites', results, found) :=
        fold_left (turn timestamp date gmst) satellites ([], [], []) in
      (satellites', positions results :: announce found)
  end.

(** [self.onmessage]. *)
Definition onmessage (satellites : State) (event : Received)
  : State * list Posted :=
  match event with
  | init tles => initTLEs satellites tles
  | propagate_at timestamp => propagateAll satellites timestamp
  | other _ => (satellites, [])
  end.

(** The worker run over a sequence of messages: the final state and
    everything posted, in order. *)
Fixpoint run (satellites : State) (events : list Received)
  : State * list Posted :=
  match events with
  | [] => (satellites, [])
  | e :: rest =>
      let '(s1, out1) := onmessage satellites e in
      let '(s2, out2) := run s1 rest in
      (s2, out1 ++ out2)
  end.

End Worker.

End Worker.

(** ** Concrete inputs

    A stand-in for [Math.pow], a stand-in for satellite.js and a few
    element sets, used to run the definitions above on concrete inputs.
    Every general statement below quantifies over all implementations of
    [Math.pow] and of the library. *)

Module Sample.
Import JS.
Local Open Scope float_scope.

(** Integer powers by repeated multiplication. *)
Definition powZ (b : number) (k : Z) : number :=
  match k with
  | Z0 => lit 1 0
  | Zpos p => Pos.iter (fun a => a * b) (lit 1 0) p
  | Zneg p => lit 1 0 / Pos.iter (fun a => a * b) (lit 1 0) p
  end.

(** Cube roots of positive numbers by Newton's iteration. *)
Definition cbrt (b : number) : number :=
  Nat.iter 120 (fun a => (lit 2 0 * a + b / (a * a)) / lit 3 0) b.

(** A [Math.pow] for the call shapes of [parseTLE]: squares, cube roots
    of positive numbers and integer powers; [NaN] elsewhere. *)
Definition pow_by_iteration (b e : number) : number :=
  if e =? lit 1 0 / lit 3 0 then (if lit 0 0 <? b then cbrt b else NaN)
  else match truncate e with
       | Some k => if of_Z k =? e then powZ b k else NaN
       | None => NaN
       end.

(** The element set of the ISS at epoch 2008, day 264. *)
Definition iss_line1 : string :=
  "1 25544U 98067A   08264.51782528 -.00002182  00000-0 -11606-4 0  2927"%string.
Definition iss_line2 : string :=
  "2 25544  51.6416 247.4627 0006703 130.5360 325.0288 15.72125391563537"%string.

(** An element set from 1998 whose eccentricity columns read [1234567]. *)
Definition old_line1 : string :=
  "1 00005U 58002B   98179.78495062  .00000023  00000-0  28098-4 0  4753"%string.
Definition old_line2 : string :=
  "2 00005  34.2682 348.7242 1234567 331.7664  19.3264 10.82419157413667"%string.

(** An element set within the data-model invariant (eccentricity 0.5, mean
    motion 15 revolutions a day) whose orbit dips below the surface. *)
Definition low_line1 : string :=
  "1 99999U 24001A   24001.00000000  .00000000  00000-0  00000-0 0  9990"%string.
Definition low_line2 : string :=
  "2 99999  51.6000 000.0000 5000000 000.0000 000.0000 15.00000000000010"%string.

(** The same element set with a mean motion field that reads [Infinity]. *)
Definition endless_line2 : string :=
  "2 99999  51.6000 000.0000 5000000 000.0000 000.0000 Infinity   000010"%string.

(** A stand-in for satellite.js.  A propagator record is the trajectory
    itself; a state vector is read as (longitude, latitude, height), the
    conversions to degrees are the identity and the sidereal time is zero.
    [twoline2satrec] rejects lines that are not 69 characters long. *)
Definition Trajectory : Type := number -> completion (option Worker.PositionAndVelocity).

Definition at_ (lon lat alt speed : number)
  : completion (option Worker.PositionAndVelocity) :=
  Normal (Some {| Worker.position :=
                    Worker.Eci {| Worker.x := lon; Worker.y := lat; Worker.z := alt |};
                  Worker.velocity :=
                    Worker.Eci {| Worker.x := speed; Worker.y := lit 0 0; Worker.z := lit 0 0 |} |}).

Definition satellite_js : Worker.SatelliteJs Trajectory := {|
  Worker.twoline2satrec := fun l1 l2 =>
    if (Nat.eqb (String.length l1) 69 && Nat.eqb (String.length l2) 69)%bool
    then Normal (fun _ => at_ (lit 0 0) (lit 0 0) (lit 400 0) (lit 75 (-1)))
    else Throw "Error"%string;
  Worker.propagate := fun s date => s date;
  Worker.gstime := fun _ => Normal (lit 0 0);
  Worker.eciToGeodetic := fun p _ =>
    Normal {| Worker.longitude := Worker.x p;
              Worker.latitude := Worker.y p;
              Worker.height := Worker.z p |};
  Worker.degreesLong := fun r => Normal r;
  Worker.degreesLat := fun r => Normal r
|}.

(** The same stand-in with conversions that check their range as the
    library's do: a latitude outside [-pi/2, pi/2] or a longitude outside
    [-pi, pi] is a [RangeError]. *)
Definition half_pi : number := 0x1.921fb54442d18p+0.
Definition pi : number := 0x1.921fb54442d18p+1.

Definition in_range (bound r : number) : completion number :=
  if ((r <? - bound) || (bound <? r))%bool then Throw "RangeError"%string
  else Normal r.

Definition checked_js : Worker.SatelliteJs Trajectory := {|
  Worker.twoline2satrec := Worker.twoline2satrec satellite_js;
  Worker.propagate := Worker.propagate satellite_js;
  Worker.gstime := Worker.gstime satellite_js;
  Worker.eciToGeodetic := Worker.eciToGeodetic satellite_js;
  Worker.degreesLong := in_range pi;
  Worker.degreesLat := in_range half_pi
|}.

(** Two ticks, two seconds apart. *)
Definition tick0 : string := "2024-01-01T00:00:00.000Z"%string.
Definition tick1 : string := "2024-01-01T00:00:02.000Z"%string.

Definition Date_parse (s : string) : number :=
  if String.eqb s tick0 then lit 1704067200000 0
  else if String.eqb s tick1 then lit 1704067202000 0
  else NaN.

(** A trajectory that is at [first] up to the first tick and at [second]
    afterwards. *)
Definition leg (first second : completion (option Worker.PositionAndVelocity))
  : Trajectory :=
  fun date => if date <=? lit 1704067200000 0 then first else second.

Definition satellite (id : Z) (name : string) (t : Trajectory)
  (prev : option number) : Worker.SatRecord.t Trajectory :=
  {| Worker.SatRecord.norad_id := of_Z id;
     Worker.SatRecord.name := name;
     Worker.SatRecord.object_type := "PAYLOAD"%string;
     Worker.SatRecord.satrec := t;
     Worker.SatRecord.prevVelocity := prev |}.

(** 7.500 km/s, then 7.560 km/s. *)
Definition burning : Trajectory :=
  leg (at_ (lit 10 0) (lit 20 0) (lit 400 0) (lit 75 (-1)))
      (at_ (lit 10 0) (lit 20 0) (lit 400 0) (lit 756 (-2))).

(** 7.500 km/s, then 7.530 km/s. *)
Definition coasting : Trajectory :=
  leg (at_ (lit 10 0) (lit 20 0) (lit 400 0) (lit 75 (-1)))
      (at_ (lit 10 0) (lit 20 0) (lit 400 0) (lit 753 (-2))).

(** 7.500 km/s, then a zero velocity vector. *)
Definition stalled : Trajectory :=
  leg (at_ (lit 10 0) (lit 20 0) (lit 400 0) (lit 75 (-1)))
      (at_ (lit 10 0) (lit 20 0) (lit 400 0) (lit 0 0)).

(** 7.500 km/s at 400 km, then 7.560 km/s at 150000 km. *)
Definition escaping : Trajectory :=
  leg (at_ (lit 10 0) (lit 20 0) (lit 400 0) (lit 75 (-1)))
      (at_ (lit 10 0) (lit 20 0) (lit 150000 0) (lit 756 (-2))).

(** A latitude that is infinite. *)
Definition astray : Trajectory :=
  fun _ => at_ (lit 10 0) infinity (lit 400 0) (lit 75 (-1)).

(** The satellites above as the worker holds them after the first tick. *)
Definition after_first_tick (id : Z) (name : string) (t : Trajectory)
  : Worker.SatRecord.t Trajectory :=
  satellite id name t (Some (lit 75 (-1))).

(** A satellite one radian north and east of the origin. *)
Definition northeast : Trajectory :=
  fun _ => at_ (lit 1 0) (lit 1 0) (lit 400 0) (lit 75 (-1)).

Definition northeast_fix : Worker.Position.t :=
  {| Worker.Position.norad_id := of_Z 6;
     Worker.Position.name := "F"%string;
     Worker.Position.object_type := "PAYLOAD"%string;
     Worker.Position.lat := lit 1 0;
     Worker.Position.lon := lit 1 0;
     Worker.Position.alt := lit 400 0;
     Worker.Position.velocity := lit 75 (-1) |}.

(** Two tracked objects [d] km apart. *)
Definition apart (d : number) : list Conjunctions.Tracked :=
  [ {| Conjunctions.t_norad := of_Z 1; Conjunctions.t_name := "A"%string;
       Conjunctions.t_position :=
         {| Conjunctions.x := lit 0 0; Conjunctions.y := lit 0 0;
            Conjunctions.z := lit 0 0 |} |};
    {| Conjunctions.t_norad := of_Z 2; Conjunctions.t_name := "B"%string;
       Conjunctions.t_position :=
         {| Conjunctions.x := d; Conjunctions.y := lit 0 0;
            Conjunctions.z := lit 0 0 |} |} ].

(** A catalog of three element sets, the second of which is truncated. *)
Definition iss_tle : Worker.TLEInput.t :=
  {| Worker.TLEInput.norad_id := of_Z 25544;
     Worker.TLEInput.name := "ISS (ZARYA)"%string;
     Worker.TLEInput.object_type := Some "PAYLOAD"%string;
     Worker.TLEInput.line1 := iss_line1;
     Worker.TLEInput.line2 := iss_line2 |}.

Definition truncated_tle : Worker.TLEInput.t :=
  {| Worker.TLEInput.norad_id := of_Z 5;
     Worker.TLEInput.name := "VANGUARD 1"%string;
     Worker.TLEInput.object_type := None;
     Worker.TLEInput.line1 := old_line1;
     Worker.TLEInput.line2 := "2 00005"%string |}.

Definition test_tle : Worker.TLEInput.t :=
  {| Worker.TLEInput.norad_id := of_Z 99999;
     Worker.TLEInput.name := "TEST"%string;
     Worker.TLEInput.object_type := Some ""%string;
     Worker.TLEInput.line1 := low_line1;
     Worker.TLEInput.line2 := low_line2 |}.

Definition catalog : list Worker.TLEInput.t :=
  [iss_tle; truncated_tle; test_tle].

End Sample.

(** * Binary64 rounding, read on integers

    Every binary64 operation of the derived-parameter block ([+], [-],
    [*], [/]) is IEEE 754's: the exact result, rounded once to the nearest
    binary64 number, ties to even.  The standard library specifies it as
    the shift-and-round procedure [binary_round_aux]; the definitions
    below name what that procedure computes, so that the order of the
    results can be read off the order of the exact values. *)

Module Rounding.
Local Open Scope Z_scope.

(** [m / 2^k] rounded to the nearest integer, ties to even. *)
Definition rne (m k : Z) : Z :=
  let q := m / 2 ^ k in
  match 2 * (m mod 2 ^ k) ?= 2 ^ k with
  | Lt => q
  | Eq => if Z.even q then q else q + 1
  | Gt => q + 1
  end.

(** The exponent of the binary64 numbers of magnitude [2^(g-1) .. 2^g]:
    53 bits of precision, least exponent -1074. *)
Definition fexp64 (g : Z) : Z := Z.max (g - 53) (-1074).

(** The second half of [binary_round_aux]: renormalise and check the
    exponent range. *)
Definition encode (s : bool) (m e : Z) : spec_float :=
  let '(mrs, e') := shr_fexp prec emax m e loc_Exact in
  match shr_m mrs with
  | Z0 => S754_zero s
  | Zpos p => if e' <=? emax - prec then S754_finite s p e' else S754_infinity s
  | Zneg _ => S754_nan
  end.

(** The number of bits the first half of [binary_round_aux] drops. *)
Definition dropped (m e : Z) : Z := Z.max 0 (fexp64 (Zdigits2 m + e) - e).

(** What [encode] returns on the mantissas the first half produces. *)
Definition enc (s : bool) (M E : Z) : spec_float :=
  if M =? 0 then S754_zero s
  else if M <? 2 ^ 53 then
    if E <=? 971 then S754_finite s (Z.to_pos M) E else S754_infinity s
  else
    if E + 1 <=? 971 then S754_finite s (2 ^ 52)%positive (E + 1)
    else S754_infinity s.

(** [rnds s L N] is the binary64 number nearest to [N * 2^L], with sign
    [s]; [L] is a scale below every binary64 exponent. *)
Definition rnds (s : bool) (L N : Z) : spec_float :=
  binary_round_aux prec emax s N L loc_Exact.

(** The number of bits dropped when [N * 2^L] is rounded. *)
Definition kk (L N : Z) : Z := Z.max (Zdigits2 N - 53) (-1074 - L).

(** The integer a finite binary64 number stands for, in units of
    [2^-1074]. *)
Definition W (x : spec_float) : Z :=
  match x with
  | S754_finite s m e => cond_Zopp s (Zpos m * 2 ^ (e + 1074))
  | _ => 0
  end.

(** Finite and greater than zero. *)
Definition positive_finite (x : spec_float) : Prop :=
  valid_binary x = true /\
  exists m e, x = S754_finite false m e.

(** Zero, a positive finite number or [+Infinity]. *)
Definition nonneg_shape (x : spec_float) : Prop :=
  match x with
  | S754_zero false | S754_finite false _ _ | S754_infinity false => True
  | _ => False
  end.

(** Rounding of a signed integer number of units of [2^-1074]. *)
Definition RND (z : Z) : spec_float :=
  if z =? 0 then S754_zero false
  else if 0 <? z then rnds false (-1074) z
  else rnds true (-1074) (- z).

(** [1], [2] and the least positive binary64 number. *)
Definition SF_one : spec_float := S754_finite false 4503599627370496 (-52).
Definition SF_two : spec_float := S754_finite false 4503599627370496 (-51).
Definition SF_tiny : spec_float := S754_finite false 1 (-1074).

End Rounding.

(** * The hook that owns the worker ([hooks/useWorkerPositions.ts])

    [useWorkerPositions] keeps four pieces of React state and updates
    them from the messages the worker posts. *)

Module Hook.
Import JS.

Record State : Type := {
  positions : list Worker.Position.t;
  maneuvers : list Worker.ManeuverEvent.t;
  isReady : bool;
  satCount : nat
}.

(** The state of the first render. *)
Definition initial : State :=
  {| positions := []; maneuvers := []; isReady := false; satCount := 0 |}.

(** [worker.onmessage].  [[...event.data.data, ...prev].slice(0, 50)] is
    the new batch followed by the log, cut after 50 entries. *)
Definition onmessage (s : State) (m : Worker.Posted) : State :=
  match m with
  | Worker.init_complete count =>
      {| positions := positions s; maneuvers := maneuvers s;
         isReady := true; satCount := count |}
  | Worker.positions data =>
      {| positions := data; maneuvers := maneuvers s;
         isReady := isReady s; satCount := satCount s |}
  | Worker.maneuvers data =>
      {| positions := positions s;
         maneuvers := firstn 50 (data ++ maneuvers s);
         isReady := isReady s; satCount := satCount s |}
  end.

(** The hook after a sequence of messages from the worker. *)
Definition receive (s : State) (ms : list Worker.Posted) : State :=
  fold_left onmessage ms s.

(** The batch of events a message carries. *)
Definition batch (m : Worker.Posted) : option (list Worker.ManeuverEvent.t) :=
  match m with
  | Worker.maneuvers data => Some data
  | _ => None
  end.

End Hook.

(** * Formatting numbers ([utils/tleParser.ts], lines 471-494)

    [formatOrbital] and [getTLEAgeString] print numbers with
    [Number.prototype.toFixed], [Math.round] and the conversion of a
    number to a string in a template literal. *)

Module Format.
Import JS.
Local Open Scope Z_scope.
Local Open Scope string_scope.

(** The character of a decimal digit. *)
Definition digitChar (d : Z) : ascii := ascii_of_nat (48 + Z.to_nat d).

(** The decimal digits of [n >= 0] before [acc], most significant first;
    [fuel] bounds their number. *)
Fixpoint digits (fuel : nat) (n : Z) (acc : string) : string :=
  match fuel with
  | O => acc
  | S fuel' =>
      let acc' := String (digitChar (n mod 10)) acc in
      if (n / 10 =? 0)%Z then acc' else digits fuel' (n / 10) acc'
  end.

(** The decimal representation of [n >= 0]. *)
Definition decimal (n : Z) : string :=
  digits (S (Z.to_nat (Z.log2 n))) n "".

Fixpoint zeros (k : nat) : string :=
  match k with
  | O => ""
  | S k' => String "0" (zeros k')
  end.

(** Steps 11.b-c of [toFixed]: the digits [m] of [n] with a decimal point
    before the last [f] of them, padded with zeros on the left so that at
    least one digit stands before the point. *)
Definition place (m : string) (f : nat) : string :=
  match f with
  | O => m
  | S _ =>
      let k := String.length m in
      let m' := if (k <=? f)%nat then zeros (f + 1 - k) ++ m else m in
      let k' := String.length m' in
      String.substring 0 (k' - f) m' ++ "." ++ String.substring (k' - f) f m'
  end.

(** The integer [n] for which [n / 10^f - m * 2^e] is closest to zero,
    the larger one of two. *)
Definition nearest (m : positive) (e : Z) (f : Z) : Z :=
  match e with
  | Zneg k => (2 * Zpos m * 10 ^ f + 2 ^ Zpos k) / 2 ^ (Zpos k + 1)
  | _ => Zpos m * 2 ^ e * 10 ^ f
  end.

(** Whether the finite number [m * 2^e] is at least [10^21]. *)
Definition huge (m : positive) (e : Z) : bool :=
  match e with
  | Zneg k => (10 ^ 21 * 2 ^ Zpos k <=? Zpos m)%Z
  | _ => (10 ^ 21 <=? Zpos m * 2 ^ e)%Z
  end.

(** The integer a finite number is, if it is one. *)
Definition integral (m : positive) (e : Z) : option Z :=
  match e with
  | Zneg k =>
      if (Zpos m mod 2 ^ Zpos k =? 0)%Z then Some (Zpos m / 2 ^ Zpos k)
      else None
  | _ => Some (Zpos m * 2 ^ e)%Z
  end.

(** A string of decimal digits only; the number such a string reads as;
    the number of digits a string starts with. *)
Definition numeral (s : string) : Prop := snd (span digit s) = EmptyString.
Definition dv (s : string) : Z := valueOf 10 (fst (span digit s)).
Definition dl (s : string) : nat := List.length (fst (span digit s)).

Section Printing.

(** [Number::toString] on the numbers that are not integers of magnitude
    at most [2^53]: the shortest digits that read back as the number, in
    positional or exponent notation.  The code below only prints such
    numbers in corner cases, and what is proved does not depend on their
    digits. *)
Variable shortest : number -> string.

(** [Number::toString(x)], as a template literal applies it.  An integer
    of magnitude at most [2^53] prints as its decimal digits. *)
Definition ToString (x : number) : string :=
  match Prim2SF x with
  | S754_nan => "NaN"
  | S754_zero _ => "0"
  | S754_infinity s => if s then "-Infinity" else "Infinity"
  | S754_finite s m e =>
      match integral m e with
      | Some n =>
          if (n <=? 2 ^ 53)%Z
          then (if s then "-" else "") ++ decimal n
          else shortest x
      | None => shortest x
      end
  end.

(** [ToIntegerOrInfinity(fractionDigits)] followed by the two range
    checks of [toFixed]: the number of digits, or none for a
    [RangeError]. *)
Definition fractionDigits (d : number) : option nat :=
  if is_nan d then Some 0%nat
  else match truncate d with
       | Some f => if ((f <? 0) || (100 <? f))%Z%bool then None
                   else Some (Z.to_nat f)
       | None => None
       end.

(** [x.toFixed(d)] once [d] has passed the range checks and stands for
    [f] digits. *)
Definition fixed (x : number) (f : nat) : string :=
  match Prim2SF x with
  | S754_nan => "NaN"
  | S754_infinity s => if s then "-Infinity" else "Infinity"
  | S754_zero _ => place "0" f
  | S754_finite s m e =>
      (if s then "-" else "") ++
      (if huge m e then ToString (abs x)
       else place (decimal (nearest m e (Z.of_nat f))) f)
  end.

(** [x.toFixed(d)]. *)
Definition toFixed (x d : number) : completion string :=
  match fractionDigits d with
  | None => Throw "RangeError"
  | Some f => Normal (fixed x f)
  end.

(** [formatOrbital(value, decimals, unit)]; the callers that leave
    [decimals] and [unit] out get [2] and the empty string. *)
Definition formatOrbital (value decimals : number) (unit : string)
  : completion string :=
  fixed <- toFixed value decimals ;;
  Normal (fixed ++ match unit with
                   | EmptyString => ""
                   | _ => " " ++ unit
                   end).

(** [Math.round(x)]: the nearest integer, the larger one of two; a
    result of zero keeps the sign of [x]. *)
Definition Math_round (x : number) : number :=
  match Prim2SF x with
  | S754_finite s m (Zneg k) =>
      if (Zpos m mod 2 ^ Zpos k =? 0)%Z then x
      else
        let n := ((2 * signed s (Zpos m) + 2 ^ Zpos k) / 2 ^ (Zpos k + 1))%Z in
        if (n =? 0)%Z then (if s then PrimFloat.neg_zero else PrimFloat.zero)
        else of_Z n
  | _ => x
  end.

(** [getTLEAge(epochDate)]: [now] is [Date.now()] and [epoch] is
    [epochDate.getTime()], [NaN] for an invalid date. *)
Definition getTLEAge (now epoch : number) : number :=
  ((now - epoch) / (lit 1000 0 * lit 60 0 * lit 60 0))%float.

(** [getTLEAgeString(epochDate)]. *)
Definition getTLEAgeString (now epoch : number) : string :=
  let hours := getTLEAge now epoch in
  if (hours <? lit 1 0)%float then
    ToString (Math_round (hours * lit 60 0)%float) ++ "m ago"
  else if (hours <? lit 24 0)%float then
    ToString (Math_round hours) ++ "h ago"
  else if (hours <? lit 168 0)%float then
    ToString (Math_round (hours / lit 24 0)%float) ++ "d ago"
  else
    ToString (Math_round (hours / lit 168 0)%float) ++ "w ago".

End Printing.

End Format.

(** * Notifications ([hooks/useNotifications], in the same file)

    The list of notifications is React state; [addNotification],
    [markAsRead], [markAllRead] and [clearAll] replace it. *)

Module Notifications.
Import JS.
Local Open Scope string_scope.

Inductive NotificationSeverity : Type := critical | warning | info | success.

Inductive NotificationType : Type :=
  conjunction | reentry | visibility | maneuver | system.

Definition MAX_NOTIFICATIONS : nat := 100.

Section Notifications.

(** The optional [data] of a notification, a [Record<string, unknown>]. *)
Variable Data : Type.

Record AppNotification : Type := {
  id : string;
  type : NotificationType;
  severity : NotificationSeverity;
  title : string;
  message : string;
  timestamp : number;           (* a Date, as its time value *)
  read : bool;
  noradId : option number;
  data : option Data
}.

(** [{ ...n, read: true }]. *)
Definition as_read (n : AppNotification) : AppNotification :=
  {| id := id n; type := type n; severity := severity n; title := title n;
     message := message n; timestamp := timestamp n; read := true;
     noradId := noradId n; data := data n |}.

(** The notification [addNotification] builds.  [fresh] is the identifier
    the call computes from [Date.now()] and [Math.random()], and [now] is
    the time value of [new Date()]. *)
Definition notification (fresh : string) (now : number)
  (ty : NotificationType) (sev : NotificationSeverity)
  (ti msg : string) (norad : option number) (d : option Data)
  : AppNotification :=
  {| id := fresh; type := ty; severity := sev; title := ti; message := msg;
     timestamp := now; read := false; noradId := norad; data := d |}.

(** The update of [addNotification]:
    [[notification, ...prev].slice(0, MAX_NOTIFICATIONS)]. *)
Definition addNotification (n : AppNotification) (prev : list AppNotification)
  : list AppNotification :=
  firstn MAX_NOTIFICATIONS (n :: prev).

(** The browser permission: [None] when there is no [Notification]
    API. *)
Inductive Permission : Type := default | granted | denied.

Record BrowserNotification : Type := {
  b_title : string;
  b_body : string;
  b_icon : string;
  b_tag : string
}.

(** The browser notification [addNotification] asks for. *)
Definition browser (permission : option Permission) (n : AppNotification)
  : option BrowserNotification :=
  match permission, severity n with
  | Some granted, (critical | warning) =>
      Some {| b_title := "PerigeeWatch: " ++ title n;
              b_body := message n;
              b_icon := "/favicon.ico";
              b_tag := id n |}
  | _, _ => None
  end.

(** [markAsRead(id)]. *)
Definition markAsRead (i : string) (prev : list AppNotification)
  : list AppNotification :=
  map (fun n => if String.eqb (id n) i then as_read n else n) prev.

(** [markAllRead()]. *)
Definition markAllRead (prev : list AppNotification) : list AppNotification :=
  map as_read prev.

(** [clearAll()]. *)
Definition clearAll (prev : list AppNotification) : list AppNotification := [].

(** [notifications.filter(n => !n.read).length]. *)
Definition unreadCount (l : list AppNotification) : nat :=
  List.length (filter (fun n => negb (read n)) l).

(** What the effect writes to local storage:
    [notifications.slice(0, MAX_NOTIFICATIONS)]. *)
Definition persisted (l : list AppNotification) : list AppNotification :=
  firstn MAX_NOTIFICATIONS l.

(** A call of one of the four functions the hook returns. *)
Inductive Call : Type :=
| Add (n : AppNotification)
| MarkAsRead (i : string)
| MarkAllRead
| ClearAll.

Definition call (l : list AppNotification) (c : Call) : list AppNotification :=
  match c with
  | Add n => addNotification n l
  | MarkAsRead i => markAsRead i l
  | MarkAllRead => markAllRead l
  | ClearAll => clearAll l
  end.

Definition calls (l : list AppNotification) (cs : list Call)
  : list AppNotification :=
  fold_left call cs l.

End Notifications.

End Notifications.

(** * Conjunction alerts ([getRiskColor] and the poll of [App.tsx]) *)

Module Alerts.
Import JS.
Local Open Scope string_scope.

(** [getRiskColor(level)]; the [default] branch is the one for ['LOW']. *)
Definition getRiskColor (level : Conjunctions.RiskLevel) : string :=
  match level with
  | Conjunctions.CRITICAL => "#FF3B30"
  | Conjunctions.HIGH => "#FF9500"
  | Conjunctions.MODERATE => "#FFCC00"
  | Conjunctions.LOW => "#00D1FF"
  end.

(** The [ConjunctionEvent] interface. *)
Record ConjunctionEvent : Type := {
  sat1_norad : number;
  sat1_name : string;
  sat2_norad : number;
  sat2_name : string;
  timestamp : string;
  distance : number;
  threshold : number;
  risk_level : option string;
  sat1_position : Conjunctions.Vector3;
  sat2_position : Conjunctions.Vector3
}.

(** The arguments of a call of [addNotification]. *)
Record Request : Type := {
  r_type : Notifications.NotificationType;
  r_severity : Notifications.NotificationSeverity;
  r_title : string;
  r_message : string;
  r_noradId : number
}.

Section Alerts.

Variable shortest : number -> string.

(** The key of a pair: [`${c.sat1_norad}-${c.sat2_norad}`]. *)
Definition key (c : ConjunctionEvent) : string :=
  Format.ToString shortest (sat1_norad c) ++ "-" ++
  Format.ToString shortest (sat2_norad c).

(** [name || norad] inside a template literal. *)
Definition label (name : string) (norad : number) : string :=
  match name with
  | EmptyString => Format.ToString shortest norad
  | _ => name
  end.

(** [prevIds.has(key)]. *)
Definition known (prev : list ConjunctionEvent) (c : ConjunctionEvent) : bool :=
  existsb (String.eqb (key c)) (map key prev).

(** The body of the [forEach] of [loadRisks] ([App.tsx], lines 256-267):
    the notification asked for, if any. *)
Definition alert (prev : list ConjunctionEvent) (c : ConjunctionEvent)
  : option Request :=
  if (negb (known prev c) && (distance c <? lit 5 0)%float)%bool then
    Some {| r_type := Notifications.conjunction;
            r_severity := if (distance c <? lit 1 0)%float
                          then Notifications.critical
                          else Notifications.warning;
            r_title := "Conjunction Alert: " ++
                       label (sat1_name c) (sat1_norad c);
            r_message := "Close approach with " ++
                         label (sat2_name c) (sat2_norad c) ++ ": " ++
                         Format.fixed shortest (distance c) 2 ++ " km";
            r_noradId := sat1_norad c |}
  else None.

(** The state update of [loadRisks]: the new list of conjunctions and the
    notifications asked for on the way. *)
Definition loadRisks (prev data : list ConjunctionEvent)
  : list ConjunctionEvent * list Request :=
  (data, keep (alert prev) data).

End Alerts.

End Alerts.

(** * Signs of binary64 numbers *)

Module Signs.

(** A zero, an infinity or a finite number with the sign [s]. *)
Definition carries (s : bool) (x : spec_float) : Prop :=
  match x with
  | S754_zero s' | S754_infinity s' | S754_finite s' _ _ => s' = s
  | S754_nan => False
  end.

End Signs.

(** * More sample inputs *)

Module Cases.
Import JS Sample.
Local Open Scope float_scope.

(** A trajectory whose velocity vector has a component that is [NaN]. *)
Definition lost : Trajectory :=
  fun _ => at_ (lit 10 0) (lit 20 0) (lit 400 0) NaN.

(** What the worker observes of it. *)
Definition lost_observation : Worker.Observation :=
  {| Worker.o_lat := lit 20 0;
     Worker.o_lon := lit 10 0;
     Worker.o_alt := lit 400 0;
     Worker.o_velocity :=
       PrimFloat.sqrt (NaN * NaN + lit 0 0 * lit 0 0 + lit 0 0 * lit 0 0) |}.

(** Messages as the worker receives them over two ticks. *)
Definition two_ticks : list Worker.Received :=
  [Worker.propagate_at tick0; Worker.other "ping"%string;
   Worker.propagate_at tick1].

(** A stand-in for the digits of numbers that are not integers. *)
Definition no_digits (x : number) : string := "?"%string.

(** A first line cut short before the epoch field. *)
Definition cut_line1 : string := "1 25544U 98067A"%string.

End Cases.

(** * Comparisons of binary64 numbers *)

Module FloatFacts.
Import JS.
Local Open Scope float_scope.

Lemma SFcompare_swap (a b : spec_float) :
  SFcompare b a = option_map CompOpp (SFcompare a b).
Proof.
  destruct a as [sa|sa| |sa ma ea], b as [sb|sb| |sb mb eb]; simpl;
    try reflexivity;
    try (destruct sa; reflexivity); try (destruct sb; reflexivity);
    try (destruct sa, sb; reflexivity).
  destruct sa, sb; try reflexivity;
    rewrite (Z.compare_antisym ea eb);
    destruct (ea ?= eb)%Z; simpl; try reflexivity;
    rewrite (Pos.compare_cont_antisym ma mb Eq); reflexivity.
Qed.

Lemma SFcompare_refl (a : spec_float) :
  a <> S754_nan -> SFcompare a a = Some Eq.
Proof.
  destruct a as [s|s| |s m e]; simpl; intros H; try congruence.
  - destruct s; reflexivity.
  - rewrite Z.compare_refl, Pos.compare_cont_refl. destruct s; reflexivity.
Qed.

Lemma SFcompare_None (a b : spec_float) :
  SFcompare a b = None <-> a = S754_nan \/ b = S754_nan.
Proof.
  destruct a as [sa|sa| |sa ma ea], b as [sb|sb| |sb mb eb]; simpl;
    split; intros H; try discriminate; auto;
    destruct H as [H|H]; discriminate.
Qed.

Lemma is_nan_spec (a : float) : is_nan a = true <-> Prim2SF a = S754_nan.
Proof.
  unfold is_nan. rewrite FloatAxioms.eqb_spec. unfold SFeqb. split.
  - intros H. destruct (Prim2SF a) eqn:E; try reflexivity;
      rewrite SFcompare_refl in H by discriminate; discriminate.
  - intros ->. reflexivity.
Qed.

Lemma is_nan_false (a : float) : is_nan a = false <-> Prim2SF a <> S754_nan.
Proof.
  rewrite <- is_nan_spec. destruct (is_nan a); split; congruence.
Qed.

Lemma ltb_not_nan (a b : float) :
  (a <? b) = true -> is_nan a = false /\ is_nan b = false.
Proof.
  rewrite FloatAxioms.ltb_spec, !is_nan_false. unfold SFltb. intros H.
  split; intros E; rewrite E in H; simpl in H;
    try discriminate; destruct (Prim2SF a); discriminate.
Qed.

Lemma leb_not_nan (a b : float) :
  (a <=? b) = true -> is_nan a = false /\ is_nan b = false.
Proof.
  rewrite FloatAxioms.leb_spec, !is_nan_false. unfold SFleb. intros H.
  split; intros E; rewrite E in H; simpl in H;
    try discriminate; destruct (Prim2SF a); discriminate.
Qed.

(** [a <= b] excludes [b < a]. *)
Lemma leb_ltb_false (a b : float) : (a <=? b) = true -> (b <? a) = false.
Proof.
  rewrite FloatAxioms.leb_spec, FloatAxioms.ltb_spec. unfold SFleb, SFltb.
  rewrite (SFcompare_swap (Prim2SF a) (Prim2SF b)).
  destruct (SFcompare (Prim2SF a) (Prim2SF b)) as [[ | | ]|];
    simpl; congruence.
Qed.

(** On numbers that are not [NaN], [b < a] failing gives [a <= b]. *)
Lemma not_ltb_leb (a b : float) :
  is_nan a = false -> is_nan b = false -> (b <? a) = false -> (a <=? b) = true.
Proof.
  rewrite FloatAxioms.leb_spec, FloatAxioms.ltb_spec, !is_nan_false. unfold SFleb, SFltb.
  intros Ha Hb. rewrite (SFcompare_swap (Prim2SF a) (Prim2SF b)).
  destruct (SFcompare (Prim2SF a) (Prim2SF b)) as [[ | | ]|] eqn:E;
    simpl; try congruence.
  apply SFcompare_None in E. tauto.
Qed.

Lemma lexcmp_spec e1 m1 e2 m2 :
  match lexcmp e1 m1 e2 m2 with
  | Lt => (e1 < e2 \/ e1 = e2 /\ (m1 < m2)%positive)%Z
  | Eq => e1 = e2 /\ m1 = m2
  | Gt => (e2 < e1 \/ e1 = e2 /\ (m2 < m1)%positive)%Z
  end.
Proof.
  unfold lexcmp. destruct (Z.compare_spec e1 e2) as [E|E|E]; auto.
  change (Pos.compare_cont Eq m1 m2) with (Pos.compare m1 m2).
  destruct (Pos.compare_spec m1 m2); auto.
Qed.

Lemma lexcmp_opp e1 m1 e2 m2 :
  match (e1 ?= e2)%Z with
  | Lt => Gt
  | Gt => Lt
  | Eq => CompOpp (Pos.compare_cont Eq m1 m2)
  end = CompOpp (lexcmp e1 m1 e2 m2).
Proof. unfold lexcmp. destruct (e1 ?= e2)%Z; reflexivity. Qed.

Lemma SFleb_trans (a b c : spec_float) :
  SFleb a b = true -> SFleb b c = true -> SFleb a c = true.
Proof.
  unfold SFleb.
  destruct a as [sa|sa| |sa ma ea], b as [sb|sb| |sb mb eb],
    c as [sc|sc| |sc mc ec]; simpl; try discriminate; try reflexivity;
    try (destruct sa; simpl; try discriminate; try reflexivity);
    try (destruct sb; simpl; try discriminate; try reflexivity);
    try (destruct sc; simpl; try discriminate; try reflexivity);
    try (intros; assumption).
  all: rewrite ?lexcmp_opp;
    fold (lexcmp ea ma eb mb); fold (lexcmp eb mb ec mc);
    fold (lexcmp ea ma ec mc);
    generalize (lexcmp_spec ea ma eb mb), (lexcmp_spec eb mb ec mc),
      (lexcmp_spec ea ma ec mc);
    destruct (lexcmp ea ma eb mb), (lexcmp eb mb ec mc),
      (lexcmp ea ma ec mc); simpl; try discriminate; try reflexivity;
    intros H1 H2 H3 _ _; exfalso; lia.
Qed.

Lemma leb_trans (a b c : float) :
  (a <=? b) = true -> (b <=? c) = true -> (a <=? c) = true.
Proof. rewrite !FloatAxioms.leb_spec. apply SFleb_trans. Qed.

Lemma is_infinity_spec (a : float) :
  is_infinity a = true <-> exists s, Prim2SF a = S754_infinity s.
Proof.
  unfold is_infinity. rewrite FloatAxioms.eqb_spec, abs_spec.
  change (Prim2SF infinity) with (S754_infinity false).
  unfold SFeqb. destruct (Prim2SF a) as [s|s| |s m e]; simpl; split;
    try discriminate; try (intros [s' H]; discriminate); eauto.
Qed.

(** A number between two finite bounds is finite. *)
Lemma between_is_finite (lo a hi : float) :
  is_finite lo = true -> is_finite hi = true ->
  (lo <=? a) = true -> (a <=? hi) = true -> is_finite a = true.
Proof.
  unfold is_finite. intros Hlo Hhi H1 H2.
  apply negb_true_iff in Hlo, Hhi. apply orb_false_iff in Hlo, Hhi.
  destruct Hlo as [Nlo Ilo], Hhi as [Nhi Ihi].
  pose proof H1 as Na. apply leb_not_nan in Na. destruct Na as [_ Na].
  rewrite Na. simpl.
  apply negb_true_iff. destruct (is_infinity a) eqn:E; [|reflexivity].
  apply is_infinity_spec in E. destruct E as [s E].
  rewrite FloatAxioms.leb_spec in H1, H2. unfold SFleb in H1, H2.
  rewrite E in H1, H2.
  apply is_nan_false in Nlo, Nhi.
  assert (Flo : forall s', Prim2SF lo <> S754_infinity s').
  { intros s' C.
    assert (is_infinity lo = true) by (apply is_infinity_spec; eauto).
    congruence. }
  assert (Fhi : forall s', Prim2SF hi <> S754_infinity s').
  { intros s' C.
    assert (is_infinity hi = true) by (apply is_infinity_spec; eauto).
    congruence. }
  destruct s.
  - destruct (Prim2SF lo) as [s'|s'| |s' m e]; simpl in H1; try discriminate.
    exfalso; apply (Flo s'); reflexivity.
  - destruct (Prim2SF hi) as [s'|s'| |s' m e]; simpl in H2; try discriminate.
    exfalso; apply (Fhi s'); reflexivity.
Qed.

End FloatFacts.

Import JS FloatFacts.

(** * Rounding in binary64 keeps the order

    [binary_round_aux] is characterised by [rne] and [enc]; from there,
    rounding is monotone and leaves binary64 numbers unchanged, and each
    operation is one rounding of its exact result. *)

Module RoundingFacts.
Import Rounding.
Local Open Scope Z_scope.
Local Unset Implicit Arguments.

(** ** Digits *)

Lemma digits2_size (p : positive) : digits2_pos p = Pos.size p.
Proof. induction p; simpl; congruence. Qed.

Lemma digits_bounds (p : positive) :
  2 ^ (Zpos (digits2_pos p) - 1) <= Zpos p < 2 ^ Zpos (digits2_pos p).
Proof.
  rewrite digits2_size. split.
  - pose proof (Pos.size_le p) as H.
    assert (E : 2 ^ Zpos (Pos.size p) = 2 * 2 ^ (Zpos (Pos.size p) - 1)).
    { rewrite <- Z.pow_succ_r by lia. f_equal. lia. }
    assert (Zpos (2 ^ Pos.size p) <= Zpos p~0) by exact H.
    rewrite Pos2Z.inj_pow in H0. lia.
  - pose proof (Pos.size_gt p) as H.
    assert (Zpos p < Zpos (2 ^ Pos.size p)) by exact H.
    now rewrite Pos2Z.inj_pow in H0.
Qed.

(** The number of digits is determined by the binade. *)
Lemma digits_unique (p : positive) (d : Z) :
  2 ^ (d - 1) <= Zpos p < 2 ^ d -> Zpos (digits2_pos p) = d.
Proof.
  intros [L U]. pose proof (digits_bounds p) as [L' U'].
  assert (0 < d).
  { destruct (Z_lt_le_dec 0 d); [assumption|].
    assert (2 ^ d <= 2 ^ 0) by (apply Z.pow_le_mono_r; lia).
    simpl in H. lia. }
  destruct (Z_lt_le_dec (Zpos (digits2_pos p)) d) as [C|C].
  - assert (2 ^ Zpos (digits2_pos p) <= 2 ^ (d - 1))
      by (apply Z.pow_le_mono_r; lia). lia.
  - destruct (Z_lt_le_dec d (Zpos (digits2_pos p))) as [C'|C']; [|lia].
    assert (2 ^ d <= 2 ^ (Zpos (digits2_pos p) - 1))
      by (apply Z.pow_le_mono_r; lia). lia.
Qed.

(** ** Shifting right *)

Lemma iter_pos_comm (A : Type) (f : A -> A) (p : positive) (x : A) :
  SpecFloat.iter_pos f p (f x) = f (SpecFloat.iter_pos f p x).
Proof.
  revert x. induction p as [p IH|p IH|]; intros x; simpl.
  - now rewrite !IH.
  - now rewrite !IH.
  - reflexivity.
Qed.

Lemma iter_pos_succ (A : Type) (f : A -> A) (p : positive) (x : A) :
  SpecFloat.iter_pos f (Pos.succ p) x = f (SpecFloat.iter_pos f p x).
Proof.
  revert x. induction p as [p IH|p IH|]; intros x; simpl.
  - rewrite !IH. now rewrite !iter_pos_comm.
  - now rewrite !iter_pos_comm.
  - reflexivity.
Qed.

Lemma shr_1_nonneg (m : Z) (r s : bool) :
  0 <= m ->
  shr_1 {| shr_m := m; shr_r := r; shr_s := s |} =
  {| shr_m := m / 2; shr_r := Z.odd m; shr_s := r || s |}.
Proof.
  intros H. destruct m as [|p|p]; try lia; [reflexivity|].
  destruct p as [p|p|]; unfold shr_1; f_equal.
  - apply Z.div_unique with (r := 1); lia.
  - apply Z.div_unique with (r := 0); lia.
Qed.


Lemma shr_exact (m : Z) (p : positive) :
  0 <= m ->
  SpecFloat.iter_pos shr_1 p {| shr_m := m; shr_r := false; shr_s := false |} =
  {| shr_m := m / 2 ^ Zpos p;
     shr_r := Z.odd (m / 2 ^ (Zpos p - 1));
     shr_s := negb (m mod 2 ^ (Zpos p - 1) =? 0) |}.
Proof.
  intros Hm. induction p as [|p IH] using Pos.peano_ind.
  - cbn [SpecFloat.iter_pos]. rewrite shr_1_nonneg by assumption.
    change (2 ^ 1) with 2. change (2 ^ (1 - 1)) with 1.
    now rewrite Z.div_1_r, Z.mod_1_r.
  - rewrite iter_pos_succ, IH.
    assert (P : 0 < 2 ^ (Zpos p - 1)) by (apply Z.pow_pos_nonneg; lia).
    assert (E : 2 ^ Zpos p = 2 ^ (Zpos p - 1) * 2).
    { rewrite Z.mul_comm, <- Z.pow_succ_r by lia. f_equal. lia. }
    rewrite shr_1_nonneg by (apply Z.div_pos; lia).
    f_equal.
    + rewrite Z.div_div by lia. f_equal.
      rewrite Pos2Z.inj_succ, Z.pow_succ_r by lia. lia.
    + f_equal. f_equal. f_equal. lia.
    + replace (Zpos (Pos.succ p) - 1) with (Zpos p) by lia.
      rewrite E, Z.rem_mul_r by lia. rewrite Zmod_odd.
      pose proof (Z.mod_pos_bound m (2 ^ (Zpos p - 1)) P) as B.
      destruct (Z.odd (m / 2 ^ (Zpos p - 1))); cbn [orb].
      * symmetry. apply negb_true_iff, Z.eqb_neq. nia.
      * f_equal. f_equal. lia.
Qed.


Lemma rne_0 (m : Z) : rne m 0 = m.
Proof. unfold rne. change (2 ^ 0) with 1. now rewrite Z.mod_1_r, Z.div_1_r. Qed.

Lemma round_shr (m : Z) (p : positive) :
  0 <= m ->
  let mrs := SpecFloat.iter_pos shr_1 p {| shr_m := m; shr_r := false; shr_s := false |} in
  round_nearest_even (shr_m mrs) (loc_of_shr_record mrs) = rne m (Zpos p).
Proof.
  intros Hm. cbv zeta. rewrite shr_exact by assumption. unfold rne.
  assert (P : 0 < 2 ^ (Zpos p - 1)) by (apply Z.pow_pos_nonneg; lia).
  assert (E : 2 ^ Zpos p = 2 ^ (Zpos p - 1) * 2).
  { rewrite Z.mul_comm, <- Z.pow_succ_r by lia. f_equal. lia. }
  rewrite E. rewrite Z.rem_mul_r by lia. rewrite Zmod_odd.
  pose proof (Z.mod_pos_bound m (2 ^ (Zpos p - 1)) P) as B.
  cbn [shr_m loc_of_shr_record].
  destruct (Z.odd (m / 2 ^ (Zpos p - 1))).
  - destruct (Z.eqb_spec (m mod 2 ^ (Zpos p - 1)) 0) as [Z0|NZ]; cbn [negb round_nearest_even].
    + rewrite Z0.
      replace (2 * (0 + 2 ^ (Zpos p - 1) * 1)) with (2 ^ (Zpos p - 1) * 2) by lia.
      now rewrite Z.compare_refl.
    + assert (G : 2 * (m mod 2 ^ (Zpos p - 1) + 2 ^ (Zpos p - 1) * 1) > 2 ^ (Zpos p - 1) * 2) by lia.
      unfold Z.gt in G. now rewrite G.
  - assert (G : 2 * (m mod 2 ^ (Zpos p - 1) + 2 ^ (Zpos p - 1) * 0) < 2 ^ (Zpos p - 1) * 2) by lia.
    unfold Z.lt in G. rewrite G.
    now destruct (negb (m mod 2 ^ (Zpos p - 1) =? 0)).
Qed.

Lemma rne_floor (m k : Z) : m / 2 ^ k <= rne m k <= m / 2 ^ k + 1.
Proof.
  unfold rne. destruct (2 * (m mod 2 ^ k) ?= 2 ^ k);
    try destruct (Z.even (m / 2 ^ k)); lia.
Qed.

Lemma rne_mult (a k : Z) : 0 <= k -> rne (a * 2 ^ k) k = a.
Proof.
  intros Hk. unfold rne.
  assert (P : 0 < 2 ^ k) by (apply Z.pow_pos_nonneg; lia).
  rewrite Z.mod_mul, Z.div_mul by lia.
  assert (G : 2 * 0 < 2 ^ k) by lia. unfold Z.lt in G. now rewrite G.
Qed.

Lemma rne_mono (m1 m2 k : Z) : 0 <= k -> m1 <= m2 -> rne m1 k <= rne m2 k.
Proof.
  intros Hk H.
  assert (P : 0 < 2 ^ k) by (apply Z.pow_pos_nonneg; lia).
  assert (Q : m1 / 2 ^ k <= m2 / 2 ^ k) by (apply Z.div_le_mono; lia).
  destruct (Z.eq_dec (m1 / 2 ^ k) (m2 / 2 ^ k)) as [E|N].
  - pose proof (Z.div_mod m1 (2 ^ k)) as D1.
    pose proof (Z.div_mod m2 (2 ^ k)) as D2.
    assert (R : m1 mod 2 ^ k <= m2 mod 2 ^ k) by (rewrite E in D1; lia).
    unfold rne. rewrite E.
    destruct (Z.compare_spec (2 * (m1 mod 2 ^ k)) (2 ^ k));
      destruct (Z.compare_spec (2 * (m2 mod 2 ^ k)) (2 ^ k));
      try destruct (Z.even (m2 / 2 ^ k)); lia.
  - pose proof (rne_floor m1 k). pose proof (rne_floor m2 k). lia.
Qed.

Lemma rne_shift (m k j : Z) :
  0 <= k -> 0 <= j -> rne (m * 2 ^ j) (k + j) = rne m k.
Proof.
  intros Hk Hj. unfold rne.
  assert (P : 0 < 2 ^ k) by (apply Z.pow_pos_nonneg; lia).
  assert (Q : 0 < 2 ^ j) by (apply Z.pow_pos_nonneg; lia).
  rewrite Z.pow_add_r by lia.
  rewrite Z.div_mul_cancel_r by lia.
  rewrite Zmult_mod_distr_r.
  replace (2 * (m mod 2 ^ k * 2 ^ j)) with (2 * (m mod 2 ^ k) * 2 ^ j) by lia.
  now rewrite <- Zmult_compare_compat_r by lia.
Qed.


(** ** Digits of integers *)

Lemma Zdigits2_bounds (n : Z) :
  0 < n -> 2 ^ (Zdigits2 n - 1) <= n < 2 ^ Zdigits2 n.
Proof. destruct n; try lia. intros _. apply digits_bounds. Qed.

Lemma Zdigits2_unique (n d : Z) :
  0 < n -> 2 ^ (d - 1) <= n < 2 ^ d -> Zdigits2 n = d.
Proof. destruct n; try lia. intros _. apply digits_unique. Qed.

Lemma Zdigits2_nonneg (n : Z) : 0 <= Zdigits2 n.
Proof. destruct n; simpl; lia. Qed.

Lemma Zdigits2_pos (n : Z) : 0 < n -> 0 < Zdigits2 n.
Proof. destruct n; simpl; lia. Qed.

Lemma Zdigits2_mono (n1 n2 : Z) :
  0 <= n1 <= n2 -> Zdigits2 n1 <= Zdigits2 n2.
Proof.
  intros [H0 H]. destruct (Z.eq_dec n1 0) as [->|N].
  - apply Zdigits2_nonneg.
  - pose proof (Zdigits2_bounds n1 ltac:(lia)) as [L1 U1].
    pose proof (Zdigits2_bounds n2 ltac:(lia)) as [L2 U2].
    pose proof (Zdigits2_pos n2 ltac:(lia)).
    assert (2 ^ (Zdigits2 n1 - 1) < 2 ^ Zdigits2 n2) by lia.
    apply Z.pow_lt_mono_r_iff in H2; lia.
Qed.

Lemma Zdigits2_shift (n j : Z) :
  0 < n -> 0 <= j -> Zdigits2 (n * 2 ^ j) = Zdigits2 n + j.
Proof.
  intros Hn Hj.
  assert (Q : 0 < 2 ^ j) by (apply Z.pow_pos_nonneg; lia).
  pose proof (Zdigits2_bounds n Hn) as [L U].
  pose proof (Zdigits2_pos n Hn).
  apply Zdigits2_unique; [nia|].
  replace (Zdigits2 n + j - 1) with (Zdigits2 n - 1 + j) by lia.
  rewrite !Z.pow_add_r by lia. nia.
Qed.

(** ** The rounding step of every binary64 operation *)


Lemma fexp_eq (g : Z) : fexp prec emax g = fexp64 g.
Proof. reflexivity. Qed.



Lemma shr_fexp_exact (m e : Z) :
  0 <= m ->
  exists mrs, shr_fexp prec emax m e loc_Exact = (mrs, e + dropped m e) /\
    round_nearest_even (shr_m mrs) (loc_of_shr_record mrs) = rne m (dropped m e).
Proof.
  intros Hm. unfold shr_fexp, shr, dropped. rewrite fexp_eq.
  destruct (fexp64 (Zdigits2 m + e) - e) as [|p|p] eqn:K.
  - eexists. split.
    + cbn [shr_record_of_loc]. rewrite Z.add_0_r. reflexivity.
    + cbn. now rewrite rne_0.
  - eexists. split.
    + cbn [shr_record_of_loc]. replace (Z.max 0 (Zpos p)) with (Zpos p) by lia.
      reflexivity.
    + replace (Z.max 0 (Zpos p)) with (Zpos p) by lia.
      apply (round_shr m p Hm).
  - eexists. split.
    + cbn [shr_record_of_loc]. replace (Z.max 0 (Zneg p)) with 0 by lia.
      rewrite Z.add_0_r. reflexivity.
    + replace (Z.max 0 (Zneg p)) with 0 by lia. cbn. now rewrite rne_0.
Qed.

Lemma bra_exact (s : bool) (m e : Z) :
  0 <= m ->
  binary_round_aux prec emax s m e loc_Exact =
  encode s (rne m (dropped m e)) (e + dropped m e).
Proof.
  intros Hm. unfold binary_round_aux.
  destruct (shr_fexp_exact m e Hm) as (mrs & E1 & E2).
  rewrite E1, E2. reflexivity.
Qed.


Lemma encode_spec (s : bool) (M E : Z) :
  -1074 <= E -> 0 <= M <= 2 ^ 53 -> E = -1074 \/ 2 ^ 52 <= M ->
  encode s M E = enc s M E.
Proof.
  intros HE HM HN. unfold encode, enc, shr_fexp, shr. rewrite fexp_eq.
  destruct (Z.eqb_spec M 0) as [->|NZ].
  - cbn [Zdigits2]. unfold fexp64.
    destruct (Z.max (0 + E - 53) (-1074) - E) eqn:K; try lia; reflexivity.
  - destruct (Z.ltb_spec M (2 ^ 53)) as [LT|GE].
    + pose proof (Zdigits2_bounds M ltac:(lia)) as [L U].
      pose proof (Zdigits2_pos M ltac:(lia)) as DP.
      assert (D : Zdigits2 M <= 53).
      { assert (2 ^ (Zdigits2 M - 1) < 2 ^ 53) by lia.
        apply Z.pow_lt_mono_r_iff in H; lia. }
      assert (D' : 2 ^ 52 <= M -> Zdigits2 M = 53).
      { intros G. assert (2 ^ 52 < 2 ^ Zdigits2 M) by lia.
        apply Z.pow_lt_mono_r_iff in H; lia. }
      replace (fexp64 (Zdigits2 M + E) - E) with 0 by (unfold fexp64; lia).
      cbn [shr_record_of_loc shr_m].
      destruct M as [|p|p]; try lia. reflexivity.
    + assert (M = 2 ^ 53) by lia. subst M.
      replace (fexp64 (Zdigits2 (2 ^ 53) + E) - E) with 1.
      * reflexivity.
      * change (Zdigits2 (2 ^ 53)) with 54. unfold fexp64. lia.
Qed.


Ltac split_tests :=
  repeat match goal with
  | |- context [Z.eqb ?a ?b] => destruct (Z.eqb_spec a b)
  | |- context [Z.ltb ?a ?b] => destruct (Z.ltb_spec a b)
  | |- context [Z.leb ?a ?b] => destruct (Z.leb_spec a b)
  end.

Lemma enc_le (M1 E1 M2 E2 : Z) :
  0 <= M1 <= 2 ^ 53 -> 0 <= M2 <= 2 ^ 53 ->
  (E1 = E2 /\ M1 <= M2) \/ (E1 < E2 /\ 2 ^ 52 <= M2) ->
  SFleb (enc false M1 E1) (enc false M2 E2) = true.
Proof.
  intros B1 B2 H. unfold enc.
  assert (P52 : Zpos (2 ^ 52) = 2 ^ 52) by reflexivity.
  split_tests; try lia; cbn [SFleb SFcompare]; try reflexivity.
  all: match goal with
       | |- context [?a ?= ?b] =>
         destruct (Z.compare_spec a b); try lia; try reflexivity
       end.
  all: match goal with
       | |- context [PosDef.Pos.compare_cont Eq ?a ?b] =>
         change (PosDef.Pos.compare_cont Eq a b) with (Pos.compare a b);
         destruct (Pos.compare_spec a b); try reflexivity
       end.
  all: lia.
Qed.

(** The sign is carried along unchanged. *)
Lemma enc_opp (M E : Z) : enc true M E = SFopp (enc false M E).
Proof. unfold enc. split_tests; reflexivity. Qed.

(** A rounded non-negative number is a non-negative float. *)
Lemma enc_nonneg (M E : Z) : SFleb (S754_zero false) (enc false M E) = true.
Proof. unfold enc. split_tests; reflexivity. Qed.

(** *** Rounding at a fixed scale *)



Lemma dropped_kk (L N : Z) : L <= -1074 -> dropped N L = kk L N.
Proof. intros H. unfold dropped, kk, fexp64. lia. Qed.

Lemma rne_bounds (L N : Z) :
  L <= -1074 -> 0 <= N ->
  0 <= rne N (kk L N) <= 2 ^ 53 /\
  (-1074 - L < kk L N -> 2 ^ 52 <= rne N (kk L N)).
Proof.
  intros HL HN.
  assert (K : 0 <= kk L N) by (unfold kk; lia).
  assert (P : 0 < 2 ^ kk L N) by (apply Z.pow_pos_nonneg; lia).
  repeat split.
  - pose proof (rne_floor N (kk L N)).
    assert (0 <= N / 2 ^ kk L N) by (apply Z.div_pos; lia). lia.
  - rewrite <- (rne_mult (2 ^ 53) (kk L N) K).
    apply rne_mono; [assumption|].
    rewrite <- Z.pow_add_r by lia.
    destruct (Z.eq_dec N 0) as [->|NZ].
    + apply Z.pow_nonneg. lia.
    + pose proof (Zdigits2_bounds N ltac:(lia)) as [_ U].
      assert (2 ^ Zdigits2 N <= 2 ^ (53 + kk L N))
        by (apply Z.pow_le_mono_r; unfold kk; lia).
      lia.
  - intros G.
    rewrite <- (rne_mult (2 ^ 52) (kk L N) K).
    apply rne_mono; [assumption|].
    rewrite <- Z.pow_add_r by lia.
    assert (E : kk L N = Zdigits2 N - 53) by (unfold kk in *; lia).
    destruct (Z.eq_dec N 0) as [->|NZ].
    + cbn [Zdigits2] in E. lia.
    + pose proof (Zdigits2_bounds N ltac:(lia)) as [Lo _].
      replace (52 + kk L N) with (Zdigits2 N - 1) by lia. assumption.
Qed.

Lemma rnds_enc (s : bool) (L N : Z) :
  L <= -1074 -> 0 <= N ->
  rnds s L N = enc s (rne N (kk L N)) (L + kk L N).
Proof.
  intros HL HN. unfold rnds. rewrite bra_exact, dropped_kk by assumption.
  destruct (rne_bounds L N HL HN) as [B G].
  apply encode_spec; [unfold kk; lia|assumption|].
  destruct (Z.eq_dec (kk L N) (-1074 - L)) as [E|NE].
  - left. lia.
  - right. apply G. unfold kk in *. lia.
Qed.

(** Rounding is monotone. *)
Lemma rnds_mono (L N1 N2 : Z) :
  L <= -1074 -> 0 <= N1 <= N2 ->
  SFleb (rnds false L N1) (rnds false L N2) = true.
Proof.
  intros HL [H0 H]. rewrite !rnds_enc by lia.
  destruct (rne_bounds L N1 HL H0) as [B1 _].
  destruct (rne_bounds L N2 HL ltac:(lia)) as [B2 G2].
  pose proof (Zdigits2_mono N1 N2 (conj H0 H)) as D.
  assert (K : kk L N1 <= kk L N2) by (unfold kk; lia).
  apply enc_le; try assumption.
  destruct (Z.eq_dec (kk L N1) (kk L N2)) as [E|NE].
  - left. split; [lia|]. rewrite E. apply rne_mono; [unfold kk; lia|assumption].
  - right. split; [lia|]. apply G2. unfold kk in *. lia.
Qed.

Lemma rnds_opp (L N : Z) :
  L <= -1074 -> 0 <= N -> rnds true L N = SFopp (rnds false L N).
Proof. intros HL HN. rewrite !rnds_enc by assumption. apply enc_opp. Qed.

Lemma rnds_nonneg (L N : Z) :
  L <= -1074 -> 0 <= N -> SFleb (S754_zero false) (rnds false L N) = true.
Proof. intros HL HN. rewrite rnds_enc by assumption. apply enc_nonneg. Qed.

(** An operation's exact result can be rescaled before it is rounded. *)
Lemma bra_shift (s : bool) (m e L : Z) :
  0 < m -> L <= e -> e <= fexp64 (Zdigits2 m + e) ->
  binary_round_aux prec emax s m e loc_Exact = rnds s L (m * 2 ^ (e - L)).
Proof.
  intros Hm HL K. unfold rnds.
  assert (Q : 0 < 2 ^ (e - L)) by (apply Z.pow_pos_nonneg; lia).
  rewrite !bra_exact by nia.
  assert (D1 : dropped m e = fexp64 (Zdigits2 m + e) - e)
    by (unfold dropped; lia).
  assert (D2 : dropped (m * 2 ^ (e - L)) L = dropped m e + (e - L)).
  { unfold dropped. rewrite Zdigits2_shift by lia.
    replace (Zdigits2 m + (e - L) + L) with (Zdigits2 m + e) by lia. lia. }
  rewrite D2, rne_shift by lia. f_equal. lia.
Qed.

(** *** Binary64 numbers as integers *)

Lemma bounded_spec (m : positive) (e : Z) :
  SpecFloat.bounded prec emax m e = true ->
  fexp64 (Zdigits2 (Zpos m) + e) = e /\ -1074 <= e <= 971 /\
  Zpos m < 2 ^ 53 /\ (e = -1074 \/ 2 ^ 52 <= Zpos m).
Proof.
  unfold SpecFloat.bounded, canonical_mantissa. rewrite fexp_eq. intros H.
  apply andb_true_iff in H as [C B].
  apply Z.eqb_eq in C. apply Z.leb_le in B.
  change (emax - prec) with 971 in B.
  cbn [Zdigits2].
  pose proof (digits_bounds m) as [Lo Up].
  split; [assumption|]. unfold fexp64 in C.
  split; [lia|]. split.
  - assert (2 ^ Zpos (digits2_pos m) <= 2 ^ 53)
      by (apply Z.pow_le_mono_r; lia). lia.
  - destruct (Z.eq_dec e (-1074)); [now left|right].
    replace 52 with (Zpos (digits2_pos m) - 1) by lia. assumption.
Qed.

(** A binary64 number is its own rounding. *)
Lemma rnds_exact (s : bool) (L : Z) (m : positive) (e : Z) :
  L <= -1074 -> SpecFloat.bounded prec emax m e = true ->
  rnds s L (Zpos m * 2 ^ (e - L)) = S754_finite s m e.
Proof.
  intros HL B. destruct (bounded_spec m e B) as (C & R & U & N).
  rewrite <- bra_shift by lia.
  rewrite bra_exact by lia.
  assert (D : dropped (Zpos m) e = 0) by (unfold dropped; lia).
  rewrite D, rne_0, Z.add_0_r, encode_spec by lia.
  unfold enc. split_tests; try lia. reflexivity.
Qed.




Lemma W_pos (x : spec_float) : positive_finite x -> 0 < W x.
Proof.
  intros [V (m & e & ->)]. cbn [W cond_Zopp].
  destruct (bounded_spec m e V) as (_ & R & _).
  assert (0 < 2 ^ (e + 1074)) by (apply Z.pow_pos_nonneg; lia). nia.
Qed.


Lemma SFcompare_opp (a b : spec_float) :
  SFcompare (SFopp a) (SFopp b) = SFcompare b a.
Proof.
  destruct a as [sa|sa| |sa ma ea], b as [sb|sb| |sb mb eb]; cbn [SFopp SFcompare];
    try reflexivity;
    try (destruct sa; reflexivity); try (destruct sb; reflexivity);
    try (destruct sa, sb; reflexivity).
  destruct sa, sb; cbn [negb]; try reflexivity;
    rewrite (Z.compare_antisym ea eb); destruct (ea ?= eb); cbn [CompOpp];
    try reflexivity; f_equal.
  - now rewrite (Pos.compare_cont_antisym mb ma Eq).
  - now rewrite (Pos.compare_cont_antisym ma mb Eq).
Qed.

Lemma SFleb_opp (a b : spec_float) :
  SFleb (SFopp a) (SFopp b) = SFleb b a.
Proof. unfold SFleb. now rewrite SFcompare_opp. Qed.

Lemma enc_sign_le (M1 E1 M2 E2 : Z) :
  SFleb (enc true M1 E1) (enc false M2 E2) = true.
Proof. unfold enc. split_tests; reflexivity. Qed.

Lemma enc_neg_le_zero (M E : Z) :
  SFleb (enc true M E) (S754_zero false) = true.
Proof. unfold enc. split_tests; reflexivity. Qed.

Lemma RND_mono (z1 z2 : Z) : z1 <= z2 -> SFleb (RND z1) (RND z2) = true.
Proof.
  intros H. unfold RND.
  destruct (Z.eqb_spec z1 0) as [->|N1].
  - destruct (Z.eqb_spec z2 0) as [->|N2]; [reflexivity|].
    destruct (Z.ltb_spec 0 z2); [|lia]. apply rnds_nonneg; lia.
  - destruct (Z.ltb_spec 0 z1).
    + destruct (Z.eqb_spec z2 0); [lia|].
      destruct (Z.ltb_spec 0 z2); [|lia]. apply rnds_mono; lia.
    + destruct (Z.eqb_spec z2 0) as [->|N2].
      * rewrite rnds_enc by lia. apply enc_neg_le_zero.
      * destruct (Z.ltb_spec 0 z2).
        -- rewrite !rnds_enc by lia. apply enc_sign_le.
        -- rewrite !rnds_opp by lia. rewrite SFleb_opp.
           apply rnds_mono; lia.
Qed.

Lemma RND_exact (x : spec_float) : positive_finite x -> RND (W x) = x.
Proof.
  intros PF. pose proof (W_pos x PF) as P.
  destruct PF as [V (m & e & ->)]. unfold RND.
  destruct (Z.eqb_spec (W (S754_finite false m e)) 0); [lia|].
  destruct (Z.ltb_spec 0 (W (S754_finite false m e))); [|lia].
  cbn [W cond_Zopp].
  replace (e + 1074) with (e - -1074) by lia.
  apply rnds_exact; [lia|assumption].
Qed.

Lemma RND_exact_opp (x : spec_float) :
  positive_finite x -> RND (- W x) = SFopp x.
Proof.
  intros PF. pose proof (W_pos x PF) as P.
  destruct PF as [V (m & e & ->)]. unfold RND.
  destruct (Z.eqb_spec (- W (S754_finite false m e)) 0); [lia|].
  destruct (Z.ltb_spec 0 (- W (S754_finite false m e))); [lia|].
  rewrite Z.opp_involutive.
  cbn [W cond_Zopp SFopp negb].
  replace (e + 1074) with (e - -1074) by lia.
  apply rnds_exact; [lia|assumption].
Qed.

(** The order of binary64 numbers is the order of the integers they
    stand for. *)
Lemma SFleb_W (x y : spec_float) :
  positive_finite x -> positive_finite y ->
  SFleb x y = true -> W x <= W y.
Proof.
  intros Px Py H.
  destruct (Z_le_gt_dec (W x) (W y)) as [|G]; [assumption|exfalso].
  assert (R : SFleb (RND (W y)) (RND (W x)) = true) by (apply RND_mono; lia).
  rewrite !RND_exact in R by assumption.
  destruct Px as [_ (mx & ex & ->)], Py as [_ (my & ey & ->)].
  unfold SFleb in *. rewrite (SFcompare_swap (S754_finite false mx ex)) in R.
  cbn [SFcompare] in *. 
  destruct (Z.compare_spec ex ey) as [E|E|E]; cbn in R; try discriminate.
  subst ey.
  destruct (Pos.compare_cont Eq mx my) eqn:C; cbn in R; try discriminate.
  apply Pos.compare_eq in C. subst my. lia.
Qed.

Lemma SFltb_W (x y : spec_float) :
  positive_finite x -> positive_finite y ->
  SFltb x y = true -> W x < W y.
Proof.
  intros Px Py H.
  destruct (Z_lt_le_dec (W x) (W y)) as [|G]; [assumption|exfalso].
  assert (R : SFleb (RND (W y)) (RND (W x)) = true) by (apply RND_mono; lia).
  rewrite !RND_exact in R by assumption.
  unfold SFleb, SFltb in *. rewrite (SFcompare_swap x y) in R.
  destruct (SFcompare x y) as [[ | | ]|]; cbn in R; discriminate.
Qed.


(** ** The operations, as one rounding of the exact result *)

Lemma iter_xO (m d : positive) :
  Zpos (Pos.iter xO m d) = Zpos m * 2 ^ Zpos d.
Proof.
  induction d as [|d IH] using Pos.peano_ind.
  - cbn [Pos.iter]. change (2 ^ 1) with 2. lia.
  - rewrite Pos.iter_succ, Pos2Z.inj_xO, IH, Pos2Z.inj_succ.
    rewrite Z.pow_succ_r by lia. lia.
Qed.

Lemma shl_align_spec (m : positive) (e e' : Z) :
  snd (shl_align m e e') = Z.min e e' /\
  Zpos (fst (shl_align m e e')) = Zpos m * 2 ^ (e - Z.min e e').
Proof.
  unfold shl_align. destruct (e' - e) as [|d|d] eqn:K; cbn [fst snd].
  - replace (Z.min e e') with e by lia. rewrite Z.sub_diag. split; lia.
  - replace (Z.min e e') with e by lia. rewrite Z.sub_diag. split; lia.
  - replace (Z.min e e') with e' by lia. split; [reflexivity|].
    rewrite iter_xO. f_equal. f_equal. lia.
Qed.

Lemma binary_round_rnds (s : bool) (m : positive) (e : Z) :
  -1074 <= e ->
  binary_round prec emax s m e = rnds s (-1074) (Zpos m * 2 ^ (e + 1074)).
Proof.
  intros He. unfold binary_round. rewrite fexp_eq.
  pose proof (shl_align_spec m e (fexp64 (Zpos (digits2_pos m) + e))) as [S F].
  destruct (shl_align m e (fexp64 (Zpos (digits2_pos m) + e))) as [mz ez].
  cbn [fst snd] in S, F.
  assert (G : -1074 <= fexp64 (Zpos (digits2_pos m) + e)) by (unfold fexp64; lia).
  assert (Q : 0 < 2 ^ (e - ez)) by (apply Z.pow_pos_nonneg; lia).
  assert (D : Zdigits2 (Zpos mz) + ez = Zpos (digits2_pos m) + e).
  { rewrite F, S, Zdigits2_shift by lia. cbn [Zdigits2]. lia. }
  rewrite (bra_shift s (Zpos mz) ez (-1074)); [|lia|lia|rewrite D; lia].
  f_equal. rewrite F, S, <- Z.mul_assoc, <- Z.pow_add_r by lia.
  f_equal. f_equal. lia.
Qed.

Lemma binary_normalize_RND (z e : Z) :
  -1074 <= e ->
  binary_normalize prec emax z e false = RND (z * 2 ^ (e + 1074)).
Proof.
  intros He. unfold binary_normalize, RND.
  assert (Q : 0 < 2 ^ (e + 1074)) by (apply Z.pow_pos_nonneg; lia).
  destruct z as [|m|m].
  - reflexivity.
  - destruct (Z.eqb_spec (Zpos m * 2 ^ (e + 1074)) 0); [nia|].
    destruct (Z.ltb_spec 0 (Zpos m * 2 ^ (e + 1074))); [|nia].
    now apply binary_round_rnds.
  - destruct (Z.eqb_spec (Zneg m * 2 ^ (e + 1074)) 0); [nia|].
    destruct (Z.ltb_spec 0 (Zneg m * 2 ^ (e + 1074))); [nia|].
    rewrite binary_round_rnds by assumption. f_equal. lia.
Qed.

Lemma aligned (m : positive) (e e' : Z) :
  -1074 <= e' <= e ->
  Zpos (fst (shl_align m e e')) * 2 ^ (e' + 1074) = Zpos m * 2 ^ (e + 1074).
Proof.
  intros H. destruct (shl_align_spec m e e') as [_ F]. rewrite F.
  replace (Z.min e e') with e' by lia.
  rewrite <- Z.mul_assoc, <- Z.pow_add_r by lia. f_equal. f_equal. lia.
Qed.

Lemma SFadd_RND (x y : spec_float) :
  positive_finite x -> positive_finite y ->
  SF64add x y = RND (W x + W y).
Proof.
  intros [Vx (mx & ex & ->)] [Vy (my & ey & ->)].
  destruct (bounded_spec mx ex Vx) as (_ & Rx & _).
  destruct (bounded_spec my ey Vy) as (_ & Ry & _).
  unfold SF64add, SFadd. cbv zeta. cbn [cond_Zopp W].
  rewrite binary_normalize_RND by lia. f_equal.
  rewrite Z.mul_add_distr_r, !aligned by lia. reflexivity.
Qed.

Lemma SFsub_RND (x y : spec_float) :
  positive_finite x -> positive_finite y ->
  SF64sub x y = RND (W x - W y).
Proof.
  intros [Vx (mx & ex & ->)] [Vy (my & ey & ->)].
  destruct (bounded_spec mx ex Vx) as (_ & Rx & _).
  destruct (bounded_spec my ey Vy) as (_ & Ry & _).
  unfold SF64sub, SFsub. cbv zeta. cbn [cond_Zopp W].
  rewrite binary_normalize_RND by lia. f_equal.
  rewrite Z.mul_sub_distr_r, !aligned by lia. reflexivity.
Qed.

Lemma SFmul_rnds (x y : spec_float) :
  positive_finite x -> positive_finite y ->
  SF64mul x y = rnds false (-2148) (W x * W y).
Proof.
  intros [Vx (mx & ex & ->)] [Vy (my & ey & ->)].
  destruct (bounded_spec mx ex Vx) as (Cx & Rx & Ux & Nx).
  destruct (bounded_spec my ey Vy) as (Cy & Ry & Uy & Ny).
  unfold SF64mul, SFmul. cbn [xorb cond_Zopp W].
  pose proof (digits_bounds mx) as [Lx Bx].
  pose proof (digits_bounds my) as [Ly By].
  pose proof (digits_bounds (mx * my)) as [Lz Bz].
  cbn [Zdigits2] in Cx, Cy.
  assert (D : Zpos (digits2_pos mx) + Zpos (digits2_pos my) - 1
              <= Zpos (digits2_pos (mx * my))).
  { assert (2 ^ (Zpos (digits2_pos mx) - 1) * 2 ^ (Zpos (digits2_pos my) - 1)
            < 2 ^ Zpos (digits2_pos (mx * my))).
    { rewrite Pos2Z.inj_mul in Bz.
      assert (0 < 2 ^ (Zpos (digits2_pos mx) - 1)) by (apply Z.pow_pos_nonneg; lia).
      assert (0 < 2 ^ (Zpos (digits2_pos my) - 1)) by (apply Z.pow_pos_nonneg; lia).
      nia. }
    rewrite <- Z.pow_add_r in H by lia.
    apply Z.pow_lt_mono_r_iff in H; lia. }
  rewrite (bra_shift false (Zpos (mx * my)) (ex + ey) (-2148)).
  - f_equal. rewrite Pos2Z.inj_mul.
    replace (ex + ey - -2148) with ((ex + 1074) + (ey + 1074)) by lia.
    rewrite Z.pow_add_r by lia. lia.
  - lia.
  - lia.
  - cbn [Zdigits2]. unfold fexp64 in *. lia.
Qed.


(** ** Order through subtraction and multiplication *)


Lemma enc_shape (M E : Z) : nonneg_shape (enc false M E).
Proof. unfold enc. split_tests; exact I. Qed.

Lemma rnds_shape (L N : Z) :
  L <= -1074 -> 0 <= N -> nonneg_shape (rnds false L N).
Proof. intros HL HN. rewrite rnds_enc by assumption. apply enc_shape. Qed.

Lemma RND_shape (z : Z) : 0 <= z -> nonneg_shape (RND z).
Proof.
  intros H. unfold RND. destruct (Z.eqb_spec z 0); [exact I|].
  destruct (Z.ltb_spec 0 z); [|lia]. apply rnds_shape; lia.
Qed.

Lemma RND_le_infinity (z : Z) : SFleb (RND z) (S754_infinity false) = true.
Proof.
  unfold RND. destruct (Z.eqb_spec z 0); [reflexivity|].
  destruct (Z.ltb_spec 0 z); rewrite rnds_enc by lia;
    unfold enc; split_tests; reflexivity.
Qed.

(** A number of that shape between two positive finite numbers is
    positive and finite. *)
Lemma between_positive_finite (lo x hi : spec_float) :
  positive_finite lo -> positive_finite hi ->
  valid_binary x = true -> nonneg_shape x ->
  SFleb lo x = true -> SFleb x hi = true -> positive_finite x.
Proof.
  intros [_ (ml & el & ->)] [_ (mh & eh & ->)] V S L H.
  split; [assumption|].
  destruct x as [[|]|[|]| |[|] m e]; try contradiction; try discriminate.
  eauto.
Qed.

Section Chain.

Variable radius : spec_float.
Hypothesis HR : positive_finite radius.

Lemma sub_mono (P Q : spec_float) :
  valid_binary P = true -> valid_binary Q = true ->
  nonneg_shape P -> nonneg_shape Q ->
  SFleb Q P = true ->
  SFleb (SF64sub Q radius) (SF64sub P radius) = true.
Proof.
  intros VP VQ SP SQ H.
  pose proof (W_pos radius HR) as WR.
  assert (Z0 : SF64sub (S754_zero false) radius = RND (- W radius)).
  { rewrite RND_exact_opp by assumption.
    destruct HR as [_ (m & e & ->)]. reflexivity. }
  destruct P as [[|]|[|]| |[|] mp ep]; try contradiction;
    destruct Q as [[|]|[|]| |[|] mq eq]; try contradiction;
    try discriminate.
  - rewrite Z0. unfold SFleb. rewrite SFcompare_refl; [reflexivity|].
    rewrite RND_exact_opp by assumption.
    destruct HR as [_ (m & e & ->)]. discriminate.
  - replace (SF64sub (S754_infinity false) radius) with (S754_infinity false)
      by (destruct HR as [_ (m & e & ->)]; reflexivity).
    rewrite Z0. apply RND_le_infinity.
  - destruct HR as [_ (m & e & ->)]. reflexivity.
  - replace (SF64sub (S754_infinity false) radius) with (S754_infinity false)
      by (destruct HR as [_ (m & e & ->)]; reflexivity).
    rewrite SFsub_RND; [apply RND_le_infinity| |assumption].
    split; eauto.
  - assert (PP : positive_finite (S754_finite false mp ep)) by (split; eauto).
    rewrite Z0, SFsub_RND by assumption. apply RND_mono.
    pose proof (W_pos _ PP). lia.
  - assert (PP : positive_finite (S754_finite false mp ep)) by (split; eauto).
    assert (PQ : positive_finite (S754_finite false mq eq)) by (split; eauto).
    rewrite !SFsub_RND by assumption. apply RND_mono.
    pose proof (SFleb_W _ _ PQ PP H). lia.
Qed.

(** [a * d - radius <= a * s - radius] whenever [0 <= a] and [0 < d <= s]. *)
Lemma scaled_mono (a s d : spec_float) :
  valid_binary a = true -> nonneg_shape a \/ a = S754_zero true ->
  positive_finite s -> positive_finite d -> W d <= W s ->
  valid_binary (SF64mul a s) = true -> valid_binary (SF64mul a d) = true ->
  SFleb (SF64sub (SF64mul a d) radius) (SF64sub (SF64mul a s) radius) = true.
Proof.
  intros Va Sa Ps Pd H VP VQ.
  pose proof (W_pos s Ps) as Ws. pose proof (W_pos d Pd) as Wd.
  destruct a as [sa|sa| |sa ma ea].
  - (* a is zero: both products are that zero *)
    destruct Ps as [_ (ms & es & ->)], Pd as [_ (md & ed & ->)].
    cbn [SF64mul SFmul xorb]. unfold SFleb. rewrite SFcompare_refl; [reflexivity|].
    destruct HR as [_ (m & e & ->)]. destruct sa; discriminate.
  - (* a is +Infinity: both products are +Infinity *)
    destruct Sa as [Sa|Sa]; [|discriminate].
    destruct sa; [contradiction|].
    destruct Ps as [_ (ms & es & ->)], Pd as [_ (md & ed & ->)].
    destruct HR as [_ (m & e & ->)]. reflexivity.
  - destruct Sa as [Sa|Sa]; [contradiction|discriminate].
  - destruct Sa as [Sa|Sa]; [|discriminate].
    destruct sa; [contradiction|].
    assert (Pa : positive_finite (S754_finite false ma ea)) by (split; eauto).
    pose proof (W_pos _ Pa) as Wa.
    assert (Es := SFmul_rnds _ _ Pa Ps).
    assert (Ed := SFmul_rnds _ _ Pa Pd).
    apply sub_mono; try assumption.
    + rewrite Es. apply rnds_shape; nia.
    + rewrite Ed. apply rnds_shape; nia.
    + rewrite Es, Ed. apply rnds_mono; nia.
Qed.

End Chain.


Lemma one_positive_finite : positive_finite SF_one.
Proof. split; [reflexivity|unfold SF_one; eauto]. Qed.

Lemma two_positive_finite : positive_finite SF_two.
Proof. split; [reflexivity|unfold SF_two; eauto]. Qed.

Lemma tiny_positive_finite : positive_finite SF_tiny.
Proof. split; [reflexivity|unfold SF_tiny; eauto]. Qed.

Lemma RND_above (x : spec_float) (z : Z) :
  positive_finite x -> W x <= z -> SFleb x (RND z) = true.
Proof.
  intros P H. rewrite <- (RND_exact x P) at 1. now apply RND_mono.
Qed.

Lemma RND_below (x : spec_float) (z : Z) :
  positive_finite x -> z <= W x -> SFleb (RND z) x = true.
Proof.
  intros P H. pose proof (RND_mono z (W x) H) as M.
  now rewrite (RND_exact x P) in M.
Qed.

(** For [0 <= e < 1], [1 - e] and [1 + e] are positive finite numbers
    with [1 - e <= 1 <= 1 + e]. *)
Lemma one_plus_minus (e : spec_float) :
  valid_binary e = true ->
  SFleb (S754_zero false) e = true -> SFltb e SF_one = true ->
  valid_binary (SF64add SF_one e) = true ->
  valid_binary (SF64sub SF_one e) = true ->
  positive_finite (SF64add SF_one e) /\ positive_finite (SF64sub SF_one e) /\
  W (SF64sub SF_one e) <= W (SF64add SF_one e).
Proof.
  intros Ve H0 H1 Vs Vd.
  pose proof one_positive_finite as P1.
  pose proof two_positive_finite as P2.
  pose proof tiny_positive_finite as Pt.
  destruct e as [se|se| |se me ee]; try discriminate.
  - (* e is zero *)
    unfold SF_one. cbn [SF64add SFadd SF64sub SFsub].
    split; [exact P1|]. split; [exact P1|]. lia.
  - destruct se; discriminate.
  - destruct se; [discriminate|].
    assert (Pe : positive_finite (S754_finite false me ee)) by (split; eauto).
    pose proof (W_pos _ Pe) as We.
    pose proof (SFltb_W _ _ Pe P1 H1) as Lt1.
    assert (W2 : W SF_two = 2 * W SF_one) by reflexivity.
    assert (Wt : W SF_tiny = 1) by reflexivity.
    assert (A : SFleb SF_one (SF64add SF_one (S754_finite false me ee)) = true).
    { rewrite SFadd_RND by assumption. apply RND_above; [assumption|lia]. }
    assert (B : SFleb (SF64sub SF_one (S754_finite false me ee)) SF_one = true).
    { rewrite SFsub_RND by assumption. apply RND_below; [assumption|lia]. }
    assert (Ps : positive_finite (SF64add SF_one (S754_finite false me ee))).
    { apply (between_positive_finite SF_one _ SF_two); try assumption.
      - rewrite SFadd_RND by assumption. apply RND_shape. lia.
      - rewrite SFadd_RND by assumption. apply RND_below; [assumption|lia]. }
    assert (Pd : positive_finite (SF64sub SF_one (S754_finite false me ee))).
    { apply (between_positive_finite SF_tiny _ SF_one); try assumption.
      - rewrite SFsub_RND by assumption. apply RND_shape. lia.
      - rewrite SFsub_RND by assumption. apply RND_above; [assumption|lia]. }
    split; [exact Ps|]. split; [exact Pd|].
    pose proof (SFleb_W _ _ P1 Ps A). pose proof (SFleb_W _ _ Pd P1 B). lia.
Qed.


(** ** Division does not underflow on a numerator of at least 4 *)

Lemma bra_encode (s : bool) (q e : Z) (l : location) :
  binary_round_aux prec emax s q e l =
  encode s (round_nearest_even (shr_m (fst (shr_fexp prec emax q e l)))
              (loc_of_shr_record (fst (shr_fexp prec emax q e l))))
    (snd (shr_fexp prec emax q e l)).
Proof.
  unfold binary_round_aux, encode.
  destruct (shr_fexp prec emax q e l) as [mrs e']. reflexivity.
Qed.

Lemma round_nearest_even_bounds (m : Z) (l : location) :
  m <= round_nearest_even m l <= m + 1.
Proof.
  destruct l as [|[ | | ]]; cbn [round_nearest_even];
    try destruct (Z.even m); lia.
Qed.

Lemma shr_m_of_loc (q : Z) (l : location) : shr_m (shr_record_of_loc q l) = q.
Proof. destruct l as [|[ | | ]]; reflexivity. Qed.

Lemma shr_m_shr_1 (mrs : shr_record) :
  0 <= shr_m mrs -> shr_m (shr_1 mrs) = shr_m mrs / 2.
Proof.
  destruct mrs as [m r s]. cbn [shr_m]. intros H.
  now rewrite shr_1_nonneg.
Qed.

(** A quotient of 53 or 54 bits rounds to a number that is not zero. *)
Lemma bra_normal (q e : Z) (l : location) :
  2 ^ 52 <= q < 2 ^ 54 -> -1074 <= e ->
  SFltb (S754_zero false) (binary_round_aux prec emax false q e l) = true.
Proof.
  intros Hq He. rewrite bra_encode.
  assert (G : exists M E, -1074 <= E /\ 2 ^ 52 <= M <= 2 ^ 53 /\
    encode false (round_nearest_even (shr_m (fst (shr_fexp prec emax q e l)))
              (loc_of_shr_record (fst (shr_fexp prec emax q e l))))
      (snd (shr_fexp prec emax q e l)) = encode false M E).
  { unfold shr_fexp, shr. rewrite fexp_eq.
    destruct (Z_lt_le_dec q (2 ^ 53)) as [S|B].
    - assert (D : Zdigits2 q = 53) by (apply Zdigits2_unique; lia).
      replace (fexp64 (Zdigits2 q + e) - e) with 0
        by (rewrite D; unfold fexp64; lia).
      cbn [fst snd]. eexists. eexists. split; [|split; [|reflexivity]].
      + assumption.
      + pose proof (round_nearest_even_bounds (shr_m (shr_record_of_loc q l))
                      (loc_of_shr_record (shr_record_of_loc q l))) as RB.
        rewrite shr_m_of_loc in *. lia.
    - assert (D : Zdigits2 q = 54) by (apply Zdigits2_unique; lia).
      replace (fexp64 (Zdigits2 q + e) - e) with 1
        by (rewrite D; unfold fexp64; lia).
      cbn [fst snd SpecFloat.iter_pos]. eexists. eexists. split; [|split; [|reflexivity]].
      + lia.
      + pose proof (round_nearest_even_bounds
                      (shr_m (shr_1 (shr_record_of_loc q l)))
                      (loc_of_shr_record (shr_1 (shr_record_of_loc q l)))) as RB.
        rewrite shr_m_shr_1 in * by (rewrite shr_m_of_loc; lia).
        rewrite shr_m_of_loc in *.
        assert (2 ^ 52 <= q / 2) by (apply Z.div_le_lower_bound; lia).
        assert (q / 2 < 2 ^ 53) by (apply Z.div_lt_upper_bound; lia).
        lia. }
  destruct G as (M & E & HE & HM & ->).
  rewrite encode_spec by lia. unfold enc. split_tests; try lia; reflexivity.
Qed.

Lemma SFdiv_positive (x y : spec_float) :
  positive_finite x -> positive_finite y -> 2 ^ 1076 <= W x ->
  SFltb (S754_zero false) (SF64div x y) = true.
Proof.
  intros [Vx (m1 & e1 & ->)] [Vy (m2 & e2 & ->)] Hx.
  destruct (bounded_spec m1 e1 Vx) as (C1 & R1 & U1 & N1).
  destruct (bounded_spec m2 e2 Vy) as (C2 & R2 & U2 & N2).
  cbn [W cond_Zopp Zdigits2] in *.
  pose proof (digits_bounds m1) as [L1 B1].
  pose proof (digits_bounds m2) as [L2 B2].
  set (d1 := Zpos (digits2_pos m1)) in *.
  set (d2 := Zpos (digits2_pos m2)) in *.
  assert (D1 : 0 < d1) by (unfold d1; lia).
  assert (D2 : 0 < d2) by (unfold d2; lia).
  assert (X : 3 <= d1 + e1).
  { assert (2 ^ 1076 < 2 ^ (d1 + (e1 + 1074))).
    { rewrite Z.pow_add_r by lia.
      assert (0 < 2 ^ (e1 + 1074)) by (apply Z.pow_pos_nonneg; lia). nia. }
    apply Z.pow_lt_mono_r_iff in H; lia. }
  unfold SF64div, SFdiv, SFdiv_core_binary. cbn [xorb Zdigits2].
  fold d1 d2. rewrite fexp_eq.
  assert (E' : Z.min (fexp64 (d1 + e1 - (d2 + e2))) (e1 - e2)
               = d1 + e1 - (d2 + e2) - 53) by (unfold fexp64 in *; lia).
  rewrite E'.
  replace (e1 - e2 - (d1 + e1 - (d2 + e2) - 53)) with (53 - d1 + d2) by lia.
  destruct (53 - d1 + d2) as [|p|p] eqn:S; try (unfold fexp64 in *; lia).
  rewrite Z.shiftl_mul_pow2 by lia. rewrite <- S.
  pose proof (Z_div_mod (Zpos m1 * 2 ^ (53 - d1 + d2)) (Zpos m2) ltac:(lia)) as DM.
  destruct (Z.div_eucl (Zpos m1 * 2 ^ (53 - d1 + d2)) (Zpos m2)) as [q r].
  destruct DM as [DM RB].
  apply bra_normal; [|unfold fexp64 in *; lia].
  assert (P : 2 ^ (53 - d1 + d2) * 2 ^ (d1 - 1) = 2 ^ 53 * 2 ^ (d2 - 1)).
  { rewrite <- !Z.pow_add_r by (unfold fexp64 in *; lia). f_equal. lia. }
  assert (Q : 2 ^ d1 = 2 * 2 ^ (d1 - 1)).
  { rewrite <- Z.pow_succ_r by lia. f_equal. lia. }
  assert (Q2 : 2 ^ d2 = 2 * 2 ^ (d2 - 1)).
  { rewrite <- Z.pow_succ_r by lia. f_equal. lia. }
  assert (A : 0 < 2 ^ (d2 - 1)) by (apply Z.pow_pos_nonneg; lia).
  assert (A1 : 0 < 2 ^ (d1 - 1)) by (apply Z.pow_pos_nonneg; lia).
  assert (A3 : 0 < 2 ^ (53 - d1 + d2)) by (apply Z.pow_pos_nonneg; lia).
  assert (Lo : 2 ^ 53 * 2 ^ (d2 - 1) <= Zpos m1 * 2 ^ (53 - d1 + d2)) by nia.
  assert (Hi : Zpos m1 * 2 ^ (53 - d1 + d2) < 2 ^ 54 * 2 ^ (d2 - 1)).
  { change (2 ^ 54) with (2 * 2 ^ 53). nia. }
  split.
  - destruct (Z_le_gt_dec (2 ^ 52) q); [assumption|exfalso].
    assert (Zpos m2 * q + r < Zpos m2 * 2 ^ 52) by nia.
    change (2 ^ 53) with (2 * 2 ^ 52) in Lo. nia.
  - destruct (Z_lt_le_dec q (2 ^ 54)); [assumption|exfalso].
    assert (2 ^ (d2 - 1) * 2 ^ 54 <= Zpos m2 * q) by nia.
    nia.
Qed.

End RoundingFacts.

(** * The two classification ladders *)
Import JS FloatFacts.

Section Classification.
Import TleParser.
Local Open Scope float_scope.

Lemma classify_binary64 (Math_pow : number -> number -> number)
  (perigee eccentricity : number) :
  classify (Binary64 Math_pow) perigee eccentricity =
  if perigee <? 2000 then
    if 0.25 <? eccentricity then "HEO"%string else "LEO"%string
  else if perigee <? 35000 then "MEO"%string else "GEO"%string.
Proof. reflexivity. Qed.

(** C5.  Orbit classification assigns exactly one of the four labels to
    every (perigee, eccentricity) pair of numbers, following the ladder:
    perigee below 2000 km and eccentricity above 0.25 gives HEO, perigee
    below 2000 km otherwise gives LEO, perigee below 35000 km gives MEO,
    anything else GEO; [parseTLE] labels its record this way. *)
Theorem orbit_classification_ladder (Math_pow : number -> number -> number) :
  (forall perigee eccentricity : number,
     let c := classify (Binary64 Math_pow) perigee eccentricity in
     (c = "HEO"%string <->
        (perigee <? 2000) = true /\ (0.25 <? eccentricity) = true) /\
     (c = "LEO"%string <->
        (perigee <? 2000) = true /\ (0.25 <? eccentricity) = false) /\
     (c = "MEO"%string <->
        (perigee <? 2000) = false /\ (perigee <? 35000) = true) /\
     (c = "GEO"%string <->
        (perigee <? 2000) = false /\ (perigee <? 35000) = false) /\
     (c = "HEO"%string \/ c = "LEO"%string \/
      c = "MEO"%string \/ c = "GEO"%string)) /\
  (forall line1 line2 : string,
     let r := parseTLE Math_pow line1 line2 in
     orbitType r = classify (Binary64 Math_pow) (perigee r) (eccentricity r)).
Proof.
  split; [|reflexivity].
  intros perigee eccentricity c. subst c. rewrite classify_binary64.
  destruct (perigee <? 2000), (0.25 <? eccentricity), (perigee <? 35000);
    repeat split; intros; try tauto; try discriminate;
    try (destruct H; discriminate).
Qed.

End Classification.

Section Risk.
Import Conjunctions.
Local Open Scope float_scope.

Lemma getRiskLevel_eq (d : number) :
  getRiskLevel d =
  if d <? 1 then CRITICAL else if d <? 5 then HIGH
  else if d <? 25 then MODERATE else LOW.
Proof. reflexivity. Qed.

Lemma below_or_above (d c : number) :
  is_nan c = false ->
  ((d <? c) = true /\ (c <=? d) = false) \/
  ((d <? c) = false /\ (c <=? d) = true) \/
  ((d <? c) = false /\ (c <=? d) = false /\ is_nan d = true).
Proof.
  intros Hc. destruct (d <? c) eqn:L.
  - left. split; [reflexivity|].
    destruct (c <=? d) eqn:G; [|reflexivity].
    apply leb_ltb_false in G. congruence.
  - right. destruct (is_nan d) eqn:N.
    + right. repeat split.
      destruct (c <=? d) eqn:G; [|reflexivity].
      apply leb_not_nan in G. destruct G; congruence.
    + left. split; [reflexivity|]. now apply not_ltb_leb.
Qed.

Ltac ladder_case :=
  repeat split; intros;
  repeat match goal with H : _ /\ _ |- _ => destruct H end;
  try congruence; try discriminate; try solve [intuition congruence].

(** C6.  Risk classification is the fixed distance ladder: CRITICAL below
    1 km, HIGH from 1 km to below 5 km, MODERATE from 5 km to below 25 km,
    LOW otherwise; 0.8 km is CRITICAL and 4.9 km is HIGH; screening two
    objects keeps the pair exactly when its distance is below the
    threshold, so a pair 25.1 km apart is left out at threshold 25. *)
Theorem risk_classification_ladder :
  (forall d : number,
     (getRiskLevel d = CRITICAL <-> (d <? 1) = true) /\
     (getRiskLevel d = HIGH <-> (1 <=? d) = true /\ (d <? 5) = true) /\
     (getRiskLevel d = MODERATE <-> (5 <=? d) = true /\ (d <? 25) = true) /\
     (getRiskLevel d = LOW <->
        (d <? 1) = false /\
        ~ ((1 <=? d) = true /\ (d <? 5) = true) /\
        ~ ((5 <=? d) = true /\ (d <? 25) = true))) /\
  getRiskLevel (lit 8 (-1)) = CRITICAL /\
  getRiskLevel (lit 49 (-1)) = HIGH /\
  (forall (a b : Tracked) (thresholdKm : number),
     screen [a; b] thresholdKm =
     match pair_event thresholdKm a b with Some e => [e] | None => [] end /\
     (screen [a; b] thresholdKm <> [] <->
      (euclidean (t_position a) (t_position b) <? thresholdKm) = true)) /\
  map (fun e => (distance e, risk_level e))
      (screen (Sample.apart (lit 8 (-1))) 25) = [(lit 8 (-1), CRITICAL)] /\
  map (fun e => (distance e, risk_level e))
      (screen (Sample.apart (lit 49 (-1))) 25) = [(lit 49 (-1), HIGH)] /\
  screen (Sample.apart (lit 251 (-1))) 25 = [].
Proof.
  split; [|repeat split; try reflexivity].
  - intros d. rewrite getRiskLevel_eq.
    destruct (below_or_above d 1 eq_refl) as [[A1 B1]|[[A1 B1]|[A1 [B1 N]]]];
    destruct (below_or_above d 5 eq_refl) as [[A5 B5]|[[A5 B5]|[A5 [B5 N']]]];
    destruct (below_or_above d 25 eq_refl) as [[A25 B25]|[[A25 B25]|[A25 [B25 N'']]]];
    try (match goal with
         | N : is_nan d = true, H : (d <? _) = true |- _ =>
             apply ltb_not_nan in H; destruct H; congruence
         | N : is_nan d = true, H : (_ <=? d) = true |- _ =>
             apply leb_not_nan in H; destruct H; congruence
         end);
    try (assert (C15 : (1 <=? d) = true)
           by (apply leb_trans with (b := 5); [reflexivity|assumption]);
         congruence);
    try (assert (C525 : (5 <=? d) = true)
           by (apply leb_trans with (b := 25); [reflexivity|assumption]);
         congruence);
    rewrite A1, ?A5, ?A25, ?B1, ?B5, ?B25; ladder_case.
  - simpl. destruct (pair_event thresholdKm a b); reflexivity.
  - simpl. unfold pair_event.
    destruct (euclidean (t_position a) (t_position b) <? thresholdKm);
      simpl; intros H'; [reflexivity|exfalso; apply H'; reflexivity].
  - simpl. unfold pair_event.
    destruct (euclidean (t_position a) (t_position b) <? thresholdKm);
      simpl; intros H'; discriminate.
Qed.

End Risk.

(** * Properties of the parser *)

Section StringFacts.
Local Open Scope nat_scope.

Lemma get_lt (s : string) (n : nat) (a : ascii) :
  String.get n s = Some a -> n < String.length s.
Proof.
  revert n. induction s as [|c s IH]; intros [|n]; simpl; try discriminate.
  - lia.
  - intros H. apply IH in H. lia.
Qed.

Lemma substring_two (s : string) (n : nat) (a b : ascii) :
  String.get n s = Some a -> String.get (S n) s = Some b ->
  String.substring n 2 s = String a (String b EmptyString).
Proof.
  revert n. induction s as [|c s IH]; intros [|n]; simpl; try discriminate.
  - intros [= ->]. destruct s as [|c' s]; simpl; [discriminate|].
    intros [= ->]. destruct s; reflexivity.
  - intros Ha Hb. now apply IH.
Qed.

Lemma length_append (s t : string) :
  String.length (s ++ t) = String.length s + String.length t.
Proof. induction s as [|c s IH]; simpl; congruence. Qed.

Lemma substring_append (s t : string) (n m : nat) :
  n + m <= String.length s ->
  String.substring n m (s ++ t) = String.substring n m s.
Proof.
  revert n m. induction s as [|c s IH]; intros n m; simpl.
  - intros H. assert (n = 0) by lia. assert (m = 0) by lia. subst.
    destruct t; reflexivity.
  - destruct n as [|n].
    + destruct m as [|m]; [reflexivity|]. simpl. intros H.
      f_equal. apply IH. simpl. lia.
    + intros H. apply IH. lia.
Qed.

Lemma get_append (s t : string) (n : nat) :
  n < String.length s -> String.get n (s ++ t) = String.get n s.
Proof.
  revert n. induction s as [|c s IH]; intros n; simpl; [lia|].
  destruct n as [|n]; [reflexivity|]. intros H. apply IH. lia.
Qed.

End StringFacts.

Lemma js_substring_two (s : string) (n : nat) (a b : ascii) :
  String.get n s = Some a -> String.get (S n) s = Some b ->
  substring s (Z.of_nat n) (Z.of_nat (S (S n))) =
  String a (String b EmptyString).
Proof.
  intros Ha Hb. pose proof Hb as L; apply get_lt in L.
  unfold substring, clamp.
  replace (Z.to_nat (Z.max 0 (Z.min (Z.of_nat n) (Z.of_nat (String.length s)))))
    with n by lia.
  replace (Z.to_nat (Z.max 0 (Z.min (Z.of_nat (S (S n))) (Z.of_nat (String.length s)))))
    with (S (S n)) by lia.
  replace (Nat.min n (S (S n))) with n by lia.
  replace (Nat.max n (S (S n)) - n)%nat with 2%nat by lia.
  now apply substring_two.
Qed.

(** Text that starts at or after the end of a substring does not change
    it. *)
Lemma js_substring_append (s t : string) (a b : Z) :
  (0 <= a <= b)%Z -> (b <= Z.of_nat (String.length s))%Z ->
  substring (s ++ t) a b = substring s a b.
Proof.
  intros Hab Hb. unfold substring, clamp.
  rewrite length_append.
  replace (Z.to_nat (Z.max 0 (Z.min a (Z.of_nat (String.length s + String.length t)))))
    with (Z.to_nat a) by lia.
  replace (Z.to_nat (Z.max 0 (Z.min b (Z.of_nat (String.length s + String.length t)))))
    with (Z.to_nat b) by lia.
  replace (Z.to_nat (Z.max 0 (Z.min a (Z.of_nat (String.length s)))))
    with (Z.to_nat a) by lia.
  replace (Z.to_nat (Z.max 0 (Z.min b (Z.of_nat (String.length s)))))
    with (Z.to_nat b) by lia.
  apply substring_append. lia.
Qed.

Lemma charAt_append (s t : string) (n : nat) :
  (n < String.length s)%nat -> charAt (s ++ t) n = charAt s n.
Proof. intros H. unfold charAt. now rewrite get_append. Qed.

Lemma digit_inv (a : ascii) (d : Z) :
  digit a = Some d ->
  (0 <= d <= 9)%Z /\ a = ascii_of_nat (48 + Z.to_nat d).
Proof.
  destruct a as [[] [] [] [] [] [] [] []]; vm_compute; intros H;
    try discriminate; injection H as <-; split; try reflexivity;
    split; discriminate.
Qed.

Section ParserFacts.
Import TleParser.
Local Open Scope float_scope.

Variable Math_pow : number -> number -> number.

Lemma epochYear_eq (line1 line2 : string) :
  epochYear (parseTLE Math_pow line1 line2) =
  let epochYearShort := parseInt (trim (substring line1 18 20)) in
  if lit 57 0 <=? epochYearShort then lit 1900 0 + epochYearShort
  else lit 2000 0 + epochYearShort.
Proof. reflexivity. Qed.

Lemma eccentricity_eq (line1 line2 : string) :
  eccentricity (parseTLE Math_pow line1 line2) =
  parseFloat ("0." ++ trim (substring line2 26 33)).
Proof. reflexivity. Qed.

Lemma two_digit_year (d1 d2 : Z) :
  (0 <= d1 <= 9)%Z -> (0 <= d2 <= 9)%Z ->
  let yy := (10 * d1 + d2)%Z in
  (let epochYearShort :=
     parseInt (trim (String (ascii_of_nat (48 + Z.to_nat d1))
                       (String (ascii_of_nat (48 + Z.to_nat d2))
                          EmptyString))) in
   if lit 57 0 <=? epochYearShort then lit 1900 0 + epochYearShort
   else lit 2000 0 + epochYearShort) =
  of_Z (if (57 <=? yy)%Z then 1900 + yy else 2000 + yy).
Proof.
  intros H1 H2.
  assert (C1 : (d1 = 0 \/ d1 = 1 \/ d1 = 2 \/ d1 = 3 \/ d1 = 4 \/ d1 = 5 \/
                d1 = 6 \/ d1 = 7 \/ d1 = 8 \/ d1 = 9)%Z) by lia.
  assert (C2 : (d2 = 0 \/ d2 = 1 \/ d2 = 2 \/ d2 = 3 \/ d2 = 4 \/ d2 = 5 \/
                d2 = 6 \/ d2 = 7 \/ d2 = 8 \/ d2 = 9)%Z) by lia.
  clear H1 H2.
  repeat (destruct C1 as [C1|C1]); subst d1;
    repeat (destruct C2 as [C2|C2]); subst d2;
    vm_compute; reflexivity.
Qed.

(** C7.  Whenever columns 19-20 of line 1 hold two digits [d1 d2], the
    epoch year is [1900 + d1 d2] when [d1 d2 >= 57] and [2000 + d1 d2]
    otherwise. *)
Theorem epoch_year_rollover (line1 line2 : string) (a b : ascii) (d1 d2 : Z) :
  String.get 18 line1 = Some a -> String.get 19 line1 = Some b ->
  digit a = Some d1 -> digit b = Some d2 ->
  let yy := (10 * d1 + d2)%Z in
  epochYear (parseTLE Math_pow line1 line2) =
  of_Z (if (57 <=? yy)%Z then 1900 + yy else 2000 + yy).
Proof.
  intros Ha Hb Da Db yy.
  rewrite epochYear_eq.
  change 18%Z with (Z.of_nat 18). change 20%Z with (Z.of_nat 20).
  rewrite (@js_substring_two line1 18 a b Ha Hb).
  apply digit_inv in Da, Db. destruct Da as [R1 ->], Db as [R2 ->].
  now apply two_digit_year.
Qed.

(** C8.  The eccentricity is read from columns 27-33 of line 2 behind an
    implied decimal point: the field is trimmed and parsed after "0.", so
    the field 1234567 parses to the number 0.1234567, that is to the
    binary64 number nearest to 1234567/10000000 (within half a unit in the
    last place, 2^-57 = 1/144115188075855872). *)
Theorem eccentricity_implied_decimal_point :
  (forall line1 line2 : string,
     eccentricity (parseTLE Math_pow line1 line2) =
     parseFloat ("0." ++ trim (substring line2 26 33))) /\
  (forall line1 line2 : string,
     substring line2 26 33 = "1234567"%string ->
     let e := eccentricity (parseTLE Math_pow line1 line2) in
     e = parseFloat "0.1234567" /\
     e = 0x1.f9adbb8f8da72p-4 /\
     exists q : Q,
       exact_value e = Some q /\
       (Qabs (q - (1234567 # 10000000)) <= 1 # 144115188075855872)%Q).
Proof.
  split; [reflexivity|].
  intros line1 line2 H e. subst e. rewrite eccentricity_eq, H.
  split; [reflexivity|]. split; [reflexivity|].
  eexists. split; [vm_compute; reflexivity|].
  vm_compute. discriminate.
Qed.

Lemma parseTLE_append (l1 l2 s1 s2 : string) :
  String.length l1 = 68%nat -> String.length l2 = 68%nat ->
  parseTLE Math_pow (l1 ++ s1) (l2 ++ s2) = parseTLE Math_pow l1 l2.
Proof.
  intros H1 H2. unfold parseTLE.
  rewrite !js_substring_append by lia.
  rewrite charAt_append by lia.
  reflexivity.
Qed.

End ParserFacts.

Section InitFacts.
Import Worker.

Lemma fold_addTLE (SatRec : Type) (lib : SatelliteJs SatRec)
  (tles : list TLEInput.t) (acc : State SatRec) :
  fold_left (addTLE lib) tles acc = acc ++ keep (track lib) tles.
Proof.
  revert acc. induction tles as [|tle tles IH]; intros acc; simpl.
  - now rewrite app_nil_r.
  - rewrite IH. unfold addTLE, push. destruct (track lib tle); simpl;
      [|reflexivity].
    now rewrite <- app_assoc.
Qed.

Lemma initTLEs_eq (SatRec : Type) (lib : SatelliteJs SatRec)
  (old : State SatRec) (tles : list TLEInput.t) :
  initTLEs lib old tles =
  (keep (track lib) tles,
   [init_complete (List.length (keep (track lib) tles))]).
Proof. unfold initTLEs. now rewrite fold_addTLE. Qed.

Lemma keep_app (A B : Type) (f : A -> option B) (l1 l2 : list A) :
  keep f (l1 ++ l2) = keep f l1 ++ keep f l2.
Proof.
  induction l1 as [|a l1 IH]; simpl; [reflexivity|].
  destruct (f a); simpl; now rewrite IH.
Qed.

End InitFacts.

Section ParserTotal.
Import TleParser Worker.
Local Open Scope float_scope.

(** C1, as the code has it.  [parseTLE] validates nothing: whatever the
    two lines are it returns a record and never throws; it never reads
    the checksum column, nor anything after it; rejection happens only in
    the worker, where an element set on which [twoline2satrec] throws is
    skipped on its own and the rest of the catalog is still processed, the
    records kept being those of the accepted element sets, in order. *)
Theorem parseTLE_validates_nothing (Math_pow : number -> number -> number) :
  (forall line1 line2 : string,
     call_parseTLE Math_pow line1 line2 =
     Normal (parseTLE Math_pow line1 line2)) /\
  (forall l1 l2 s1 s1' s2 s2' : string,
     String.length l1 = 68%nat -> String.length l2 = 68%nat ->
     call_parseTLE Math_pow (l1 ++ s1) (l2 ++ s2) =
     call_parseTLE Math_pow (l1 ++ s1') (l2 ++ s2')) /\
  (forall (SatRec : Type) (lib : SatelliteJs SatRec) (old : State SatRec)
          (before after : list TLEInput.t) (bad : TLEInput.t) (e : string),
     twoline2satrec lib (TLEInput.line1 bad) (TLEInput.line2 bad) = Throw e ->
     fst (initTLEs lib old (before ++ bad :: after)) =
     keep (track lib) before ++ keep (track lib) after).
Proof.
  split; [reflexivity|]. split.
  - intros l1 l2 s1 s1' s2 s2' H1 H2. unfold call_parseTLE.
    now rewrite !parseTLE_append.
  - intros SatRec lib old before after bad e H.
    rewrite initTLEs_eq. simpl. rewrite keep_app. simpl.
    unfold track at 2. now rewrite H.
Qed.

(** The claim fails on empty lines: they are not 69 characters long, yet
    [parseTLE] returns a record, its numeric fields [NaN]. *)
Lemma parseTLE_returns_on_empty_lines :
  String.length "" <> 69%nat /\
  (forall Math_pow : number -> number -> number,
     call_parseTLE Math_pow "" "" <> Throw MalformedElementSet /\
     exists r : OrbitalElements,
       call_parseTLE Math_pow "" "" = Normal r /\
       isNaN (satelliteNumber r) = true /\
       isNaN (epochYear r) = true /\
       isNaN (meanMotion r) = true /\
       isNaN (period r) = true /\
       eccentricity r = 0 /\
       revNumber r = 0).
Proof.
  split; [discriminate|]. intros Math_pow. split; [discriminate|].
  eexists. split; [reflexivity|]. repeat split.
Qed.

End ParserTotal.

(** * The derived quantities in exact arithmetic *)

Section ExactOrbit.
Import TleParser.
Local Open Scope R_scope.

Lemma derive_Exact (eccentricity meanMotion : R) :
  let period := 1440 / meanMotion in
  let a := Rpower (398600.4418 * Rpower (period * 60 / (2 * PI)) 2) (1 / 3) in
  d_period (derive Exact eccentricity meanMotion) = period /\
  d_semiMajorAxis (derive Exact eccentricity meanMotion) = a /\
  d_apogee (derive Exact eccentricity meanMotion) =
    a * (1 + eccentricity) - 6378.137 /\
  d_perigee (derive Exact eccentricity meanMotion) =
    a * (1 - eccentricity) - 6378.137.
Proof.
  unfold derive, MU_EARTH, EARTH_RADIUS_KM. cbn [d_period d_semiMajorAxis d_apogee d_perigee Exact literal add sub mul div pow Math_PI num].
  assert (E1 : IZR 1440 * powerRZ 10 0 = 1440) by (simpl; lra).
  assert (E2 : IZR 60 * powerRZ 10 0 = 60) by (simpl; lra).
  assert (E3 : IZR 2 * powerRZ 10 0 = 2) by (simpl; lra).
  assert (E4 : IZR 1 * powerRZ 10 0 = 1) by (simpl; lra).
  assert (E5 : IZR 3 * powerRZ 10 0 = 3) by (simpl; lra).
  assert (E6 : IZR 3986004418 * powerRZ 10 (-4) = 398600.4418)
    by (simpl; lra).
  assert (E7 : IZR 6378137 * powerRZ 10 (-3) = 6378.137) by (simpl; lra).
  rewrite E1, E2, E3, E4, E5, E6, E7. repeat split.
Qed.

(** The formulas read over the real numbers: for every eccentricity in
    [0, 1) and every mean motion above zero, [apogee >= perigee],
    [period > 0] and the semi-major axis is positive. *)
Lemma exact_orbit_bounds (eccentricity meanMotion : R) :
  0 <= eccentricity < 1 -> 0 < meanMotion ->
  let d := derive Exact eccentricity meanMotion in
  d_apogee d >= d_perigee d /\ d_period d > 0 /\ d_semiMajorAxis d > 0.
Proof.
  intros He Hn d. subst d.
  destruct (derive_Exact eccentricity meanMotion) as (-> & -> & -> & ->).
  set (a := Rpower _ (1 / 3)).
  assert (Ha : 0 < a) by apply exp_pos.
  repeat split.
  - nra.
  - apply Rdiv_lt_0_compat; lra.
  - exact Ha.
Qed.

Lemma cube_root_below (x c : R) :
  0 < x -> 0 < c -> x < c ^ 3 -> Rpower x (1 / 3) < c.
Proof.
  intros Hx Hc H.
  assert (E : Rpower (c ^ 3) (1 / 3) = c).
  { rewrite <- (Rpower_pow 3 c Hc), Rpower_mult.
    replace (INR 3 * (1 / 3)) with 1 by (simpl; lra).
    now apply Rpower_1. }
  apply Rlt_le_trans with (Rpower (c ^ 3) (1 / 3)).
  - apply Rlt_Rpower_l; lra.
  - rewrite E. lra.
Qed.

Lemma perigee_below_surface :
  d_perigee (derive Exact (1 / 2) 15) < 0.
Proof.
  destruct (derive_Exact (1 / 2) 15) as (_ & _ & _ & ->).
  pose proof PI2_3_2 as Hpi. pose proof PI_4 as Hpi4.
  set (y := 1440 / 15 * 60 / (2 * PI)).
  assert (Hy : 0 < y < 960).
  { unfold y. split.
    - apply Rdiv_lt_0_compat; lra.
    - apply Rmult_lt_reg_r with (r := 2 * PI); [lra|].
      unfold Rdiv. rewrite Rmult_assoc, Rinv_l by lra. lra. }
  assert (H2 : Rpower y 2 = y ^ 2).
  { replace 2 with (INR 2) at 1 by (simpl; lra). apply Rpower_pow. lra. }
  assert (Ha : Rpower (398600.4418 * Rpower y 2) (1 / 3) < 12756).
  { apply cube_root_below; rewrite ?H2; try nra. }
  lra.
Qed.

End ExactOrbit.

(** * The derived-parameter block in binary64 *)

Section Binary64Orbit.
Import TleParser Rounding RoundingFacts.
Local Open Scope float_scope.

Variable Math_pow : number -> number -> number.

Lemma derive_Binary64 (e n : number) :
  let d := derive (Binary64 Math_pow) e n in
  d_period d = lit 1440 0 / n /\
  d_apogee d = d_semiMajorAxis d * (lit 1 0 + e) - lit 6378137 (-3) /\
  d_perigee d = d_semiMajorAxis d * (lit 1 0 - e) - lit 6378137 (-3).
Proof. repeat split. Qed.

Lemma parseTLE_derived (line1 line2 : string) :
  let r := parseTLE Math_pow line1 line2 in
  let d := derive (Binary64 Math_pow) (eccentricity r) (meanMotion r) in
  period r = d_period d /\ semiMajorAxis r = d_semiMajorAxis d /\
  apogee r = d_apogee d /\ perigee r = d_perigee d.
Proof. repeat split. Qed.

(** [a * (1 - e) - R <= a * (1 + e) - R] in binary64, for [0 <= e < 1]
    and [0 <= a]: every rounding on the way keeps the order. *)
Lemma perigee_le_apogee (a e : number) :
  (0 <=? e) = true -> (e <? 1) = true -> (0 <=? a) = true ->
  (a * (lit 1 0 - e) - lit 6378137 (-3) <=?
   a * (lit 1 0 + e) - lit 6378137 (-3)) = true.
Proof.
  intros H0 H1 Ha.
  pose proof (Prim2SF_valid e) as Ve.
  pose proof (Prim2SF_valid a) as Va.
  pose proof (Prim2SF_valid (lit 1 0 + e)) as Vs.
  pose proof (Prim2SF_valid (lit 1 0 - e)) as Vd.
  pose proof (Prim2SF_valid (a * (lit 1 0 + e))) as VP.
  pose proof (Prim2SF_valid (a * (lit 1 0 - e))) as VQ.
  assert (HR : positive_finite (Prim2SF (lit 6378137 (-3)))).
  { split; [apply Prim2SF_valid|]. vm_compute. eauto. }
  assert (E1 : Prim2SF (lit 1 0) = SF_one) by (vm_compute; reflexivity).
  rewrite FloatAxioms.leb_spec in H0, Ha. rewrite FloatAxioms.ltb_spec in H1.
  change (Prim2SF 0) with (S754_zero false) in H0, Ha.
  change (Prim2SF 1) with SF_one in H1.
  rewrite FloatAxioms.leb_spec, !sub_spec, !mul_spec, add_spec, sub_spec, E1.
  rewrite mul_spec, add_spec, E1 in VP. rewrite mul_spec, sub_spec, E1 in VQ.
  rewrite add_spec, E1 in Vs. rewrite sub_spec, E1 in Vd.
  destruct (one_plus_minus (Prim2SF e) Ve H0 H1 Vs Vd) as (Ps & Pd & Hw).
  apply scaled_mono; try assumption.
  destruct (Prim2SF a) as [[|]|[|]| |[|] ma ea]; try discriminate;
    try (left; exact I). now right.
Qed.

(** [1440 / n > 0] in binary64 for every finite [n > 0]. *)
Lemma period_positive (n : number) :
  (0 <? n) = true -> (n <? infinity) = true -> (0 <? lit 1440 0 / n) = true.
Proof.
  intros H0 H1.
  pose proof (Prim2SF_valid n) as Vn.
  rewrite FloatAxioms.ltb_spec in H0, H1.
  change (Prim2SF 0) with (S754_zero false) in H0.
  change (Prim2SF infinity) with (S754_infinity false) in H1.
  rewrite FloatAxioms.ltb_spec, div_spec.
  change (Prim2SF 0) with (S754_zero false).
  apply SFdiv_positive.
  - split; [apply Prim2SF_valid|]. vm_compute. eauto.
  - split; [assumption|].
    destruct (Prim2SF n) as [[|]|[|]| |[|] m e]; try discriminate. eauto.
  - vm_compute. discriminate.
Qed.

End Binary64Orbit.

(** C3, as the code has it.  For every pair of lines whose parsed
    eccentricity is in [0, 1) and whose parsed mean motion is finite and
    above zero, the binary64 run of [parseTLE] returns
    [apogee >= perigee] and [period > 0], whatever [Math.pow] computes,
    as long as the semi-major axis it returns is a number that is not
    negative.  Nothing keeps the perigee above the surface. *)
Theorem derived_orbit_bounds
    (Math_pow : number -> number -> number) (line1 line2 : string) :
  let r := TleParser.parseTLE Math_pow line1 line2 in
  (0 <=? TleParser.eccentricity r)%float = true ->
  (TleParser.eccentricity r <? 1)%float = true ->
  (0 <? TleParser.meanMotion r)%float = true ->
  (TleParser.meanMotion r <? infinity)%float = true ->
  (0 <=? TleParser.semiMajorAxis r)%float = true ->
  (TleParser.perigee r <=? TleParser.apogee r)%float = true /\
  (0 <? TleParser.period r)%float = true.
Proof.
  intros r He0 He1 Hn0 Hn1 Ha.
  destruct (parseTLE_derived Math_pow line1 line2) as (Ep & Ea & Eap & Epe).
  fold r in Ep, Ea, Eap, Epe.
  destruct (derive_Binary64 Math_pow (TleParser.eccentricity r)
              (TleParser.meanMotion r)) as (Dp & Dap & Dpe).
  rewrite Ep, Eap, Epe, Dp, Dap, Dpe. rewrite Ea in Ha.
  split.
  - now apply perigee_le_apogee.
  - now apply period_positive.
Qed.

(** * The propagation worker *)

Section WorkerFacts.
Import Worker.
Local Open Scope float_scope.

Variable SatRec : Type.
Variable lib : SatelliteJs SatRec.
Variable Date_parse : string -> number.

(** The loop of [propagateAll], turn by turn. *)
Lemma loop_eq (ts : string) (date gmst : number) (sats visited : State SatRec)
  (results : list Position.t) (found : list ManeuverEvent.t) :
  fold_left (turn lib ts date gmst) sats (visited, results, found) =
  (visited ++ map (fun s => left_as (propagateOne lib ts date gmst s)) sats,
   results ++ keep (fun s => pushed_position (propagateOne lib ts date gmst s)) sats,
   found ++ keep (fun s => pushed_maneuver (propagateOne lib ts date gmst s)) sats).
Proof.
  revert visited results found.
  induction sats as [|sat sats IH]; intros visited results found; simpl.
  - now rewrite !app_nil_r.
  - rewrite IH. unfold push.
    destruct (pushed_position (propagateOne lib ts date gmst sat)),
             (pushed_maneuver (propagateOne lib ts date gmst sat));
      now rewrite <- ?app_assoc.
Qed.

Lemma propagateAll_eq (sats : State SatRec) (ts : string) (gmst : number) :
  gstime lib (Date_parse ts) = Normal gmst ->
  propagateAll lib Date_parse sats ts =
  (map (fun s => left_as (propagateOne lib ts (Date_parse ts) gmst s)) sats,
   positions
     (keep (fun s => pushed_position (propagateOne lib ts (Date_parse ts) gmst s)) sats)
   :: announce
        (keep (fun s => pushed_maneuver (propagateOne lib ts (Date_parse ts) gmst s)) sats)).
Proof.
  intros H. unfold propagateAll. rewrite H, loop_eq. reflexivity.
Qed.

Lemma propagateAll_throw (sats : State SatRec) (ts : string) (e : string) :
  gstime lib (Date_parse ts) = Throw e ->
  propagateAll lib Date_parse sats ts = (sats, []).
Proof. intros H. unfold propagateAll. now rewrite H. Qed.

Lemma propagateOne_observed (ts : string) (date gmst : number)
  (sat : SatRecord.t SatRec) (o : Observation) :
  observe lib date gmst sat = Normal (Some o) ->
  propagateOne lib ts date gmst sat =
  {| left_as := remember sat (o_velocity o);
     pushed_maneuver := detect ts sat (o_velocity o);
     pushed_position :=
       if valid_position (o_lat o) (o_lon o) (o_alt o)
       then Some (report sat o) else None |}.
Proof.
  intros H. unfold propagateOne. rewrite H.
  now destruct (valid_position (o_lat o) (o_lon o) (o_alt o)).
Qed.

Lemma In_keep (A B : Type) (f : A -> option B) (l : list A) (b : B) :
  In b (keep f l) <-> exists a, In a l /\ f a = Some b.
Proof.
  induction l as [|x l IH]; simpl.
  - split; [tauto|]. intros (a & [] & _).
  - destruct (f x) eqn:E; simpl; rewrite IH; split.
    + intros [->|(a & Ha & Fa)]; eauto.
    + intros (a & [->|Ha] & Fa); [left; congruence|eauto].
    + intros (a & Ha & Fa); eauto.
    + intros (a & [->|Ha] & Fa); [congruence|eauto].
Qed.

Lemma valid_position_true (lat lon alt : number) :
  valid_position lat lon alt = true <->
  isNaN lat = false /\ isNaN lon = false /\ isNaN alt = false /\
  (alt <? 0) = false /\ (100000 <? alt) = false.
Proof.
  unfold valid_position.
  change (lit 0 0) with 0. change (lit 100000 0) with 100000.
  destruct (isNaN lat), (isNaN lon), (isNaN alt), (alt <? 0),
    (100000 <? alt); simpl; split; try discriminate; try tauto;
    intros (? & ? & ? & ? & ?); discriminate.
Qed.

(** A position that passes the filter has an altitude in [0, 100000],
    which is then finite. *)
Lemma valid_position_altitude (lat lon alt : number) :
  valid_position lat lon alt = true ->
  (0 <=? alt) = true /\ (alt <=? 100000) = true /\ is_finite alt = true.
Proof.
  intros H. apply valid_position_true in H.
  destruct H as (_ & _ & Na & Lo & Hi). unfold isNaN in Na.
  assert (L : (0 <=? alt) = true) by (apply not_ltb_leb; auto).
  assert (U : (alt <=? 100000) = true) by (apply not_ltb_leb; auto).
  repeat split; try assumption.
  now apply between_is_finite with (lo := 0) (hi := 100000).
Qed.

Lemma pushed_position_inv (ts : string) (date gmst : number)
  (sat : SatRecord.t SatRec) (p : Position.t) :
  pushed_position (propagateOne lib ts date gmst sat) = Some p ->
  exists o : Observation,
    observe lib date gmst sat = Normal (Some o) /\
    valid_position (o_lat o) (o_lon o) (o_alt o) = true /\
    p = report sat o.
Proof.
  unfold propagateOne.
  destruct (observe lib date gmst sat) as [[o|]|e]; simpl; try discriminate.
  destruct (valid_position (o_lat o) (o_lon o) (o_alt o)) eqn:V; simpl;
    try discriminate.
  intros [= <-]. eauto.
Qed.

Lemma observe_inv (date gmst : number) (sat : SatRecord.t SatRec)
  (o : Observation) :
  observe lib date gmst sat = Normal (Some o) ->
  exists geodetic : GeodeticLocation,
    degreesLat lib (latitude geodetic) = Normal (o_lat o) /\
    degreesLong lib (longitude geodetic) = Normal (o_lon o) /\
    o_alt o = height geodetic.
Proof.
  unfold observe.
  destruct (propagate lib (SatRecord.satrec sat) date) as [[pv|]|e];
    simpl; try discriminate.
  destruct pv as [[p|b] [v|b']]; simpl; try discriminate.
  destruct (eciToGeodetic lib p gmst) as [g|e]; simpl; try discriminate.
  destruct (degreesLat lib (latitude g)) as [lat|e] eqn:Elat; simpl;
    try discriminate.
  destruct (degreesLong lib (longitude g)) as [lon|e] eqn:Elon; simpl;
    try discriminate.
  intros [= <-]. exists g. simpl. auto.
Qed.

Lemma pushed_maneuver_inv (ts : string) (date gmst : number)
  (sat : SatRecord.t SatRec) (e : ManeuverEvent.t) :
  pushed_maneuver (propagateOne lib ts date gmst sat) = Some e ->
  exists prev : number, SatRecord.prevVelocity sat = Some prev.
Proof.
  unfold propagateOne.
  destruct (observe lib date gmst sat) as [[o|]|e']; simpl; try discriminate.
  assert (D : detect ts sat (o_velocity o) = Some e ->
              exists prev, SatRecord.prevVelocity sat = Some prev).
  { unfold detect. destruct (SatRecord.prevVelocity sat); [eauto|discriminate]. }
  destruct (valid_position (o_lat o) (o_lon o) (o_alt o)); exact D.
Qed.

Lemma In_positions (results : list Position.t) (found : list ManeuverEvent.t)
  (data : list Position.t) :
  In (positions data) (positions results :: announce found) -> data = results.
Proof.
  intros [H|H]; [congruence|].
  destruct found; simpl in H; [tauto|]. destruct H as [H|[]]. discriminate.
Qed.

Lemma detect_iff (ts : string) (sat : SatRecord.t SatRec) (v : number)
  (e : ManeuverEvent.t) :
  detect ts sat v = Some e <->
  exists prev : number,
    SatRecord.prevVelocity sat = Some prev /\
    (0 <? v) = true /\
    (lit 5 (-2) <? abs (v - prev)) = true /\
    e = {| ManeuverEvent.norad_id := SatRecord.norad_id sat;
           ManeuverEvent.name := SatRecord.name sat;
           ManeuverEvent.deltaV := abs (v - prev);
           ManeuverEvent.prevVelocity := prev;
           ManeuverEvent.newVelocity := v;
           ManeuverEvent.timestamp := ts |}.
Proof.
  unfold detect. change (lit 0 0) with 0.
  destruct (SatRecord.prevVelocity sat) as [prev|].
  - destruct (0 <? v) eqn:P;
      [destruct (lit 5 (-2) <? abs (v - prev)) eqn:D|].
    + split.
      * intros [= <-]. exists prev. repeat split; assumption.
      * intros (prev' & [= <-] & _ & _ & ->). reflexivity.
    + split; [discriminate|].
      intros (prev' & [= <-] & _ & D' & _). congruence.
    + split; [discriminate|].
      intros (prev' & _ & P' & _). congruence.
  - split; [discriminate|]. intros (prev' & [=] & _).
Qed.

(** C2, as the code has it.  Whenever a turn of the loop reaches the
    detector with a new velocity [v]: the stored velocity becomes [v]
    whether or not an event fired; an event is pushed exactly when a
    previous velocity [prev] exists, [v > 0] and [|v - prev| > 0.05], and
    it carries both velocities and the delta; the first observation never
    emits; the next observation of the object, of velocity [v'], is then
    compared with [v]; after 7.500 the velocity 7.560 emits an event whose
    delta-v is 0.060 up to rounding (it is [7.56 - 7.5] computed in
    binary64) and the velocity 7.530 emits nothing. *)
Theorem maneuver_detection (ts : string) (date gmst : number)
  (sat : SatRecord.t SatRec) (o : Observation) :
  observe lib date gmst sat = Normal (Some o) ->
  let t := propagateOne lib ts date gmst sat in
  let v := o_velocity o in
  SatRecord.prevVelocity (left_as t) = Some v /\
  (forall e : ManeuverEvent.t,
     pushed_maneuver t = Some e <->
     exists prev : number,
       SatRecord.prevVelocity sat = Some prev /\
       (0 <? v) = true /\
       (lit 5 (-2) <? abs (v - prev)) = true /\
       e = {| ManeuverEvent.norad_id := SatRecord.norad_id sat;
              ManeuverEvent.name := SatRecord.name sat;
              ManeuverEvent.deltaV := abs (v - prev);
              ManeuverEvent.prevVelocity := prev;
              ManeuverEvent.newVelocity := v;
              ManeuverEvent.timestamp := ts |}) /\
  (SatRecord.prevVelocity sat = None -> pushed_maneuver t = None) /\
  (forall (ts' : string) (date' gmst' : number) (o' : Observation)
          (e : ManeuverEvent.t),
     observe lib date' gmst' (left_as t) = Normal (Some o') ->
     let v' := o_velocity o' in
     pushed_maneuver (propagateOne lib ts' date' gmst' (left_as t)) = Some e <->
     (0 <? v') = true /\
     (lit 5 (-2) <? abs (v' - v)) = true /\
     e = {| ManeuverEvent.norad_id := SatRecord.norad_id sat;
            ManeuverEvent.name := SatRecord.name sat;
            ManeuverEvent.deltaV := abs (v' - v);
            ManeuverEvent.prevVelocity := v;
            ManeuverEvent.newVelocity := v';
            ManeuverEvent.timestamp := ts' |}) /\
  (SatRecord.prevVelocity sat = Some 7.5 -> v = lit 756 (-2) ->
   exists e : ManeuverEvent.t,
     pushed_maneuver t = Some e /\
     ManeuverEvent.deltaV e = abs (lit 756 (-2) - 7.5) /\
     (abs (ManeuverEvent.deltaV e - lit 6 (-2)) <? lit 1 (-15)) = true) /\
  (SatRecord.prevVelocity sat = Some 7.5 -> v = lit 753 (-2) ->
   pushed_maneuver t = None).
Proof.
  intros H t v. subst t v.
  rewrite (@propagateOne_observed ts date gmst sat o H).
  cbn [left_as pushed_maneuver].
  split; [reflexivity|]. split; [apply detect_iff|].
  split; [intros E; unfold detect; now rewrite E|]. split; [|split].
  - intros ts' date' gmst' o' e H'. cbv zeta.
    rewrite (@propagateOne_observed ts' date' gmst' _ o' H').
    cbn [pushed_maneuver]. rewrite detect_iff. cbn [remember
      SatRecord.prevVelocity SatRecord.norad_id SatRecord.name]. split.
    + intros (prev & [= <-] & P & D & ->). auto.
    + intros (P & D & ->). eauto.
  - intros E ->. unfold detect. rewrite E.
    eexists. split; [reflexivity|]. split; reflexivity.
  - intros E ->. unfold detect. rewrite E. reflexivity.
Qed.

(** The filter, on coordinates that are not infinite, is the test that
    all three are finite and the altitude is within [0, 100000]. *)
Lemma valid_position_finite (lat lon alt : number) :
  is_infinity lat = false -> is_infinity lon = false ->
  valid_position lat lon alt =
  (is_finite lat && is_finite lon && is_finite alt &&
   (0 <=? alt) && (alt <=? 100000))%bool.
Proof.
  intros Ilat Ilon.
  destruct (valid_position lat lon alt) eqn:V.
  - pose proof (valid_position_altitude _ _ _ V) as (L & U & F).
    apply valid_position_true in V. destruct V as (A & B & _).
    unfold isNaN in A, B. unfold is_finite in *.
    now rewrite A, B, Ilat, Ilon, F, L, U.
  - destruct (is_finite lat) eqn:Flat; [|reflexivity].
    destruct (is_finite lon) eqn:Flon; [|reflexivity].
    destruct (is_finite alt) eqn:Falt; [|reflexivity].
    destruct (0 <=? alt) eqn:L; [|reflexivity].
    destruct (alt <=? 100000) eqn:U; [|reflexivity].
    exfalso. unfold is_finite in Flat, Flon, Falt.
    apply negb_true_iff, orb_false_iff in Flat, Flon, Falt.
    assert (T : valid_position lat lon alt = true).
    { apply valid_position_true. unfold isNaN.
      repeat split; try tauto; now apply leb_ltb_false. }
    congruence.
Qed.

(** C4.  satellite.js's [degreesLat] and [degreesLong] throw a
    [RangeError] on an angle outside [-pi/2, pi/2] and [-pi, pi], so
    what they return is never an infinity.  With such conversions, every
    state of a published snapshot has a finite latitude, longitude and
    altitude, and its altitude is within [0, 100000] km; the snapshot
    holds exactly the positions pushed by the turns of the loop, in
    order; a turn that observed a state pushes it exactly when the state
    satisfies all of this, so that any other result is dropped; and a
    turn in which [propagate] returns nothing or a call throws pushes
    no position. *)
Theorem published_positions_valid (sats : State SatRec) (ts : string) :
  (forall r v : number,
     degreesLat lib r = Normal v -> is_infinity v = false) ->
  (forall r v : number,
     degreesLong lib r = Normal v -> is_infinity v = false) ->
  (forall (data : list Position.t) (p : Position.t),
     In (positions data) (snd (propagateAll lib Date_parse sats ts)) ->
     In p data ->
     is_finite (Position.lat p) = true /\
     is_finite (Position.lon p) = true /\
     is_finite (Position.alt p) = true /\
     (0 <=? Position.alt p) = true /\
     (Position.alt p <=? 100000) = true) /\
  (forall (gmst : number) (data : list Position.t),
     gstime lib (Date_parse ts) = Normal gmst ->
     In (positions data) (snd (propagateAll lib Date_parse sats ts)) ->
     data =
     keep (fun s => pushed_position
                      (propagateOne lib ts (Date_parse ts) gmst s)) sats) /\
  (forall (date gmst : number) (sat : SatRecord.t SatRec) (o : Observation),
     observe lib date gmst sat = Normal (Some o) ->
     pushed_position (propagateOne lib ts date gmst sat) =
     if (is_finite (o_lat o) && is_finite (o_lon o) && is_finite (o_alt o) &&
         (0 <=? o_alt o) && (o_alt o <=? 100000))%bool
     then Some (report sat o) else None) /\
  (forall (date gmst : number) (sat : SatRecord.t SatRec),
     observe lib date gmst sat = Normal None \/
     (exists e, observe lib date gmst sat = Throw e) ->
     pushed_position (propagateOne lib ts date gmst sat) = None).
Proof.
  intros Clat Clon.
  assert (O : forall date gmst sat o,
            observe lib date gmst sat = Normal (Some o) ->
            valid_position (o_lat o) (o_lon o) (o_alt o) =
            (is_finite (o_lat o) && is_finite (o_lon o) &&
             is_finite (o_alt o) && (0 <=? o_alt o) &&
             (o_alt o <=? 100000))%bool).
  { intros date gmst sat o Ho.
    apply observe_inv in Ho. destruct Ho as (g & Hlat & Hlon & _).
    apply valid_position_finite; [now apply Clat in Hlat|now apply Clon in Hlon]. }
  split; [|split; [|split]].
  - intros data p Hd Hp.
    destruct (gstime lib (Date_parse ts)) as [gmst|e] eqn:G.
    + rewrite (@propagateAll_eq sats ts gmst G) in Hd. simpl in Hd.
      apply In_positions in Hd. subst data.
      apply In_keep in Hp. destruct Hp as (sat & _ & Hp).
      apply pushed_position_inv in Hp. destruct Hp as (o & Ho & V & ->).
      rewrite (O _ _ _ _ Ho) in V. simpl.
      repeat (apply andb_true_iff in V; destruct V as [V ?]). tauto.
    + rewrite (@propagateAll_throw sats ts e G) in Hd. destruct Hd.
  - intros gmst data G Hd.
    rewrite (@propagateAll_eq sats ts gmst G) in Hd. simpl in Hd.
    now apply In_positions in Hd.
  - intros date gmst sat o H.
    rewrite (@propagateOne_observed ts date gmst sat o H). simpl.
    now rewrite (O _ _ _ _ H).
  - intros date gmst sat [H|[e H]]; unfold propagateOne; now rewrite H.
Qed.

(** C9.  In a turn of the loop the detector runs, and the stored velocity
    is overwritten, before the position filter: a satellite whose
    observation crosses the maneuver threshold but fails the filter adds
    its event to the ['maneuvers'] message and nothing to the
    ['positions'] message of that tick, and leaves the tick with the
    velocity of the dropped observation stored. *)
Theorem maneuver_precedes_position_filter (ts : string) (gmst : number)
  (before after : State SatRec) (sat : SatRecord.t SatRec)
  (o : Observation) (prev : number) :
  gstime lib (Date_parse ts) = Normal gmst ->
  observe lib (Date_parse ts) gmst sat = Normal (Some o) ->
  SatRecord.prevVelocity sat = Some prev ->
  (0 <? o_velocity o) = true ->
  (lit 5 (-2) <? abs (o_velocity o - prev)) = true ->
  valid_position (o_lat o) (o_lon o) (o_alt o) = false ->
  let turn := propagateOne lib ts (Date_parse ts) gmst in
  let event :=
    {| ManeuverEvent.norad_id := SatRecord.norad_id sat;
       ManeuverEvent.name := SatRecord.name sat;
       ManeuverEvent.deltaV := abs (o_velocity o - prev);
       ManeuverEvent.prevVelocity := prev;
       ManeuverEvent.newVelocity := o_velocity o;
       ManeuverEvent.timestamp := ts |} in
  propagateAll lib Date_parse (before ++ sat :: after) ts =
  (map (fun s => left_as (turn s)) before
     ++ remember sat (o_velocity o)
     :: map (fun s => left_as (turn s)) after,
   [ positions (keep (fun s => pushed_position (turn s)) before
                  ++ keep (fun s => pushed_position (turn s)) after);
     maneuvers (keep (fun s => pushed_maneuver (turn s)) before
                  ++ event
                  :: keep (fun s => pushed_maneuver (turn s)) after) ]).
Proof.
  intros G H P V D F turn event. subst turn event.
  rewrite (@propagateAll_eq (before ++ sat :: after) ts gmst G).
  rewrite map_app, !keep_app. simpl.
  rewrite (@propagateOne_observed ts (Date_parse ts) gmst sat o H), F.
  cbn [left_as pushed_position pushed_maneuver].
  unfold detect. rewrite P. change (lit 0 0) with 0. rewrite V, D.
  f_equal. f_equal.
  destruct (keep _ before); reflexivity.
Qed.

Lemma no_baseline_no_maneuver (ts : string) (date gmst : number)
  (sats : State SatRec) :
  Forall (fun s => SatRecord.prevVelocity s = None) sats ->
  keep (fun s => pushed_maneuver (propagateOne lib ts date gmst s)) sats = [].
Proof.
  induction 1 as [|sat sats H _ IH]; simpl; [reflexivity|].
  destruct (pushed_maneuver (propagateOne lib ts date gmst sat)) eqn:E;
    [|exact IH].
  apply pushed_maneuver_inv in E. destruct E as (prev & E). congruence.
Qed.

Lemma track_fresh (tles : list TLEInput.t) :
  Forall (fun s => SatRecord.prevVelocity s = None) (keep (track lib) tles).
Proof.
  induction tles as [|tle tles IH]; simpl; [constructor|].
  unfold track at 1.
  destruct (twoline2satrec lib (TLEInput.line1 tle) (TLEInput.line2 tle));
    [constructor; [reflexivity|]|]; exact IH.
Qed.

Lemma keep_track_length (tles : list TLEInput.t) :
  List.length (keep (track lib) tles) =
  List.length (filter (accepted lib) tles).
Proof.
  induction tles as [|tle tles IH]; simpl; [reflexivity|].
  unfold track at 1, accepted at 1.
  destruct (twoline2satrec lib (TLEInput.line1 tle) (TLEInput.line2 tle));
    simpl; now rewrite IH.
Qed.

Lemma run_ignored (sats : State SatRec) (ignored rest : list Received) :
  Forall (fun e => exists type, e = other type) ignored ->
  run lib Date_parse sats (ignored ++ rest) = run lib Date_parse sats rest.
Proof.
  induction 1 as [|e ignored [type ->] _ IH]; simpl; [reflexivity|].
  rewrite IH. now destruct (run lib Date_parse sats rest).
Qed.

(** C10.  An init message replaces the tracked set, whatever it was, by
    one record per accepted element set, each without a previous velocity,
    and reports their number; the first propagate message processed
    afterwards posts no ['maneuvers'] message. *)
Theorem init_resets_detector (old : State SatRec) (tles : list TLEInput.t) :
  let fresh := fst (onmessage lib Date_parse old (init tles)) in
  fresh = keep (track lib) tles /\
  Forall (fun s => SatRecord.prevVelocity s = None) fresh /\
  List.length fresh = List.length (filter (accepted lib) tles) /\
  snd (onmessage lib Date_parse old (init tles)) =
    [init_complete (List.length (filter (accepted lib) tles))] /\
  (forall (ignored : list Received) (ts : string),
     Forall (fun e => exists type, e = other type) ignored ->
     forall m : Posted,
       In m (snd (run lib Date_parse old
                    (init tles :: ignored ++ [propagate_at ts]))) ->
       forall data : list ManeuverEvent.t, m <> maneuvers data).
Proof.
  intros fresh. subst fresh.
  change (onmessage lib Date_parse old (init tles))
    with (initTLEs lib old tles).
  rewrite initTLEs_eq. cbn [fst snd].
  split; [reflexivity|]. split; [apply track_fresh|].
  split; [apply keep_track_length|].
  split; [now rewrite keep_track_length|].
  intros ignored ts Hi m Hm data ->.
  cbn [run] in Hm.
  change (onmessage lib Date_parse old (init tles))
    with (initTLEs lib old tles) in Hm.
  rewrite initTLEs_eq in Hm.
  rewrite (@run_ignored (keep (track lib) tles) ignored [propagate_at ts] Hi)
    in Hm.
  cbn [run onmessage] in Hm.
  destruct (gstime lib (Date_parse ts)) as [gmst|e] eqn:G.
  - rewrite (@propagateAll_eq (keep (track lib) tles) ts gmst G) in Hm.
    rewrite no_baseline_no_maneuver in Hm by apply track_fresh.
    simpl in Hm. destruct Hm as [Hm|[Hm|[]]]; discriminate.
  - rewrite (@propagateAll_throw (keep (track lib) tles) ts e G) in Hm.
    simpl in Hm. destruct Hm as [Hm|[]]. discriminate.
Qed.

End WorkerFacts.

(** * The statements above on the sample inputs *)

Section OnSamples.
Import TleParser Worker Sample.
Local Open Scope float_scope.

(** The field "98" gives 1998 and the field "24" gives 2024. *)
Lemma epoch_year_98_and_24 :
  epochYear (parseTLE pow_by_iteration old_line1 old_line2) = 1998 /\
  epochYear (parseTLE pow_by_iteration low_line1 low_line2) = 2024.
Proof.
  split.
  - exact (@epoch_year_rollover pow_by_iteration old_line1 old_line2 "9" "8" 9 8
             eq_refl eq_refl eq_refl eq_refl).
  - exact (@epoch_year_rollover pow_by_iteration low_line1 low_line2 "2" "4" 2 4
             eq_refl eq_refl eq_refl eq_refl).
Defined.

(** The eccentricity of the 1998 element set. *)
Lemma eccentricity_of_old_lines :
  eccentricity (parseTLE pow_by_iteration old_line1 old_line2) = 0x1.f9adbb8f8da72p-4.
Proof.
  exact (proj1 (proj2 (proj2 (eccentricity_implied_decimal_point pow_by_iteration)
                         old_line1 old_line2 eq_refl))).
Defined.

(** The ISS element set parses to the same record with a wrong checksum on
    line 1, and the truncated second element set of the catalog is skipped
    without stopping at it. *)
Lemma wrong_checksum_and_truncated_line :
  call_parseTLE pow_by_iteration iss_line1 iss_line2 =
  call_parseTLE pow_by_iteration
    "1 25544U 98067A   08264.51782528 -.00002182  00000-0 -11606-4 0  2920"
    iss_line2 /\
  map (@SatRecord.name Trajectory)
      (fst (initTLEs satellite_js [] catalog)) =
  ["ISS (ZARYA)"%string; "TEST"%string].
Proof.
  split.
  - exact (proj1 (proj2 (parseTLE_validates_nothing pow_by_iteration))
             (JS.substring iss_line1 0 68) (JS.substring iss_line2 0 68)
             "7"%string "0"%string "7"%string "7"%string eq_refl eq_refl).
  - exact (f_equal (map (@SatRecord.name Trajectory))
             (proj2 (proj2 (parseTLE_validates_nothing pow_by_iteration))
                Trajectory satellite_js [] [iss_tle] [test_tle]
                truncated_tle "Error"%string eq_refl)).
Defined.

(** The orbit of the ISS element set, as the binary64 run computes it. *)
Lemma iss_orbit_bounds :
  (perigee (parseTLE pow_by_iteration iss_line1 iss_line2)
     <=? apogee (parseTLE pow_by_iteration iss_line1 iss_line2)) = true /\
  (0 <? period (parseTLE pow_by_iteration iss_line1 iss_line2)) = true.
Proof.
  exact (derived_orbit_bounds pow_by_iteration iss_line1 iss_line2
           eq_refl eq_refl eq_refl eq_refl eq_refl).
Defined.

(** The claim fails on an element set within the data-model invariant:
    with eccentricity 0.5 and 15 revolutions a day the perigee is below
    the surface, in exact arithmetic and in the binary64 run alike; and
    with a mean motion that reads [Infinity], which is above zero, the
    period is zero. *)
Lemma dipping_orbit_within_invariant :
  (forall pow : number -> number -> number,
     eccentricity (parseTLE pow low_line1 low_line2) = 0.5 /\
     meanMotion (parseTLE pow low_line1 low_line2) = 15 /\
     period (parseTLE pow low_line1 low_line2) = 96) /\
  (0 <= 1 / 2 < 1 /\ 0 < 15 /\
   d_perigee (derive Exact (1 / 2) 15) < 0 /\
   ~ (d_apogee (derive Exact (1 / 2) 15) >= d_perigee (derive Exact (1 / 2) 15)
      /\ d_perigee (derive Exact (1 / 2) 15) >= 0
      /\ d_period (derive Exact (1 / 2) 15) > 0))%R /\
  (perigee (parseTLE pow_by_iteration low_line1 low_line2) <? 0) = true /\
  (forall pow : number -> number -> number,
     eccentricity (parseTLE pow low_line1 endless_line2) = 0.5 /\
     meanMotion (parseTLE pow low_line1 endless_line2) = infinity /\
     (0 <? meanMotion (parseTLE pow low_line1 endless_line2)) = true /\
     period (parseTLE pow low_line1 endless_line2) = 0 /\
     (0 <? period (parseTLE pow low_line1 endless_line2)) = false).
Proof.
  split; [intros pow; repeat split|].
  split; [|split; [vm_compute; reflexivity|intros pow; repeat split]].
  pose proof perigee_below_surface as H.
  split; [lra|]. split; [lra|]. split; [exact H|].
  intros (_ & H' & _). lra.
Qed.

(** The burning satellite: first seen at 7.500 km/s, then at 7.560 km/s. *)
Lemma burn_is_detected :
  SatRecord.prevVelocity
    (left_as (propagateOne satellite_js tick0 (Date_parse tick0) 0
                (satellite 1 "A" burning None))) = Some 7.5 /\
  pushed_maneuver (propagateOne satellite_js tick0 (Date_parse tick0) 0
                     (satellite 1 "A" burning None)) = None /\
  pushed_maneuver
    (propagateOne satellite_js tick1 (Date_parse tick1) 0
       (left_as (propagateOne satellite_js tick0 (Date_parse tick0) 0
                   (satellite 1 "A" burning None)))) =
  Some {| ManeuverEvent.norad_id := 1;
          ManeuverEvent.name := "A";
          ManeuverEvent.deltaV := abs (lit 756 (-2) - 7.5);
          ManeuverEvent.prevVelocity := 7.5;
          ManeuverEvent.newVelocity := lit 756 (-2);
          ManeuverEvent.timestamp := tick1 |} /\
  (abs (abs (lit 756 (-2) - 7.5) - lit 6 (-2)) <? lit 1 (-15)) = true.
Proof.
  pose proof (@maneuver_detection Trajectory satellite_js tick0
                (Date_parse tick0) 0 (satellite 1 "A" burning None)
                {| o_lat := 20; o_lon := 10; o_alt := 400;
                   o_velocity := 7.5 |} eq_refl) as H.
  split; [exact (proj1 H)|].
  split; [exact (proj1 (proj2 (proj2 H)) eq_refl)|].
  split; [|reflexivity].
  exact (proj2 (proj1 (proj2 (proj2 (proj2 H))) tick1 (Date_parse tick1) 0
                  {| o_lat := 20; o_lon := 10; o_alt := 400;
                     o_velocity := lit 756 (-2) |} _ eq_refl)
           (conj eq_refl (conj eq_refl eq_refl))).
Defined.

(** The claim fails on a zero velocity: a previous velocity exists and the
    change, 7.5 km/s, is above the threshold, yet no event is emitted. *)
Lemma zero_velocity_emits_nothing :
  observe satellite_js (Date_parse tick1) 0 (after_first_tick 3 "C" stalled) =
    Normal (Some {| o_lat := 20; o_lon := 10; o_alt := 400;
                    o_velocity := 0 |}) /\
  SatRecord.prevVelocity (after_first_tick 3 "C" stalled) = Some 7.5 /\
  (lit 5 (-2) <? abs (0 - 7.5)) = true /\
  pushed_maneuver (propagateOne satellite_js tick1 (Date_parse tick1) 0
                     (after_first_tick 3 "C" stalled)) = None /\
  (forall m : Posted,
     In m (snd (run satellite_js Date_parse
                  [satellite 3 "C" stalled None]
                  [propagate_at tick0; propagate_at tick1])) ->
     exists data, m = positions data).
Proof.
  repeat split.
  intros m H. vm_compute in H.
  destruct H as [<-|[<-|[]]]; eexists; reflexivity.
Qed.

(** Conversions that check their range return no infinity. *)
Lemma in_range_not_infinite (bound r v : number) :
  is_finite bound = true -> in_range bound r = Normal v ->
  is_infinity v = false.
Proof.
  unfold in_range, is_finite. intros Fb.
  apply negb_true_iff, orb_false_iff in Fb. destruct Fb as [Nb Ib].
  destruct (r <? - bound) eqn:Lo; [discriminate|].
  destruct (bound <? r) eqn:Hi; [discriminate|].
  simpl. intros [= <-].
  destruct (is_infinity r) eqn:E; [exfalso|reflexivity].
  apply is_infinity_spec in E. destruct E as [s E].
  rewrite FloatAxioms.ltb_spec in Lo, Hi.
  rewrite FloatAxioms.opp_spec in Lo. unfold SFltb in Lo, Hi.
  rewrite E in Lo, Hi. apply is_nan_false in Nb.
  assert (Fin : forall s', Prim2SF bound <> S754_infinity s').
  { intros s' C.
    assert (is_infinity bound = true) by (apply is_infinity_spec; eauto).
    congruence. }
  destruct s.
  - destruct (Prim2SF bound) as [s'|s'| |s' m e]; simpl in Lo;
      try discriminate; try congruence; try (now apply (Fin s')).
  - destruct (Prim2SF bound) as [s'|s'| |s' m e]; simpl in Hi;
      try discriminate; try congruence; try (now apply (Fin s')).
Qed.

(** A snapshot made through conversions that check their range: the
    satellite one radian north and east is published, the one whose
    latitude is infinite is dropped by the [RangeError] of
    [degreesLat]. *)
Lemma sample_snapshot_is_valid :
  snd (propagateAll checked_js Date_parse
         [satellite 6 "F" northeast None; satellite 5 "E" astray None]
         tick0) = [positions [northeast_fix]] /\
  is_finite (Position.lat northeast_fix) = true /\
  is_finite (Position.lon northeast_fix) = true /\
  is_finite (Position.alt northeast_fix) = true /\
  (0 <=? Position.alt northeast_fix) = true /\
  (Position.alt northeast_fix <=? 100000) = true.
Proof.
  split; [reflexivity|].
  exact (proj1 (@published_positions_valid Trajectory checked_js Date_parse
                  [satellite 6 "F" northeast None; satellite 5 "E" astray None]
                  tick0
                  (fun r v => @in_range_not_infinite half_pi r v eq_refl)
                  (fun r v => @in_range_not_infinite pi r v eq_refl))
           [northeast_fix] northeast_fix
           (or_introl eq_refl) (or_introl eq_refl)).
Defined.

(** The escaping satellite at the second tick: its maneuver is announced,
    its position is not published, its velocity is stored. *)
Lemma escaping_satellite_is_announced_not_published :
  propagateAll satellite_js Date_parse [after_first_tick 4 "D" escaping] tick1 =
  ([satellite 4 "D" escaping (Some (lit 756 (-2)))],
   [positions [];
    maneuvers [ {| ManeuverEvent.norad_id := 4;
                   ManeuverEvent.name := "D";
                   ManeuverEvent.deltaV := abs (lit 756 (-2) - 7.5);
                   ManeuverEvent.prevVelocity := 7.5;
                   ManeuverEvent.newVelocity := lit 756 (-2);
                   ManeuverEvent.timestamp := tick1 |} ] ]).
Proof.
  exact (@maneuver_precedes_position_filter Trajectory satellite_js Date_parse
           tick1 0 [] [] (after_first_tick 4 "D" escaping)
           {| o_lat := 20; o_lon := 10; o_alt := 150000;
              o_velocity := lit 756 (-2) |} 7.5
           eq_refl eq_refl eq_refl eq_refl eq_refl eq_refl).
Defined.

(** The sample catalog: two of its three element sets are tracked, and the
    first tick after the initialization announces no maneuver. *)
Lemma sample_catalog_starts_quiet :
  snd (onmessage satellite_js Date_parse
         [after_first_tick 1 "A" burning] (init catalog)) = [init_complete 2] /\
  forall m : Posted,
    In m (snd (run satellite_js Date_parse [after_first_tick 1 "A" burning]
                 (init catalog :: [other "ping"%string] ++ [propagate_at tick1]))) ->
    forall data : list ManeuverEvent.t, m <> maneuvers data.
Proof.
  pose proof (@init_resets_detector Trajectory satellite_js Date_parse
                [after_first_tick 1 "A" burning] catalog) as H.
  split.
  - exact (proj1 (proj2 (proj2 (proj2 H)))).
  - exact (proj2 (proj2 (proj2 (proj2 H))) [other "ping"%string] tick1
             (Forall_cons _ (ex_intro _ "ping"%string eq_refl) (Forall_nil _))).
Defined.

End OnSamples.

(** * More facts on binary64 numbers *)

Section MoreFloatFacts.
Local Open Scope float_scope.

(** Rounding with a positive sign never gives a number below zero. *)
Lemma bra_not_negative (q e : Z) (l : location) :
  SFltb (binary_round_aux prec emax false q e l) (S754_zero false) = false.
Proof.
  unfold binary_round_aux.
  destruct (shr_fexp prec emax q e l) as [mrs' e'].
  destruct (shr_fexp prec emax _ e' loc_Exact) as [mrs'' e''].
  destruct (shr_m mrs''); [reflexivity| |reflexivity].
  now destruct (e'' <=? emax - prec)%Z.
Qed.

(** [Math.sqrt] never returns a number below zero. *)
Lemma sqrt_not_negative (x : float) : (PrimFloat.sqrt x <? 0) = false.
Proof.
  rewrite FloatAxioms.ltb_spec, sqrt_spec.
  change (Prim2SF 0) with (S754_zero false).
  destruct (Prim2SF x) as [s|[|]| |[|] m e]; try reflexivity.
  unfold SF64sqrt, SFsqrt.
  destruct (SFsqrt_core_binary prec emax (Zpos m) e) as [[mz ez] lz].
  apply bra_not_negative.
Qed.

Lemma ltb_nan_r (a b : float) : is_nan b = true -> (a <? b) = false.
Proof.
  intros H. apply is_nan_spec in H.
  rewrite FloatAxioms.ltb_spec, H. unfold SFltb.
  now destruct (Prim2SF a).
Qed.

Lemma ltb_nan_l (a b : float) : is_nan a = true -> (a <? b) = false.
Proof.
  intros H. apply is_nan_spec in H.
  now rewrite FloatAxioms.ltb_spec, H.
Qed.

Lemma sub_nan_r (a b : float) : is_nan b = true -> is_nan (a - b) = true.
Proof.
  intros H. apply is_nan_spec in H. apply is_nan_spec.
  rewrite sub_spec, H. now destruct (Prim2SF a).
Qed.

Lemma sub_nan_l (a b : float) : is_nan a = true -> is_nan (a - b) = true.
Proof.
  intros H. apply is_nan_spec in H. apply is_nan_spec.
  now rewrite sub_spec, H.
Qed.

Lemma abs_nan (a : float) : is_nan a = true -> is_nan (abs a) = true.
Proof.
  intros H. apply is_nan_spec in H. apply is_nan_spec.
  now rewrite abs_spec, H.
Qed.

(** [Math.abs] never returns a number below zero. *)
Lemma abs_not_negative (x : float) : (abs x <? 0) = false.
Proof.
  rewrite FloatAxioms.ltb_spec, abs_spec.
  change (Prim2SF 0) with (S754_zero false).
  now destruct (Prim2SF x) as [s|s| |s m e].
Qed.

End MoreFloatFacts.

(** * More on the propagation worker *)

Section WorkerRuns.
Import Worker.
Local Open Scope float_scope.

Variable SatRec : Type.
Variable lib : SatelliteJs SatRec.
Variable Date_parse : string -> number.

(** What a turn of the loop leaves of a record apart from the stored
    velocity. *)
Lemma left_as_fields (ts : string) (date gmst : number)
  (sat : SatRecord.t SatRec) :
  let sat' := left_as (propagateOne lib ts date gmst sat) in
  SatRecord.norad_id sat' = SatRecord.norad_id sat /\
  SatRecord.name sat' = SatRecord.name sat /\
  SatRecord.object_type sat' = SatRecord.object_type sat /\
  SatRecord.satrec sat' = SatRecord.satrec sat.
Proof.
  unfold propagateOne.
  destruct (observe lib date gmst sat) as [[o|]|e]; cbn;
    try destruct (valid_position (o_lat o) (o_lon o) (o_alt o)); cbn; auto.
Qed.

Lemma map_left_as (A : Type) (f : SatRecord.t SatRec -> A)
  (g : SatRecord.t SatRec -> SatRecord.t SatRec) (sats : State SatRec) :
  (forall s, f (g s) = f s) -> map f (map g sats) = map f sats.
Proof.
  intros H. rewrite map_map. apply map_ext. exact H.
Qed.

Lemma propagateAll_fields (sats : State SatRec) (ts : string) :
  let sats' := fst (propagateAll lib Date_parse sats ts) in
  map SatRecord.norad_id sats' = map SatRecord.norad_id sats /\
  map SatRecord.name sats' = map SatRecord.name sats /\
  map SatRecord.object_type sats' = map SatRecord.object_type sats /\
  map SatRecord.satrec sats' = map SatRecord.satrec sats.
Proof.
  cbv zeta. unfold propagateAll.
  destruct (gstime lib (Date_parse ts)) as [gmst|e]; [|cbn; auto].
  rewrite loop_eq. cbn [fst app].
  repeat split; apply map_left_as; intros s;
    apply (left_as_fields ts (Date_parse ts) gmst s).
Qed.

(** X1.  Between two init messages the worker never adds, drops,
    reorders or renames a tracked satellite: whatever propagate and
    unknown messages arrive, the catalog numbers, names, object types and
    propagator records stay as they were, in order; only the stored
    velocities change. *)
Theorem propagation_keeps_the_catalog (sats : State SatRec)
  (events : list Received) :
  Forall (fun e => forall tles, e <> init tles) events ->
  let sats' := fst (run lib Date_parse sats events) in
  map SatRecord.norad_id sats' = map SatRecord.norad_id sats /\
  map SatRecord.name sats' = map SatRecord.name sats /\
  map SatRecord.object_type sats' = map SatRecord.object_type sats /\
  map SatRecord.satrec sats' = map SatRecord.satrec sats.
Proof.
  intros H. revert sats.
  induction H as [|e events He _ IH]; intros sats; cbn [run fst]; [auto|].
  destruct (onmessage lib Date_parse sats e) as [s1 out1] eqn:E1.
  specialize (IH s1).
  destruct (run lib Date_parse s1 events) as [s2 out2]. cbn [fst] in *.
  assert (F : map SatRecord.norad_id s1 = map SatRecord.norad_id sats /\
              map SatRecord.name s1 = map SatRecord.name sats /\
              map SatRecord.object_type s1 = map SatRecord.object_type sats /\
              map SatRecord.satrec s1 = map SatRecord.satrec sats).
  { destruct e as [tles|ts|type]; cbn [onmessage] in E1.
    - now destruct (He tles).
    - pose proof (propagateAll_fields sats ts) as P. rewrite E1 in P. exact P.
    - injection E1 as <- _. auto. }
  destruct IH as (I1 & I2 & I3 & I4), F as (F1 & F2 & F3 & F4).
  repeat split; congruence.
Qed.


(** When a turn reaches the detector. *)
Lemma observe_cases (date gmst : number) (sat : SatRecord.t SatRec) :
  (exists (p v : EciVec3) (g : GeodeticLocation) (lat lon : number),
     propagate lib (SatRecord.satrec sat) date =
       Normal (Some {| position := Eci p; velocity := Eci v |}) /\
     eciToGeodetic lib p gmst = Normal g /\
     degreesLat lib (latitude g) = Normal lat /\
     degreesLong lib (longitude g) = Normal lon /\
     observe lib date gmst sat =
       Normal (Some {| o_lat := lat; o_lon := lon; o_alt := height g;
                       o_velocity := PrimFloat.sqrt (x v * x v + y v * y v + z v * z v) |}))
  \/ observe lib date gmst sat = Normal None
  \/ exists e, observe lib date gmst sat = Throw e.
Proof.
  unfold observe.
  destruct (propagate lib (SatRecord.satrec sat) date) as [[pv|]|e];
    cbn [bind]; [|tauto|eauto].
  destruct pv as [[p|b] [v|b']]; try (cbn; tauto).
  destruct (eciToGeodetic lib p gmst) as [g|e] eqn:G; cbn [bind]; [|eauto].
  destruct (degreesLat lib (latitude g)) as [lat|e] eqn:La; cbn [bind]; [|eauto].
  destruct (degreesLong lib (longitude g)) as [lon|e] eqn:Lo; cbn [bind]; [|eauto].
  left. exists p, v, g, lat, lon. auto.
Qed.

(** X2.  A turn of the loop either finds that [propagate] returned
    position and velocity vectors and that the three conversions
    returned, or it changes nothing: the record, its stored velocity
    included, is left as it was, no position and no event are pushed, and
    the next turn treats the record as if the failed one had not
    happened (the detector compares with the last velocity that was
    observed, however many turns failed in between). *)
Theorem failed_turn_changes_nothing (ts : string) (date gmst : number)
  (sat : SatRecord.t SatRec) :
  (exists (p v : EciVec3) (g : GeodeticLocation) (lat lon : number),
     propagate lib (SatRecord.satrec sat) date =
       Normal (Some {| position := Eci p; velocity := Eci v |}) /\
     eciToGeodetic lib p gmst = Normal g /\
     degreesLat lib (latitude g) = Normal lat /\
     degreesLong lib (longitude g) = Normal lon /\
     SatRecord.prevVelocity (left_as (propagateOne lib ts date gmst sat)) =
       Some (PrimFloat.sqrt (x v * x v + y v * y v + z v * z v)))
  \/ (propagateOne lib ts date gmst sat =
        {| left_as := sat; pushed_maneuver := None; pushed_position := None |}
      /\ forall (ts' : string) (date' gmst' : number),
           propagateOne lib ts' date' gmst'
             (left_as (propagateOne lib ts date gmst sat)) =
           propagateOne lib ts' date' gmst' sat).
Proof.
  destruct (observe_cases date gmst sat)
    as [(p & v & g & lat & lon & P & G & La & Lo & O)|[O|[e O]]].
  - left. exists p, v, g, lat, lon. repeat split; try assumption.
    rewrite (@propagateOne_observed SatRec lib ts date gmst sat _ O). reflexivity.
  - right.
    assert (E : propagateOne lib ts date gmst sat =
                {| left_as := sat; pushed_maneuver := None;
                   pushed_position := None |})
      by (unfold propagateOne; now rewrite O).
    rewrite E. split; [reflexivity|]. intros; reflexivity.
  - right.
    assert (E : propagateOne lib ts date gmst sat =
                {| left_as := sat; pushed_maneuver := None;
                   pushed_position := None |})
      by (unfold propagateOne; now rewrite O).
    rewrite E. split; [reflexivity|]. intros; reflexivity.
Qed.

Lemma keep_length (A B : Type) (f : A -> option B) (l : list A) :
  (List.length (keep f l) <= List.length l)%nat.
Proof.
  induction l as [|a l IH]; cbn; [lia|]. destruct (f a); cbn; lia.
Qed.

(** X3.  What a propagate message makes the worker post.  When [gstime]
    throws, nothing at all, and no record is touched; otherwise one
    ['positions'] message, sent even when it is empty, followed by at
    most one ['maneuvers'] message, which is never empty.  Neither holds
    more entries than there are tracked satellites. *)
Theorem posts_of_a_propagate_message (sats : State SatRec) (ts : string) :
  (forall e : string,
     gstime lib (Date_parse ts) = Throw e ->
     propagateAll lib Date_parse sats ts = (sats, [])) /\
  (forall gmst : number,
     gstime lib (Date_parse ts) = Normal gmst ->
     exists data : list Position.t,
       (List.length data <= List.length sats)%nat /\
       (snd (propagateAll lib Date_parse sats ts) = [positions data] \/
        exists found : list ManeuverEvent.t,
          found <> [] /\
          (List.length found <= List.length sats)%nat /\
          snd (propagateAll lib Date_parse sats ts) =
            [positions data; maneuvers found])) /\
  (snd (propagateAll lib Date_parse sats ts) = [] ->
   exists e, gstime lib (Date_parse ts) = Throw e).
Proof.
  split; [|split].
  - intros e G. exact (@propagateAll_throw SatRec lib Date_parse sats ts e G).
  - intros gmst G.
    rewrite (@propagateAll_eq SatRec lib Date_parse sats ts gmst G). cbn [snd].
    exists (keep (fun s => pushed_position
                             (propagateOne lib ts (Date_parse ts) gmst s)) sats).
    split; [apply keep_length|].
    pose proof (keep_length
                  (fun s => pushed_maneuver
                              (propagateOne lib ts (Date_parse ts) gmst s)) sats)
      as Lf.
    destruct (keep (fun s => pushed_maneuver _) sats) as [|ev found];
      cbn [announce]; [now left|right].
    eexists. split; [|split; [exact Lf|reflexivity]]. discriminate.
  - destruct (gstime lib (Date_parse ts)) as [gmst|e] eqn:G; [|eauto].
    rewrite (@propagateAll_eq SatRec lib Date_parse sats ts gmst G). cbn [snd].
    discriminate.
Qed.

(** The velocity a turn observes is a square root. *)
Lemma observed_velocity (date gmst : number) (sat : SatRecord.t SatRec)
  (o : Observation) :
  observe lib date gmst sat = Normal (Some o) ->
  exists v : EciVec3,
    o_velocity o = PrimFloat.sqrt (x v * x v + y v * y v + z v * z v).
Proof.
  intros H.
  destruct (observe_cases date gmst sat)
    as [(p & v & g & lat & lon & _ & _ & _ & _ & O)|[O|[e O]]];
    rewrite O in H; try discriminate.
  injection H as <-. now exists v.
Qed.

(** X4.  The speed in a published position is never below zero; but the
    position filter does not look at the speed, so a position whose speed
    is [NaN] is published like any other. *)
Theorem published_speed_is_not_negative (sats : State SatRec) (ts : string) :
  Forall (fun m =>
    match m with
    | positions data =>
        Forall (fun p => (Position.velocity p <? 0) = false) data
    | _ => True
    end) (snd (propagateAll lib Date_parse sats ts))
  /\
  forall (date gmst : number) (sat : SatRecord.t SatRec) (o : Observation),
    observe lib date gmst sat = Normal (Some o) ->
    valid_position (o_lat o) (o_lon o) (o_alt o) = true ->
    is_nan (o_velocity o) = true ->
    exists p : Position.t,
      pushed_position (propagateOne lib ts date gmst sat) = Some p /\
      is_nan (Position.velocity p) = true.
Proof.
  split.
  - destruct (gstime lib (Date_parse ts)) as [gmst|e] eqn:G.
    + rewrite (@propagateAll_eq SatRec lib Date_parse sats ts gmst G). cbn [snd].
      constructor.
      * apply Forall_forall. intros p Hp. apply In_keep in Hp.
        destruct Hp as (sat & _ & Hp).
        apply pushed_position_inv in Hp. destruct Hp as (o & Ho & _ & ->).
        cbn [report Position.velocity].
        destruct (observed_velocity _ _ _ Ho) as (v & ->).
        apply sqrt_not_negative.
      * destruct (keep (fun s => pushed_maneuver _) sats);
          cbn [announce]; repeat constructor.
    + rewrite (@propagateAll_throw SatRec lib Date_parse sats ts e G). constructor.
  - intros date gmst sat o Ho V N.
    rewrite (@propagateOne_observed SatRec lib ts date gmst sat _ Ho), V.
    cbn. eauto.
Qed.

(** X5.  A [NaN] speed disarms the detector twice: the turn that observes
    it pushes no event and stores it, and the next observation of the
    satellite pushes no event either, whatever its speed, because the
    difference with [NaN] is [NaN]. *)
Theorem nan_speed_disarms_the_detector (ts : string) (date gmst : number)
  (sat : SatRecord.t SatRec) (o : Observation) :
  observe lib date gmst sat = Normal (Some o) ->
  is_nan (o_velocity o) = true ->
  let t := propagateOne lib ts date gmst sat in
  pushed_maneuver t = None /\
  SatRecord.prevVelocity (left_as t) = Some (o_velocity o) /\
  forall (ts' : string) (date' gmst' : number),
    pushed_maneuver (propagateOne lib ts' date' gmst' (left_as t)) = None.
Proof.
  intros Ho N t. subst t.
  rewrite (@propagateOne_observed SatRec lib ts date gmst sat _ Ho).
  cbn [pushed_maneuver left_as]. split; [|split; [reflexivity|]].
  - unfold detect. destruct (SatRecord.prevVelocity sat); [|reflexivity].
    change (lit 0 0) with 0. now rewrite (ltb_nan_r 0 _ N).
  - intros ts' date' gmst'. unfold propagateOne.
    destruct (observe lib date' gmst' (remember sat (o_velocity o)))
      as [[o'|]|e]; try reflexivity.
    assert (D : detect ts' (remember sat (o_velocity o)) (o_velocity o') = None).
    { unfold detect. cbn [remember SatRecord.prevVelocity].
      destruct (lit 0 0 <? o_velocity o'); [|reflexivity].
      now rewrite (ltb_nan_r _ _ (abs_nan _ (sub_nan_r (o_velocity o') _ N))). }
    now destruct (valid_position (o_lat o') (o_lon o') (o_alt o')).
Qed.

Lemma map_keep_filter (A B C : Type) (h : A -> option B) (f : B -> C)
  (g : A -> C) (l : list A) :
  (forall a b, h a = Some b -> f b = g a) ->
  map f (keep h l) =
  map g (filter (fun a => match h a with Some _ => true | None => false end) l).
Proof.
  intros H. induction l as [|a l IH]; [reflexivity|]. cbn.
  destruct (h a) as [b|] eqn:E; cbn; [|exact IH].
  now rewrite IH, (H a b E).
Qed.

Lemma pushed_maneuver_fields (ts : string) (date gmst : number)
  (s : SatRecord.t SatRec) (ev : ManeuverEvent.t) :
  pushed_maneuver (propagateOne lib ts date gmst s) = Some ev ->
  ManeuverEvent.norad_id ev = SatRecord.norad_id s /\
  ManeuverEvent.name ev = SatRecord.name s /\
  ManeuverEvent.timestamp ev = ts.
Proof.
  intros H. unfold propagateOne in H.
  destruct (observe lib date gmst s) as [[o|]|e']; cbn in H; try discriminate.
  assert (D : detect ts s (o_velocity o) = Some ev)
    by (destruct (valid_position _ _ _); exact H).
  apply detect_iff in D. destruct D as (prev & _ & _ & _ & ->).
  cbn. auto.
Qed.

(** X6.  Every entry of a ['positions'] message is the position of a
    tracked satellite and carries its catalog number, name and object
    type, and the entries follow the order of the catalog, at most one
    for each satellite; likewise the events of a ['maneuvers'] message,
    which all carry the timestamp of the propagate message.  [published]
    and [fired] say which satellites contribute. *)
Theorem posted_entries_follow_the_catalog (sats : State SatRec) (ts : string) :
  exists published fired : SatRecord.t SatRec -> bool,
    Forall (fun m =>
      match m with
      | positions data =>
          map Position.norad_id data =
            map SatRecord.norad_id (filter published sats) /\
          map Position.name data =
            map SatRecord.name (filter published sats) /\
          map Position.object_type data =
            map SatRecord.object_type (filter published sats)
      | maneuvers found =>
          map ManeuverEvent.norad_id found =
            map SatRecord.norad_id (filter fired sats) /\
          map ManeuverEvent.name found =
            map SatRecord.name (filter fired sats) /\
          Forall (fun e => ManeuverEvent.timestamp e = ts) found
      | init_complete _ => False
      end) (snd (propagateAll lib Date_parse sats ts)).
Proof.
  destruct (gstime lib (Date_parse ts)) as [gmst|e] eqn:G.
  - set (turn := propagateOne lib ts (Date_parse ts) gmst).
    exists (fun s => match pushed_position (turn s) with
                     | Some _ => true | None => false end),
           (fun s => match pushed_maneuver (turn s) with
                     | Some _ => true | None => false end).
    rewrite (@propagateAll_eq SatRec lib Date_parse sats ts gmst G). cbn [snd].
    fold turn.
    constructor.
    + repeat split;
        apply (map_keep_filter (fun s => pushed_position (turn s)));
        intros s p H; apply pushed_position_inv in H;
        destruct H as (o & _ & _ & ->); reflexivity.
    + destruct (keep (fun s => pushed_maneuver (turn s)) sats) as [|ev found]
        eqn:K; cbn [announce]; constructor; [|constructor].
      rewrite <- K. repeat split.
      * apply (map_keep_filter (fun s => pushed_maneuver (turn s))).
        intros s p H. now apply pushed_maneuver_fields in H.
      * apply (map_keep_filter (fun s => pushed_maneuver (turn s))).
        intros s p H. now apply pushed_maneuver_fields in H.
      * apply Forall_forall. intros ev' H. apply In_keep in H.
        destruct H as (s & _ & H). now apply pushed_maneuver_fields in H.
  - exists (fun _ => false), (fun _ => false).
    rewrite (@propagateAll_throw SatRec lib Date_parse sats ts e G). constructor.
Qed.

(** The records [initTLEs] makes have an object type that is not
    empty. *)
Lemma track_object_type (tle : TLEInput.t) (s : SatRecord.t SatRec) :
  track lib tle = Some s -> SatRecord.object_type s <> EmptyString.
Proof.
  unfold track.
  destruct (twoline2satrec lib (TLEInput.line1 tle) (TLEInput.line2 tle));
    [|discriminate].
  intros [= <-]. cbn.
  destruct (TLEInput.object_type tle) as [[|c r]|]; discriminate.
Qed.

Lemma run_app (sats : State SatRec) (e1 e2 : list Received) :
  run lib Date_parse sats (e1 ++ e2) =
  (fst (run lib Date_parse (fst (run lib Date_parse sats e1)) e2),
   snd (run lib Date_parse sats e1) ++
   snd (run lib Date_parse (fst (run lib Date_parse sats e1)) e2)).
Proof.
  revert sats. induction e1 as [|e e1 IH]; intros sats; cbn [run app fst snd].
  - now destruct (run lib Date_parse sats e2).
  - destruct (onmessage lib Date_parse sats e) as [s1 o1].
    rewrite IH.
    destruct (run lib Date_parse s1 e1) as [s2 o2]. cbn [fst snd].
    destruct (run lib Date_parse s2 e2) as [s3 o3]. cbn [fst snd].
    now rewrite app_assoc.
Qed.

(** X7.  From the start of the worker on, whatever messages arrive, no
    tracked record and no published position has an empty object type: a
    missing or empty [object_type] of an element set was replaced by
    ['UNKNOWN'] when the record was made. *)
Theorem object_type_is_never_empty (events : list Received) :
  Forall (fun s => SatRecord.object_type s <> EmptyString)
    (fst (run lib Date_parse [] events)) /\
  Forall (fun m =>
    match m with
    | positions data =>
        Forall (fun p => Position.object_type p <> EmptyString) data
    | _ => True
    end) (snd (run lib Date_parse [] events)).
Proof.
  assert (G : forall (sats : State SatRec),
    Forall (fun s => SatRecord.object_type s <> EmptyString) sats ->
    Forall (fun s => SatRecord.object_type s <> EmptyString)
      (fst (run lib Date_parse sats events)) /\
    Forall (fun m =>
      match m with
      | positions data =>
          Forall (fun p => Position.object_type p <> EmptyString) data
      | _ => True
      end) (snd (run lib Date_parse sats events))).
  { induction events as [|e events IH]; intros sats I; cbn [run].
    - split; [exact I|constructor].
    - destruct (onmessage lib Date_parse sats e) as [s1 o1] eqn:E.
      assert (S : Forall (fun s => SatRecord.object_type s <> EmptyString) s1 /\
                  Forall (fun m =>
                    match m with
                    | positions data =>
                        Forall (fun p => Position.object_type p <> EmptyString)
                          data
                    | _ => True
                    end) o1).
      { destruct e as [tles|ts|type]; cbn [onmessage] in E.
        - rewrite initTLEs_eq in E. injection E as <- <-. split.
          + apply Forall_forall. intros s Hs. apply In_keep in Hs.
            destruct Hs as (tle & _ & Hs). now apply track_object_type in Hs.
          + repeat constructor.
        - destruct (gstime lib (Date_parse ts)) as [gmst|e'] eqn:Gs.
          + rewrite (@propagateAll_eq SatRec lib Date_parse sats ts gmst Gs) in E.
            injection E as <- <-. split.
            * apply Forall_forall. intros s Hs. apply in_map_iff in Hs.
              destruct Hs as (s0 & <- & Hs0).
              destruct (left_as_fields ts (Date_parse ts) gmst s0)
                as (_ & _ & -> & _).
              rewrite Forall_forall in I. now apply I.
            * constructor.
              -- apply Forall_forall. intros p Hp. apply In_keep in Hp.
                 destruct Hp as (s0 & Hs0 & Hp).
                 apply pushed_position_inv in Hp.
                 destruct Hp as (o & _ & _ & ->). cbn.
                 rewrite Forall_forall in I. now apply I.
              -- destruct (keep (fun s => pushed_maneuver _) sats);
                   cbn [announce]; repeat constructor.
          + rewrite (@propagateAll_throw SatRec lib Date_parse sats ts e' Gs) in E.
            injection E as <- <-. split; [exact I|constructor].
        - injection E as <- <-. split; [exact I|constructor]. }
      destruct S as [S1 S2]. specialize (IH s1 S1).
      destruct (run lib Date_parse s1 events) as [s2 o2]. cbn [fst snd] in *.
      split; [tauto|]. apply Forall_app. tauto. }
  apply G. constructor.
Qed.

End WorkerRuns.

(** * The hook and the worker together *)

Section HookFacts.
Import Worker.

Lemma firstn_app_firstn (A : Type) (n : nat) (a b : list A) :
  firstn n (a ++ firstn n b) = firstn n (a ++ b).
Proof.
  rewrite !firstn_app, firstn_firstn. f_equal. f_equal. lia.
Qed.

Lemma receive_log (s : Hook.State) (ms : list Posted) :
  Hook.maneuvers (Hook.receive s ms) =
  match keep Hook.batch ms with
  | [] => Hook.maneuvers s
  | bs => firstn 50 (concat (rev bs) ++ Hook.maneuvers s)
  end.
Proof.
  revert s. induction ms as [|m ms IH]; intros s; [reflexivity|].
  unfold Hook.receive. cbn [fold_left]. fold (Hook.receive (Hook.onmessage s m) ms).
  rewrite IH.
  destruct m as [count|data|data]; cbn [keep Hook.batch Hook.onmessage Hook.maneuvers];
    try reflexivity.
  destruct (keep Hook.batch ms) as [|b bs].
  - cbn. now rewrite app_nil_r.
  - rewrite firstn_app_firstn.
    change (rev (data :: b :: bs)) with (rev (b :: bs) ++ [data]).
    rewrite concat_app. cbn [concat]. rewrite app_nil_r, <- app_assoc.
    reflexivity.
Qed.

(** X8.  The hook's maneuver log holds the batches the worker posted,
    the latest batch first and each batch in the order the worker sent
    it, cut after 50 events; so a log of at most 50 events never grows
    past 50, and a batch of 50 events or more pushes every older event
    out. *)
Theorem maneuver_log_keeps_the_newest_fifty (s : Hook.State) (ms : list Posted) :
  let log := Hook.maneuvers (Hook.receive s ms) in
  log = match keep Hook.batch ms with
        | [] => Hook.maneuvers s
        | bs => firstn 50 (concat (rev bs) ++ Hook.maneuvers s)
        end /\
  ((List.length (Hook.maneuvers s) <= 50)%nat -> (List.length log <= 50)%nat) /\
  (forall (data : list ManeuverEvent.t),
     (50 <= List.length data)%nat ->
     Hook.maneuvers (Hook.onmessage s (maneuvers data)) = firstn 50 data).
Proof.
  cbv zeta. rewrite receive_log. split; [reflexivity|]. split.
  - intros H. destruct (keep Hook.batch ms); [exact H|].
    apply firstn_le_length.
  - intros data H. cbn [Hook.onmessage Hook.maneuvers]. rewrite firstn_app.
    replace (50 - List.length data)%nat with 0%nat by lia.
    rewrite firstn_0. now rewrite app_nil_r.
Qed.

Section WithWorker.

Variable SatRec : Type.
Variable lib : SatelliteJs SatRec.
Variable Date_parse : string -> number.

(** What the hook shows after any messages, given that every snapshot
    among them is short enough. *)
Lemma receive_positions (n : nat) (ms : list Posted) (s : Hook.State) :
  (List.length (Hook.positions s) <= n)%nat ->
  Forall (fun m => match m with
                   | positions data => (List.length data <= n)%nat
                   | _ => True
                   end) ms ->
  (List.length (Hook.positions (Hook.receive s ms)) <= n)%nat.
Proof.
  intros H F. revert s H. induction F as [|m ms Hm _ IH]; intros s H;
    [exact H|].
  change (Hook.receive s (m :: ms))
    with (Hook.receive (Hook.onmessage s m) ms).
  apply IH. destruct m; cbn; assumption.
Qed.

Lemma receive_ready (ms : list Posted) (s : Hook.State) :
  Forall (fun m => forall count, m <> init_complete count) ms ->
  Hook.isReady (Hook.receive s ms) = Hook.isReady s /\
  Hook.satCount (Hook.receive s ms) = Hook.satCount s.
Proof.
  intros F. revert s. induction F as [|m ms Hm _ IH]; intros s; [auto|].
  change (Hook.receive s (m :: ms))
    with (Hook.receive (Hook.onmessage s m) ms).
  destruct (IH (Hook.onmessage s m)) as [-> ->].
  destruct m as [count| |]; [now destruct (Hm count)| |]; auto.
Qed.

(** The messages a run of propagate messages posts. *)
Lemma propagate_run_posts (stamps : list string) (sats : State SatRec) :
  Forall (fun m => match m with
                   | positions data =>
                       (List.length data <= List.length sats)%nat
                   | maneuvers _ => True
                   | init_complete _ => False
                   end)
    (snd (run lib Date_parse sats (map propagate_at stamps))).
Proof.
  revert sats. induction stamps as [|ts stamps IH]; intros sats;
    cbn [map run]; [constructor|].
  cbn [onmessage].
  assert (P : Forall (fun m => match m with
                               | positions data =>
                                   (List.length data <= List.length sats)%nat
                               | maneuvers _ => True
                               | init_complete _ => False
                               end)
                (snd (propagateAll lib Date_parse sats ts))).
  { destruct (gstime lib (Date_parse ts)) as [gmst|e] eqn:G.
    - rewrite (@propagateAll_eq SatRec lib Date_parse sats ts gmst G).
      cbn [snd]. constructor; [apply keep_length|].
      destruct (keep (fun s => pushed_maneuver _) sats); cbn [announce];
        repeat constructor.
    - rewrite (@propagateAll_throw SatRec lib Date_parse sats ts e G).
      constructor. }
  pose proof (propagateAll_fields lib Date_parse sats ts) as (L & _).
  apply (f_equal (@List.length _)) in L. rewrite !length_map in L.
  destruct (propagateAll lib Date_parse sats ts) as [s1 o1]. cbn [fst snd] in *.
  specialize (IH s1). rewrite L in IH.
  destruct (run lib Date_parse s1 (map propagate_at stamps)) as [s2 o2].
  cbn [snd] in *. apply Forall_app. split; [exact P|exact IH].
Qed.

(** X9.  The hook and the worker together.  After an init message and any
    number of propagate messages, the hook is ready, its satellite count
    is the number of element sets [twoline2satrec] accepted, it shows at
    most that many positions, and its maneuver log holds at most 50
    events. *)
Theorem hook_after_init (old : State SatRec) (tles : list TLEInput.t)
  (stamps : list string) :
  let posted :=
    snd (run lib Date_parse old (init tles :: map propagate_at stamps)) in
  let hook := Hook.receive Hook.initial posted in
  Hook.isReady hook = true /\
  Hook.satCount hook = List.length (filter (accepted lib) tles) /\
  (List.length (Hook.positions hook) <= Hook.satCount hook)%nat /\
  (List.length (Hook.maneuvers hook) <= 50)%nat.
Proof.
  cbv zeta. cbn [run].
  change (onmessage lib Date_parse old (init tles))
    with (initTLEs lib old tles).
  rewrite initTLEs_eq.
  pose proof (propagate_run_posts stamps (keep (track lib) tles)) as P.
  destruct (run lib Date_parse (keep (track lib) tles) (map propagate_at stamps))
    as [s2 o2]. cbn [snd app] in *.
  unfold Hook.receive. cbn [fold_left Hook.onmessage Hook.initial
    Hook.positions Hook.maneuvers].
  set (h := {| Hook.positions := []; Hook.maneuvers := [];
               Hook.isReady := true;
               Hook.satCount := List.length (keep (track lib) tles) |}).
  fold (Hook.receive h o2).
  assert (R : Forall (fun m => forall count, m <> init_complete count) o2).
  { eapply Forall_impl; [|exact P]. intros [c|d|f] H count;
      [contradiction|discriminate|discriminate]. }
  destruct (receive_ready h R) as [-> ->]. cbn [h Hook.isReady Hook.satCount].
  rewrite <- keep_track_length.
  split; [reflexivity|]. split; [reflexivity|]. split.
  - apply receive_positions; [cbn; lia|].
    eapply Forall_impl; [|exact P]. intros [c|d|f] H; auto.
  - rewrite receive_log. destruct (keep Hook.batch o2); [cbn; lia|].
    apply firstn_le_length.
Qed.

End WithWorker.

End HookFacts.

(** * Notifications *)

Section NotificationFacts.
Import Notifications.

Variable Data : Type.

Lemma calls_app (l : list (AppNotification Data)) (cs1 cs2 : list (Call Data)) :
  calls (calls l cs1) cs2 = calls l (cs1 ++ cs2).
Proof. unfold calls. now rewrite fold_left_app. Qed.

Lemma call_length (l : list (AppNotification Data)) (c : Call Data) :
  (List.length (call l c) <= Nat.max (List.length l) 100)%nat /\
  ((List.length l <= 100)%nat -> (List.length (call l c) <= 100)%nat).
Proof.
  destruct c as [n|i| |]; cbn [call];
    unfold addNotification, markAsRead, markAllRead, clearAll,
      MAX_NOTIFICATIONS;
    rewrite ?length_map; cbn [List.length]; try lia.
  pose proof (firstn_le_length 100 (n :: l)). lia.
Qed.

Lemma calls_length (l : list (AppNotification Data)) (cs : list (Call Data)) :
  (List.length (calls l cs) <= Nat.max (List.length l) 100)%nat.
Proof.
  revert l. induction cs as [|c cs IH]; intros l; [cbn; lia|].
  change (calls l (c :: cs)) with (calls (call l c) cs).
  specialize (IH (call l c)). pose proof (call_length l c). lia.
Qed.

(** X10.  The list of notifications is newest first and bounded: a new
    notification is unread and goes to the front, followed by the first 99
    of the ones before; over any sequence of calls the list is never
    longer than the longer of its first length and 100, and once a
    notification has been added it never holds more than 100. *)
Theorem notifications_are_newest_first_and_bounded :
  (forall (fresh : string) (now : number) (ty : NotificationType)
          (sev : NotificationSeverity) (ti msg : string)
          (norad : option number) (d : option Data) (prev : list (AppNotification Data)),
     let n := notification fresh now ty sev ti msg norad d in
     addNotification n prev = n :: firstn 99 prev /\ read n = false) /\
  (forall (l : list (AppNotification Data)) (cs : list (Call Data)),
     (List.length (calls l cs) <= Nat.max (List.length l) 100)%nat) /\
  (forall (l : list (AppNotification Data)) (cs1 cs2 : list (Call Data)) (n : AppNotification Data),
     (List.length (calls l (cs1 ++ Add n :: cs2)) <= 100)%nat).
Proof.
  split; [|split].
  - intros. split; reflexivity.
  - apply calls_length.
  - intros l cs1 cs2 n. rewrite <- calls_app.
    change (calls (calls l cs1) (Add n :: cs2))
      with (calls (addNotification n (calls l cs1)) cs2).
    pose proof (calls_length (addNotification n (calls l cs1)) cs2) as H.
    pose proof (firstn_le_length 100 (n :: calls l cs1)) as F.
    unfold addNotification, MAX_NOTIFICATIONS in *. lia.
Qed.

Lemma unread_markAsRead (i : string) (l : list (AppNotification Data)) :
  (unreadCount (markAsRead i l) +
   List.length (filter (fun n => negb (read n) && String.eqb (id n) i)%bool l)
   = unreadCount l)%nat.
Proof.
  unfold unreadCount, markAsRead.
  induction l as [|n l IH]; [reflexivity|]. cbn [map filter].
  destruct (String.eqb (id n) i); destruct (read n) eqn:R;
    cbn [as_read read negb andb List.length]; rewrite ?R; cbn [negb List.length];
    lia.
Qed.

(** X11.  The unread counter.  [markAsRead] lowers it by exactly the
    number of unread notifications that carry the identifier (all of
    them, should identifiers collide), changes nothing but their [read]
    flags, and does nothing the second time; [markAllRead] and
    [clearAll] bring it to zero; a new notification raises the count of
    the 99 notifications that stay by one. *)
Theorem unread_counter (l : list (AppNotification Data)) (i : string) :
  (unreadCount (markAsRead i l) +
   List.length (filter (fun n => negb (read n) && String.eqb (id n) i)%bool l)
   = unreadCount l)%nat /\
  map (fun n => (id n, type n, severity n, title n, message n, timestamp n,
                 noradId n, data n)) (markAsRead i l) =
  map (fun n => (id n, type n, severity n, title n, message n, timestamp n,
                 noradId n, data n)) l /\
  Forall2 (fun n n' => read n' = (read n || String.eqb (id n) i)%bool)
    l (markAsRead i l) /\
  markAsRead i (markAsRead i l) = markAsRead i l /\
  unreadCount (markAllRead l) = 0%nat /\
  unreadCount (clearAll l) = 0%nat /\
  (forall n : AppNotification Data,
     read n = false ->
     unreadCount (addNotification n l) = S (unreadCount (firstn 99 l))) /\
  (unreadCount l <= List.length l)%nat.
Proof.
  split; [apply unread_markAsRead|]. split; [|split; [|split; [|split;
    [|split; [|split]]]]].
  - unfold markAsRead. rewrite map_map. apply map_ext. intros n.
    now destruct (String.eqb (id n) i).
  - unfold markAsRead. induction l as [|n l IH]; cbn [map]; constructor;
      [|exact IH].
    destruct (String.eqb (id n) i); cbn; [now rewrite orb_true_r|
                                          now rewrite orb_false_r].
  - unfold markAsRead. rewrite map_map. apply map_ext. intros n.
    destruct (String.eqb (id n) i) eqn:E; cbn [as_read id]; rewrite E;
      reflexivity.
  - unfold unreadCount, markAllRead. induction l as [|n l IH]; [reflexivity|].
    cbn. exact IH.
  - reflexivity.
  - intros n R. unfold unreadCount, addNotification, MAX_NOTIFICATIONS.
    cbn [firstn filter]. rewrite R. reflexivity.
  - unfold unreadCount. apply filter_length_le.
Qed.

End NotificationFacts.

(** * Conjunction alerts *)

Section AlertFacts.
Import Conjunctions Alerts.
Local Open Scope float_scope.

Lemma leb_ltb_trans (a b c : float) :
  (a <=? b) = true -> (b <? c) = true -> (a <? c) = true.
Proof.
  intros H1 H2. destruct (a <? c) eqn:E; [reflexivity|exfalso].
  destruct (@leb_not_nan _ _ H1) as [Na _].
  destruct (@ltb_not_nan _ _ H2) as [_ Nc].
  pose proof (@not_ltb_leb c a Nc Na E) as H3.
  pose proof (@leb_trans _ _ _ H3 H1) as H4.
  apply leb_ltb_false in H4. congruence.
Qed.

Lemma ltb_trans_const (d a b : float) :
  (a <=? b) = true -> (d <? a) = true -> (d <? b) = true.
Proof.
  intros H1 H2. destruct (d <? b) eqn:E; [reflexivity|exfalso].
  destruct (@ltb_not_nan _ _ H2) as [Nd _].
  destruct (@leb_not_nan _ _ H1) as [_ Nb].
  pose proof (@not_ltb_leb b d Nb Nd E) as H3.
  pose proof (@leb_trans _ _ _ H1 H3) as H4.
  apply leb_ltb_false in H4. congruence.
Qed.

(** The three tests of the ladder on one distance. *)
Lemma level_cases (d : number) :
  ((d <? 1) = true /\ (d <? 5) = true /\ (d <? 25) = true /\
   getRiskLevel d = CRITICAL) \/
  ((d <? 1) = false /\ (d <? 5) = true /\ (d <? 25) = true /\
   getRiskLevel d = HIGH) \/
  ((d <? 1) = false /\ (d <? 5) = false /\ (d <? 25) = true /\
   getRiskLevel d = MODERATE) \/
  ((d <? 1) = false /\ (d <? 5) = false /\ (d <? 25) = false /\
   getRiskLevel d = LOW).
Proof.
  rewrite getRiskLevel_eq.
  destruct (d <? 1) eqn:A.
  - left. rewrite (@ltb_trans_const d 1 5 eq_refl A).
    rewrite (@ltb_trans_const d 1 25 eq_refl A). repeat split; reflexivity.
  - destruct (d <? 5) eqn:B.
    + right. left. rewrite (@ltb_trans_const d 5 25 eq_refl B).
      repeat split; reflexivity.
    + destruct (d <? 25).
      * right. right. left. repeat split; reflexivity.
      * right. right. right. repeat split; reflexivity.
Qed.

(** X12.  A closer approach never gets a lower risk level, and the
    colours tell the levels apart: for [d1 <= d2], the level of [d1] is
    at least as severe as the level of [d2]; [getRiskColor] maps the four
    levels to four different colours; a distance that is [NaN] is shown
    in the colour of ['LOW']. *)
Theorem closer_is_never_safer :
  (forall d1 d2 : number,
     (d1 <=? d2) = true ->
     match getRiskLevel d2 with
     | CRITICAL => getRiskLevel d1 = CRITICAL
     | HIGH => getRiskLevel d1 = CRITICAL \/ getRiskLevel d1 = HIGH
     | MODERATE => getRiskLevel d1 <> LOW
     | LOW => True
     end) /\
  (forall l1 l2 : RiskLevel, getRiskColor l1 = getRiskColor l2 -> l1 = l2) /\
  (forall d : number,
     is_nan d = true -> getRiskColor (getRiskLevel d) = "#00D1FF"%string).
Proof.
  split; [|split].
  - intros d1 d2 H.
    destruct (level_cases d2) as [(A & B & C & ->)|[(A & B & C & ->)|
      [(A & B & C & ->)|(A & B & C & ->)]]]; [| | |exact I].
    + pose proof (@leb_ltb_trans _ _ _ H A) as A1.
      rewrite getRiskLevel_eq, A1. reflexivity.
    + pose proof (@leb_ltb_trans _ _ _ H B) as B1.
      rewrite getRiskLevel_eq, B1. destruct (d1 <? 1); auto.
    + pose proof (@leb_ltb_trans _ _ _ H C) as C1.
      rewrite getRiskLevel_eq, C1. destruct (d1 <? 1), (d1 <? 5); discriminate.
  - intros [] []; cbn; intros H; try reflexivity; discriminate.
  - intros d N. rewrite getRiskLevel_eq.
    now rewrite !(@ltb_nan_l _ _ N).
Qed.

Variable shortest : number -> string.

Lemma known_self (prev : list ConjunctionEvent) (c : ConjunctionEvent) :
  In c prev -> known shortest prev c = true.
Proof.
  intros H. unfold known. apply existsb_exists. exists (key shortest c).
  split; [now apply in_map|apply String.eqb_refl].
Qed.

(** X13.  The notification rule of the conjunction poll agrees with the
    risk ladder.  A notification is asked for exactly for an event whose
    pair key was not in the previous list and whose distance the ladder
    rates CRITICAL or HIGH; it is ['critical'] for CRITICAL and
    ['warning'] for HIGH and names the first satellite; the poll keeps the
    fetched list as it is; and fetching an unchanged list asks for no
    notification. *)
Theorem alerts_agree_with_the_risk_ladder
  (prev : list ConjunctionEvent) (c : ConjunctionEvent) :
  (known shortest prev c = true -> alert shortest prev c = None) /\
  (known shortest prev c = false ->
   match getRiskLevel (distance c) with
   | CRITICAL =>
       exists r, alert shortest prev c = Some r /\
                 r_severity r = Notifications.critical /\
                 r_type r = Notifications.conjunction /\
                 r_noradId r = sat1_norad c
   | HIGH =>
       exists r, alert shortest prev c = Some r /\
                 r_severity r = Notifications.warning /\
                 r_type r = Notifications.conjunction /\
                 r_noradId r = sat1_norad c
   | _ => alert shortest prev c = None
   end) /\
  (forall data : list ConjunctionEvent,
     fst (loadRisks shortest prev data) = data /\
     (List.length (snd (loadRisks shortest prev data)) <= List.length data)%nat) /\
  snd (loadRisks shortest prev prev) = [].
Proof.
  split; [|split; [|split]].
  - intros K. unfold alert. now rewrite K.
  - intros K. unfold alert. rewrite K. cbn [negb andb].
    change (lit 5 0) with 5. change (lit 1 0) with 1.
    destruct (level_cases (distance c)) as [(A & B & C & ->)|[(A & B & C & ->)|
      [(A & B & C & ->)|(A & B & C & ->)]]]; rewrite B, ?A; eauto.
  - intros data. split; [reflexivity|]. apply keep_length.
  - unfold loadRisks. cbn [snd].
    assert (G : forall l, (forall c', In c' l -> In c' prev) ->
                keep (alert shortest prev) l = []).
    { induction l as [|c' l IH]; intros H; [reflexivity|]. cbn [keep].
      unfold alert at 1. rewrite known_self by (apply H; now left).
      cbn [negb andb]. apply IH. intros c'' H'. apply H. now right. }
    apply G. auto.
Qed.

End AlertFacts.

(** * Printing numbers *)

Module DigitFacts.
Import Format.
Local Open Scope Z_scope.
Local Unset Implicit Arguments.

Lemma digit_digitChar (d : Z) : 0 <= d < 10 -> digit (digitChar d) = Some d.
Proof.
  intros H.
  assert (C : d = 0 \/ d = 1 \/ d = 2 \/ d = 3 \/ d = 4 \/ d = 5 \/ d = 6 \/
              d = 7 \/ d = 8 \/ d = 9) by lia.
  repeat (destruct C as [->|C]; [reflexivity|]). now subst.
Qed.

Lemma span_cons (c : ascii) (d : Z) (s : string) :
  digit c = Some d ->
  span digit (String c s) = (d :: fst (span digit s), snd (span digit s)).
Proof. intros H. cbn [span]. rewrite H. now destruct (span digit s). Qed.

Lemma span_stop (c : ascii) (s : string) :
  digit c = None -> span digit (String c s) = ([], String c s).
Proof. intros H. cbn [span]. now rewrite H. Qed.

Lemma span_app (s r : string) :
  numeral s ->
  span digit (s ++ r)%string =
  (fst (span digit s) ++ fst (span digit r), snd (span digit r)).
Proof.
  unfold numeral. induction s as [|c s IH]; intros H.
  - cbn. now destruct (span digit r).
  - cbn [append]. destruct (digit c) as [d|] eqn:D.
    + rewrite (span_cons c d s D) in H. cbn [snd] in H.
      rewrite (span_cons c d _ D), (span_cons c d s D), (IH H). reflexivity.
    + rewrite (span_stop c s D) in H. discriminate.
Qed.

Lemma numeral_length (s : string) : numeral s -> dl s = String.length s.
Proof.
  unfold numeral, dl. induction s as [|c s IH]; intros H; [reflexivity|].
  destruct (digit c) as [d|] eqn:D.
  - rewrite (span_cons c d s D) in *. cbn [fst snd List.length String.length] in *.
    now rewrite IH.
  - rewrite (span_stop c s D) in H. discriminate.
Qed.

Lemma numeral_app (s r : string) : numeral s -> numeral r -> numeral (s ++ r).
Proof.
  intros Hs Hr. unfold numeral. now rewrite (span_app s r Hs).
Qed.

Lemma numeral_app_inv (s r : string) :
  numeral (s ++ r) -> numeral s /\ numeral r.
Proof.
  unfold numeral. induction s as [|c s IH]; intros H; [now split|].
  cbn [append] in H. destruct (digit c) as [d|] eqn:D.
  - rewrite (span_cons c d _ D) in H. cbn [snd] in H.
    rewrite (span_cons c d s D). cbn [snd]. now apply IH.
  - rewrite (span_stop c _ D) in H. discriminate.
Qed.

Lemma valueOf_from (ds : list Z) (a : Z) :
  fold_left (fun acc d => acc * 10 + d) ds a =
  a * 10 ^ Z.of_nat (List.length ds) + valueOf 10 ds.
Proof.
  unfold valueOf. revert a. induction ds as [|d ds IH]; intros a.
  - cbn. lia.
  - cbn [fold_left List.length]. rewrite IH, (IH (0 * 10 + d)).
    rewrite Nat2Z.inj_succ, Z.pow_succ_r by lia. lia.
Qed.

Lemma valueOf_app (a b : list Z) :
  valueOf 10 (a ++ b) = valueOf 10 a * 10 ^ Z.of_nat (List.length b) + valueOf 10 b.
Proof.
  unfold valueOf at 1. rewrite fold_left_app, valueOf_from. reflexivity.
Qed.

Lemma dv_app (s r : string) :
  numeral s -> dv (s ++ r) = dv s * 10 ^ Z.of_nat (dl r) + dv r.
Proof.
  intros H. unfold dv, dl. rewrite (span_app s r H). cbn [fst].
  apply valueOf_app.
Qed.

Lemma dv_cons (c : ascii) (d : Z) (s : string) :
  digit c = Some d -> dv (String c s) = d * 10 ^ Z.of_nat (dl s) + dv s.
Proof.
  intros D. unfold dv, dl. rewrite (span_cons c d s D). cbn [fst].
  change (d :: fst (span digit s)) with ([d] ++ fst (span digit s)).
  rewrite valueOf_app. cbn. lia.
Qed.

(** The digits of [n]. *)
Lemma digits_spec (fuel : nat) (n : Z) (acc : string) :
  (1 <= fuel)%nat -> 0 <= n < 10 ^ Z.of_nat fuel -> numeral acc ->
  numeral (digits fuel n acc) /\
  dv (digits fuel n acc) = n * 10 ^ Z.of_nat (dl acc) + dv acc /\
  (dl acc < dl (digits fuel n acc))%nat.
Proof.
  revert n acc. induction fuel as [|fuel IH]; intros n acc F B A; [lia|].
  cbn [digits].
  assert (M : 0 <= n mod 10 < 10) by (apply Z.mod_pos_bound; lia).
  pose proof (digit_digitChar (n mod 10) M) as D.
  set (acc' := String (digitChar (n mod 10)) acc).
  assert (A' : numeral acc').
  { unfold numeral, acc'. rewrite (span_cons _ _ acc D). exact A. }
  assert (V' : dv acc' = n mod 10 * 10 ^ Z.of_nat (dl acc) + dv acc)
    by (apply dv_cons; exact D).
  assert (L' : dl acc' = S (dl acc)).
  { unfold dl, acc'. rewrite (span_cons _ _ acc D). reflexivity. }
  clearbody acc'.
  pose proof (Z.div_mod n 10 ltac:(lia)) as E.
  destruct (Z.eqb_spec (n / 10) 0) as [Z0|NZ]; cbv iota.
  - split; [exact A'|]. split; [|rewrite L'; apply Nat.lt_succ_diag_r].
    rewrite V'. replace (n mod 10) with n by (rewrite Z0 in E; lia). reflexivity.
  - assert (Q : 0 <= n / 10) by (apply Z.div_pos; lia).
    assert (F' : (1 <= fuel)%nat).
    { destruct fuel; [|lia]. cbn in B.
      assert (n / 10 = 0) by (apply Z.div_small; lia). lia. }
    assert (B' : 0 <= n / 10 < 10 ^ Z.of_nat fuel).
    { split; [exact Q|]. apply Z.div_lt_upper_bound; [lia|].
      rewrite Nat2Z.inj_succ, Z.pow_succ_r in B by lia. lia. }
    destruct (IH (n / 10) acc' F' B' A') as (I1 & I2 & I3).
    split; [exact I1|]. split; [|rewrite L' in I3; lia].
    rewrite I2, V', L', Nat2Z.inj_succ, Z.pow_succ_r by lia. nia.
Qed.

Lemma decimal_spec (n : Z) :
  0 <= n ->
  numeral (decimal n) /\ dv (decimal n) = n /\ (1 <= String.length (decimal n))%nat.
Proof.
  intros H. unfold decimal.
  assert (B : 0 <= n < 10 ^ Z.of_nat (S (Z.to_nat (Z.log2 n)))).
  { split; [exact H|].
    destruct (Z.eq_dec n 0) as [->|NZ]; [cbn; lia|].
    pose proof (Z.log2_spec n ltac:(lia)) as [_ U].
    pose proof (Z.log2_nonneg n).
    rewrite Nat2Z.inj_succ, Z2Nat.id by lia.
    assert (2 ^ Z.succ (Z.log2 n) <= 10 ^ Z.succ (Z.log2 n))
      by (apply Z.pow_le_mono_l; lia).
    lia. }
  destruct (digits_spec (S (Z.to_nat (Z.log2 n))) n EmptyString ltac:(lia) B
              eq_refl) as (N & V & L).
  split; [exact N|]. split.
  - rewrite V. change (dl EmptyString) with 0%nat.
    change (dv EmptyString) with 0. cbn [Z.of_nat]. lia.
  - rewrite <- (numeral_length _ N). change (dl EmptyString) with 0%nat in L.
    lia.
Qed.


Lemma numeral_zeros (k : nat) : numeral (zeros k) /\ dv (zeros k) = 0 /\
  String.length (zeros k) = k.
Proof.
  induction k as [|k (N & V & L)]; [repeat split|].
  cbn [zeros]. assert (D : digit "0"%char = Some 0) by reflexivity.
  split; [|split].
  - unfold numeral. rewrite (span_cons _ _ _ D). exact N.
  - rewrite (dv_cons _ _ _ D), V. lia.
  - cbn. now rewrite L.
Qed.

Lemma substring_split (s : string) (n : nat) :
  (n <= String.length s)%nat ->
  (String.substring 0 n s ++ String.substring n (String.length s - n) s)%string = s.
Proof.
  revert n. induction s as [|c s IH]; intros n H.
  - cbn in H. assert (n = 0)%nat by lia. subst. reflexivity.
  - destruct n as [|n].
    + cbn [String.substring append String.length Nat.sub]. f_equal.
      specialize (IH 0%nat ltac:(lia)). rewrite Nat.sub_0_r in IH.
      destruct s; [reflexivity|]. cbn [String.substring append] in IH.
      exact IH.
    + cbn [String.substring append String.length Nat.sub]. f_equal.
      apply IH. cbn in H. lia.
Qed.

Lemma substring_length (s : string) (n m : nat) :
  (n + m <= String.length s)%nat ->
  String.length (String.substring n m s) = m.
Proof.
  revert n m. induction s as [|c s IH]; intros n m H.
  - cbn in H. assert (n = 0 /\ m = 0)%nat as [-> ->] by lia. reflexivity.
  - destruct n as [|n].
    + destruct m as [|m]; [reflexivity|]. cbn [String.substring String.length].
      f_equal. apply IH. cbn in H. lia.
    + cbn [String.substring]. apply IH. cbn in H. lia.
Qed.

Lemma append_empty_r (s : string) : (s ++ "")%string = s.
Proof. induction s as [|c s IH]; [reflexivity|]. cbn. now rewrite IH. Qed.

Lemma append_assoc (a b c : string) :
  ((a ++ b) ++ c)%string = (a ++ (b ++ c))%string.
Proof. induction a as [|x a IH]; [reflexivity|]. cbn. now rewrite IH. Qed.

Lemma append_length (s t : string) :
  String.length (s ++ t) = (String.length s + String.length t)%nat.
Proof. induction s as [|c s IH]; cbn; congruence. Qed.

(** [place] puts the point before the last [f] digits. *)
Lemma place_spec (m : string) (f : nat) :
  numeral m -> (1 <= String.length m)%nat ->
  exists a b : string,
    place m f = (a ++ match f with O => "" | S _ => "." end ++ b)%string /\
    String.length b = f /\ (1 <= String.length a)%nat /\
    numeral a /\ numeral b /\ dv (a ++ b) = dv m.
Proof.
  intros N L. destruct f as [|f'].
  - exists m, EmptyString. cbn [place append].
    rewrite !append_empty_r. repeat split; auto.
  - set (f := S f'). cbn [place]. fold f.
    set (m' := if (String.length m <=? f)%nat
               then (zeros (f + 1 - String.length m) ++ m)%string else m).
    assert (P : numeral m' /\ dv m' = dv m /\ (f < String.length m')%nat).
    { unfold m'. destruct (Nat.leb_spec (String.length m) f) as [Le|Gt].
      - destruct (numeral_zeros (f + 1 - String.length m)) as (Nz & Vz & Lz).
        split; [now apply numeral_app|]. split.
        + rewrite (dv_app _ _ Nz), Vz. lia.
        + rewrite append_length, Lz. lia.
      - auto. }
    destruct P as (N' & V' & L').
    exists (String.substring 0 (String.length m' - f) m'),
           (String.substring (String.length m' - f) f m').
    pose proof (substring_split m' (String.length m' - f) ltac:(lia)) as S.
    replace (String.length m' - (String.length m' - f))%nat with f in S by lia.
    rewrite S.
    rewrite <- S in N'. apply numeral_app_inv in N'. destruct N' as [Na Nb].
    split; [reflexivity|].
    split; [apply substring_length; lia|].
    split; [rewrite substring_length; lia|].
    auto.
Qed.

End DigitFacts.

(** * [toFixed], [formatOrbital] and reading a printed number back *)

Section FormatFacts.
Import Format DigitFacts Rounding RoundingFacts.
Local Open Scope Z_scope.

Variable shortest : number -> string.

Lemma nearest_nonneg (m : positive) (e f : Z) : 0 <= f -> 0 <= nearest m e f.
Proof.
  intros Hf. assert (0 < 10 ^ f) by (apply Z.pow_pos_nonneg; lia).
  unfold nearest. destruct e as [|p|k].
  - rewrite Z.pow_0_r. lia.
  - assert (0 < 2 ^ Zpos p) by (apply Z.pow_pos_nonneg; lia). nia.
  - assert (0 < 2 ^ Zpos k) by (apply Z.pow_pos_nonneg; lia).
    assert (0 < 2 ^ (Zpos k + 1)) by (apply Z.pow_pos_nonneg; lia).
    apply Z.div_pos; nia.
Qed.

(** [nearest] is within one half of the exact value times [10^f]. *)
Lemma nearest_close (s : bool) (m : positive) (e f : Z) :
  0 <= f ->
  (Qabs (inject_Z (nearest m e f) -
         Qabs (let v := inject_Z (if s then Zneg m else Zpos m) in
               match e with
               | Zneg k => v / inject_Z (Zpos (Pos.pow 2 k))
               | _ => v * inject_Z (2 ^ e)
               end) * inject_Z (10 ^ f)) <= 1 # 2)%Q.
Proof.
  intros Hf. cbv zeta. destruct e as [|p|k].
  - unfold nearest. rewrite Z.pow_0_r.
    set (t := 10 ^ f). clearbody t.
    cbv [Qle Qabs Qminus Qplus Qmult Qdiv Qinv Qopp inject_Z Qnum Qden].
    destruct s; cbn [Z.abs Z.opp]; lia.
  - unfold nearest.
    assert (P : 0 < 2 ^ Zpos p) by (apply Z.pow_pos_nonneg; lia).
    set (t := 10 ^ f). clearbody t.
    set (D := 2 ^ Zpos p) in *. clearbody D.
    cbv [Qle Qabs Qminus Qplus Qmult Qdiv Qinv Qopp inject_Z Qnum Qden].
    destruct s; cbn [Z.abs Z.opp];
      rewrite ?Z.abs_mul; cbn [Z.abs]; rewrite ?(Z.abs_eq D) by lia; lia.
  - assert (E : nearest m (Zneg k) f =
                (2 * (Zpos m * 10 ^ f) + 2 ^ Zpos k) / (2 * 2 ^ Zpos k)).
    { unfold nearest. rewrite Z.pow_add_r by lia. f_equal; lia. }
    assert (P : 0 < 2 ^ Zpos k) by (apply Z.pow_pos_nonneg; lia).
    pose proof (Z.div_mod (2 * (Zpos m * 10 ^ f) + 2 ^ Zpos k)
                  (2 * 2 ^ Zpos k) ltac:(lia)) as DM.
    pose proof (Z.mod_pos_bound (2 * (Zpos m * 10 ^ f) + 2 ^ Zpos k)
                  (2 * 2 ^ Zpos k) ltac:(lia)) as RB.
    rewrite <- E in DM.
    set (n := nearest m (Zneg k) f) in *.
    set (r := (2 * (Zpos m * 10 ^ f) + 2 ^ Zpos k) mod (2 * 2 ^ Zpos k)) in *.
    clearbody n r.
    set (t := 10 ^ f) in *. clearbody t.
    set (D := 2 ^ Zpos k) in *.
    cbv [Qle Qabs Qminus Qplus Qmult Qdiv Qinv Qopp inject_Z Qnum Qden].
    destruct s; cbn [Z.abs Z.opp];
      rewrite ?Pos.mul_1_r, ?Z.mul_1_r, ?Pos2Z.inj_pow;
      change (Zpos 2) with 2; fold D; lia.
Qed.

Lemma W_1e21 : W (Prim2SF (lit 1 21)) = 10 ^ 21 * 2 ^ 1074.
Proof. vm_compute. reflexivity. Qed.

Lemma lit_1e21_finite :
  exists m e, Prim2SF (lit 1 21) = S754_finite false m e.
Proof. vm_compute. eauto. Qed.

(** Neither an infinity nor [NaN] is below [10^21]. *)
Lemma not_below_1e21 (x : spec_float) :
  SFltb (SFabs x) (Prim2SF (lit 1 21)) = true ->
  exists s, x = S754_zero s \/ exists m e, x = S754_finite s m e.
Proof.
  destruct lit_1e21_finite as (m & e & ->).
  destruct x as [s|s| |s m' e']; intros H; try discriminate H; eauto.
Qed.

(** A number below [10^21] in magnitude is not [huge]. *)
Lemma not_huge (s : bool) (m : positive) (e : Z) :
  valid_binary (S754_finite s m e) = true ->
  SFltb (S754_finite false m e) (Prim2SF (lit 1 21)) = true ->
  huge m e = false.
Proof.
  intros V H.
  assert (Px : positive_finite (S754_finite false m e)) by (split; eauto).
  assert (Pc : positive_finite (Prim2SF (lit 1 21))).
  { split; [apply Prim2SF_valid|]. vm_compute. eauto. }
  pose proof (SFltb_W _ _ Px Pc H) as L. rewrite W_1e21 in L.
  cbn [W cond_Zopp] in L.
  destruct (bounded_spec m e V) as (_ & R & _).
  unfold huge. destruct e as [|p|k].
  - apply Z.leb_gt. rewrite Z.pow_0_r. cbn [Z.add] in L. lia.
  - apply Z.leb_gt. rewrite Z.pow_add_r in L by lia.
    assert (0 < 2 ^ 1074) by (apply Z.pow_pos_nonneg; lia). nia.
  - apply Z.leb_gt.
    assert (E : 2 ^ 1074 = 2 ^ (Zneg k + 1074) * 2 ^ Zpos k).
    { rewrite <- Z.pow_add_r by lia. f_equal. lia. }
    rewrite E in L.
    assert (0 < 2 ^ (Zneg k + 1074)) by (apply Z.pow_pos_nonneg; lia).
    nia.
Qed.

(** What [toFixed] prints, once the digit count is settled, for a number
    below [10^21] in magnitude. *)
Lemma fixed_spec (x : number) (f : nat) :
  (abs x <? lit 1 21)%float = true ->
  exists (n : Z) (q : Q) (a b : string),
    exact_value x = Some q /\
    (Qabs (inject_Z n - Qabs q * inject_Z (10 ^ Z.of_nat f)) <= 1 # 2)%Q /\
    fixed shortest x f =
      ((if (x <? 0)%float then "-" else "") ++ a ++
       match f with O => "" | S _ => "." end ++ b)%string /\
    String.length b = f /\ (1 <= String.length a)%nat /\
    numeral a /\ numeral b /\ dv (a ++ b) = n.
Proof.
  intros H. unfold fixed, exact_value.
  pose proof (Prim2SF_valid x) as V.
  rewrite FloatAxioms.ltb_spec, abs_spec in H. rewrite FloatAxioms.ltb_spec.
  change (Prim2SF 0) with (S754_zero false).
  destruct (@not_below_1e21 _ H) as (s & [E|(m & e & E)]); rewrite E in *.
  - (* zero *)
    destruct (place_spec "0" f eq_refl ltac:(cbn; lia))
      as (a & b & P & Lb & La & Na & Nb & Vab).
    exists 0, 0%Q, a, b. split; [reflexivity|]. split.
    + set (t := 10 ^ Z.of_nat f). clearbody t.
      cbv [Qle Qabs Qminus Qplus Qmult Qopp inject_Z Qnum Qden].
      cbn [Z.abs Z.opp]. lia.
    + cbn [SFltb SFcompare]. rewrite P. cbn [append]. auto 7.
  - pose proof (@not_huge s m e V H) as NH. rewrite NH.
    pose proof (@nearest_nonneg m e (Z.of_nat f) ltac:(lia)) as N0.
    destruct (decimal_spec _ N0) as (Nd & Vd & Ld).
    destruct (place_spec _ f Nd Ld) as (a & b & P & Lb & La & Na & Nb & Vab).
    exists (nearest m e (Z.of_nat f)). eexists. exists a, b.
    split; [reflexivity|]. split; [apply nearest_close; lia|].
    split; [|rewrite Vab, Vd; auto 7].
    rewrite P. f_equal. now destruct s.
Qed.

(** X14.  [formatOrbital] prints the nearest decimal.  For a number [x]
    below [10^21] in magnitude and a digit count [f] within the range,
    [toFixed] returns an optional minus sign, at least one digit and,
    when [f] is not zero, a point followed by exactly [f] digits; the
    digits read as the integer [n] for which [n / 10^f] is nearest to
    [|x|] (it is within half a unit of the last printed digit), and the
    sign is there exactly when [x < 0], so that a negative number that
    rounds to zero prints as [-0.00].  [formatOrbital] returns this
    string, followed by a space and the unit when there is a unit. *)
Theorem toFixed_prints_the_nearest_decimal (x d : number) (unit : string)
  (f : nat) :
  fractionDigits d = Some f ->
  (abs x <? lit 1 21)%float = true ->
  exists (n : Z) (q : Q) (a b : string),
    exact_value x = Some q /\
    (Qabs (inject_Z n - Qabs q * inject_Z (10 ^ Z.of_nat f)) <= 1 # 2)%Q /\
    toFixed shortest x d =
      Normal ((if (x <? 0)%float then "-" else "") ++ a ++
              match f with O => "" | S _ => "." end ++ b)%string /\
    formatOrbital shortest x d unit =
      Normal (((if (x <? 0)%float then "-" else "") ++ a ++
               match f with O => "" | S _ => "." end ++ b) ++
              match unit with
              | EmptyString => ""
              | _ => " " ++ unit
              end)%string /\
    String.length b = f /\ (1 <= String.length a)%nat /\
    numeral a /\ numeral b /\ dv (a ++ b) = n.
Proof.
  intros F H.
  destruct (@fixed_spec x f H) as (n & q & a & b & Q1 & Q2 & P & R).
  assert (T : toFixed shortest x d =
              Normal ((if (x <? 0)%float then "-" else "") ++ a ++
                      match f with O => "" | S _ => "." end ++ b)%string).
  { unfold toFixed. rewrite F. f_equal. exact P. }
  exists n, q, a, b.
  split; [exact Q1|]. split; [exact Q2|]. split; [exact T|].
  split; [|exact R].
  unfold formatOrbital. rewrite T. reflexivity.
Qed.

End FormatFacts.

Section ReadBack.
Import Format DigitFacts Rounding RoundingFacts.
Local Open Scope Z_scope.

Variable shortest : number -> string.

Lemma digit_head (c : ascii) (d : Z) (r : string) :
  digit c = Some d ->
  sign (trimStart (String c r)) = (false, String c r) /\
  sign (trimStart (String "-" (String c r))) = (true, String c r) /\
  String.prefix "Infinity" (String c r) = false.
Proof.
  intros H. apply digit_inv in H. destruct H as [R ->].
  assert (C : d = 0 \/ d = 1 \/ d = 2 \/ d = 3 \/ d = 4 \/ d = 5 \/ d = 6 \/
              d = 7 \/ d = 8 \/ d = 9) by lia.
  clear R. repeat (destruct C as [->|C]; [repeat split|]).
  subst d. repeat split.
Qed.

Lemma numeral_head (a : string) :
  numeral a -> (1 <= String.length a)%nat ->
  exists c d a', a = String c a' /\ digit c = Some d.
Proof.
  unfold numeral. destruct a as [|c a']; cbn [String.length]; [lia|].
  intros N _. destruct (digit c) as [d|] eqn:D; [eauto|].
  rewrite (span_stop c a' D) in N. discriminate.
Qed.

(** What [parseFloat] reads in a printed number followed by nothing or by
    a space and anything. *)
Lemma parseFloat_fixed (neg : bool) (a b tail : string) (f : nat) :
  numeral a -> (1 <= String.length a)%nat ->
  numeral b -> String.length b = f ->
  tail = EmptyString \/ (exists u, tail = String " " u) ->
  parseFloat ((if neg then "-" else "") ++ a ++
              match f with O => "" | S _ => "." end ++ b ++ tail)%string =
  of_decimal neg (dv (a ++ b)) (- Z.of_nat f).
Proof.
  intros Na La Nb Lb T.
  destruct (numeral_head Na La) as (c & d & a' & Ea & D).
  assert (ST : span digit tail = ([], tail)).
  { destruct T as [->|[u ->]]; reflexivity. }
  assert (XT : exponentPart tail = 0).
  { destruct T as [->|[u ->]]; reflexivity. }
  set (rest := (match f with O => "" | S _ => "." end ++ b ++ tail)%string).
  assert (SR : match snd (span digit rest) with
               | String "." r => span digit r
               | _ => ([], snd (span digit rest))
               end = (fst (span digit b), tail) /\
               fst (span digit rest) = []).
  { unfold rest. destruct f as [|f'].
    - destruct b as [|cb b']; [|discriminate]. cbn [append].
      rewrite ST. cbn [fst snd].
      destruct T as [->|[u ->]]; split; reflexivity.
    - cbn [append]. rewrite (span_stop "." (b ++ tail) eq_refl).
      cbn [fst snd]. rewrite (span_app b tail Nb), ST, app_nil_r.
      split; reflexivity. }
  destruct SR as [SR SE].
  assert (S1 : span digit (a ++ rest) = (fst (span digit a), snd (span digit rest))).
  { rewrite (span_app a rest Na), SE, app_nil_r. reflexivity. }
  assert (U : parseFloat ((if neg then "-" else "") ++ a ++ rest) =
              match fst (span digit a) ++ fst (span digit b) with
              | [] => NaN
              | ds => of_decimal neg (valueOf 10 ds)
                        (exponentPart tail -
                         Z.of_nat (List.length (fst (span digit b))))
              end).
  { unfold parseFloat.
    assert (HS : sign (trimStart ((if neg then "-" else "") ++ a ++ rest)) =
                 (neg, (a ++ rest)%string) /\
                 String.prefix "Infinity" (a ++ rest) = false).
    { rewrite Ea. cbn [append].
      destruct (@digit_head c d (a' ++ rest) D) as (H1 & H2 & H3).
      destruct neg; cbn [append]; auto. }
    destruct HS as [-> ->]. rewrite S1, SR. reflexivity. }
  fold rest. rewrite U, XT. clear U.
  replace (List.length (fst (span digit b))) with f
    by (rewrite <- Lb; symmetry; apply (numeral_length b Nb)).
  replace (fst (span digit a) ++ fst (span digit b))
    with (fst (span digit (a ++ b))) by now rewrite (span_app a b Na).
  unfold dv.
  destruct (fst (span digit (a ++ b))) as [|x l] eqn:Z; [|reflexivity].
  rewrite Ea in Z. cbn [append] in Z.
  rewrite (span_cons c d (a' ++ b) D) in Z. discriminate.
Qed.

(** X15.  A formatted number reads back.  For a number below [10^21] in
    magnitude, [parseFloat] applied to what [formatOrbital] returned
    reads the decimal [n / 10^f] that was printed, with its sign, whatever
    the unit behind it: the number that comes back is the binary64 number
    nearest to a decimal within half a unit of the last printed digit of
    [x]. *)
Theorem formatted_number_reads_back (x d : number) (unit : string) (f : nat) :
  fractionDigits d = Some f ->
  (abs x <? lit 1 21)%float = true ->
  exists (n : Z) (q : Q) (s : string),
    formatOrbital shortest x d unit = Normal s /\
    parseFloat s = of_decimal (x <? 0)%float n (- Z.of_nat f) /\
    exact_value x = Some q /\
    (Qabs (inject_Z n - Qabs q * inject_Z (10 ^ Z.of_nat f)) <= 1 # 2)%Q.
Proof.
  intros F H.
  destruct (@fixed_spec shortest x f H)
    as (n & q & a & b & Q1 & Q2 & P & Lb & La & Na & Nb & V).
  exists n, q. eexists. unfold formatOrbital, toFixed. rewrite F, P.
  cbn [bind].
  split; [reflexivity|]. split; [|split; assumption].
  rewrite <- V.
  rewrite !append_assoc.
  apply (@parseFloat_fixed (x <? 0)%float a b _ f Na La Nb Lb).
  destruct unit; [now left|right; cbn [append]; eauto].
Qed.

End ReadBack.

(** * The age of an element set *)

Section AgeFacts.
Import TleParser Format Rounding RoundingFacts.
Local Open Scope float_scope.

Variable shortest : number -> string.
Variable Math_pow : number -> number -> number.

Lemma add_nan_l (a b : float) : is_nan a = true -> is_nan (a + b) = true.
Proof.
  intros H. apply is_nan_spec in H. apply is_nan_spec.
  now rewrite add_spec, H.
Qed.

Lemma add_nan_r (a b : float) : is_nan b = true -> is_nan (a + b) = true.
Proof.
  intros H. apply is_nan_spec in H. apply is_nan_spec.
  rewrite add_spec, H. now destruct (Prim2SF a).
Qed.

Lemma mul_nan_l (a b : float) : is_nan a = true -> is_nan (a * b) = true.
Proof.
  intros H. apply is_nan_spec in H. apply is_nan_spec.
  now rewrite mul_spec, H.
Qed.

Lemma div_nan_l (a b : float) : is_nan a = true -> is_nan (a / b) = true.
Proof.
  intros H. apply is_nan_spec in H. apply is_nan_spec.
  now rewrite div_spec, H.
Qed.

Lemma truncate_nan (a : float) : is_nan a = true -> truncate a = None.
Proof.
  intros H. apply is_nan_spec in H. unfold truncate. now rewrite H.
Qed.

Lemma TimeClip_nan (t : number) : is_nan t = true -> TimeClip t = NaN.
Proof. intros H. unfold TimeClip. now rewrite (@truncate_nan _ H). Qed.

(** An epoch year or an epoch day that is [NaN] gives an invalid date. *)
Lemma epochDate_nan (line1 line2 : string) :
  let e := parseTLE Math_pow line1 line2 in
  (is_nan (epochYear e) || is_nan (epochDay e))%bool = true ->
  epochDate e = NaN.
Proof.
  intros e H. subst e.
  change (epochDate (parseTLE Math_pow line1 line2))
    with (TimeClip
            (Date_UTC_jan1 (epochYear (parseTLE Math_pow line1 line2)) +
             (epochDay (parseTLE Math_pow line1 line2) - lit 1 0) *
             lit 86400000 0)).
  apply TimeClip_nan. apply orb_true_iff in H. destruct H as [H|H].
  - apply add_nan_l. unfold Date_UTC_jan1. now rewrite (@truncate_nan _ H).
  - apply add_nan_r, mul_nan_l, sub_nan_l, H.
Qed.

(** The age string of an invalid date. *)
Lemma age_of_nan (now epoch : number) :
  is_nan epoch = true -> getTLEAgeString shortest now epoch = "NaNw ago"%string.
Proof.
  intros H. unfold getTLEAgeString. cbv zeta.
  assert (N : is_nan (getTLEAge now epoch) = true)
    by (unfold getTLEAge; apply div_nan_l, sub_nan_r, H).
  rewrite !(@ltb_nan_l _ _ N).
  assert (M : is_nan (getTLEAge now epoch / lit 168 0) = true)
    by (apply div_nan_l, N).
  apply is_nan_spec in M.
  unfold Math_round. rewrite M. unfold ToString. rewrite M. reflexivity.
Qed.

(** X16.  An element set whose epoch year or epoch day did not parse to a
    number has an invalid epoch date, and the age of an invalid date
    reads ["NaNw ago"] at any time: every comparison of the ladder fails
    and the last branch prints the number. *)
Theorem unreadable_epoch_has_no_age (now : number) (line1 line2 : string) :
  let e := parseTLE Math_pow line1 line2 in
  (is_nan (epochYear e) || is_nan (epochDay e))%bool = true ->
  is_nan (epochDate e) = true /\
  getTLEAgeString shortest now (epochDate e) = "NaNw ago"%string.
Proof.
  intros e H. pose proof (epochDate_nan line1 line2 H) as E. fold e in E.
  rewrite E. split; [reflexivity|]. now apply age_of_nan.
Qed.

(** ** An epoch in the future *)

Local Open Scope Z_scope.

Lemma iter_pos_keeps (A : Type) (P : A -> Prop) (f : A -> A) (p : positive) :
  (forall x, P x -> P (f x)) -> forall x, P x -> P (SpecFloat.iter_pos f p x).
Proof.
  intros Hf. induction p as [p IH|p IH|]; intros x Hx; cbn [SpecFloat.iter_pos];
    auto.
Qed.

Lemma shr_fexp_nonneg (m e : Z) (l : location) :
  0 <= m -> 0 <= shr_m (fst (shr_fexp prec emax m e l)).
Proof.
  intros H. unfold shr_fexp, shr.
  destruct (fexp prec emax (Zdigits2 m + e) - e) as [|p|p]; cbn [fst];
    try (rewrite shr_m_of_loc; exact H).
  apply (@iter_pos_keeps _ (fun mrs => 0 <= shr_m mrs) shr_1 p).
  - intros mrs Hm. rewrite (shr_m_shr_1 mrs Hm). apply Z.div_pos; lia.
  - rewrite shr_m_of_loc. exact H.
Qed.

(** Rounding keeps the sign it is given. *)
Lemma bra_carries (s : bool) (q e : Z) (l : location) :
  0 <= q -> Signs.carries s (binary_round_aux prec emax s q e l).
Proof.
  intros H. unfold binary_round_aux.
  pose proof (@shr_fexp_nonneg q e l H) as H1.
  destruct (shr_fexp prec emax q e l) as [mrs' e']. cbn [fst] in H1.
  pose proof (round_nearest_even_bounds (shr_m mrs') (loc_of_shr_record mrs'))
    as [B _].
  pose proof (@shr_fexp_nonneg
                (round_nearest_even (shr_m mrs') (loc_of_shr_record mrs'))
                e' loc_Exact ltac:(lia)) as H2.
  destruct (shr_fexp prec emax _ e' loc_Exact) as [mrs'' e'']. cbn [fst] in H2.
  destruct (shr_m mrs'') as [|m|m]; [reflexivity| |lia].
  destruct (e'' <=? emax - prec); reflexivity.
Qed.

(** The order of two finite numbers of any signs. *)
Lemma SFltb_W_signed (sx sy : bool) (mx my : positive) (ex ey : Z) :
  valid_binary (S754_finite sx mx ex) = true ->
  valid_binary (S754_finite sy my ey) = true ->
  SFltb (S754_finite sx mx ex) (S754_finite sy my ey) = true ->
  W (S754_finite sx mx ex) < W (S754_finite sy my ey).
Proof.
  intros Vx Vy H.
  assert (Px : positive_finite (S754_finite false mx ex)) by (split; eauto).
  assert (Py : positive_finite (S754_finite false my ey)) by (split; eauto).
  pose proof (W_pos _ Px) as Wx. pose proof (W_pos _ Py) as Wy.
  cbn [W cond_Zopp] in *.
  destruct sx, sy; cbn [cond_Zopp].
  - change (S754_finite true mx ex) with (SFopp (S754_finite false mx ex)) in H.
    change (S754_finite true my ey) with (SFopp (S754_finite false my ey)) in H.
    unfold SFltb in H. rewrite SFcompare_opp in H.
    pose proof (SFltb_W _ _ Py Px H) as L. cbn [W cond_Zopp] in L. lia.
  - lia.
  - discriminate H.
  - pose proof (SFltb_W _ _ Px Py H) as L. cbn [W cond_Zopp] in L. lia.
Qed.

(** The difference of a number and a greater one carries a minus sign. *)
Lemma sub_carries (x y : spec_float) :
  valid_binary x = true -> valid_binary y = true ->
  SFltb x y = true -> Signs.carries true (SF64sub x y).
Proof.
  intros Vx Vy H.
  destruct x as [sx|sx| |sx mx ex], y as [sy|sy| |sy my ey];
    try discriminate H;
    try (destruct sx; try discriminate H; destruct sy; try discriminate H;
         reflexivity);
    try (destruct sx; try discriminate H; reflexivity);
    try (destruct sy; try discriminate H; reflexivity).
  pose proof (@SFltb_W_signed sx sy mx my ex ey Vx Vy H) as L.
  destruct (bounded_spec mx ex Vx) as (_ & Rx & _).
  destruct (bounded_spec my ey Vy) as (_ & Ry & _).
  unfold SF64sub, SFsub. cbv zeta.
  set (ez := Z.min ex ey).
  set (d := cond_Zopp sx (Zpos (fst (shl_align mx ex ez))) -
            cond_Zopp sy (Zpos (fst (shl_align my ey ez)))).
  assert (D : d * 2 ^ (ez + 1074) =
              W (S754_finite sx mx ex) - W (S754_finite sy my ey)).
  { unfold d. cbn [W]. rewrite Z.mul_sub_distr_r.
    pose proof (aligned mx ex ez ltac:(unfold ez; lia)) as Ax.
    pose proof (aligned my ey ez ltac:(unfold ez; lia)) as Ay.
    destruct sx, sy; cbn [cond_Zopp]; lia. }
  assert (Q : 0 < 2 ^ (ez + 1074)) by (apply Z.pow_pos_nonneg; unfold ez; lia).
  destruct d as [|p|p]; try nia.
  unfold binary_normalize, binary_round.
  destruct (shl_align p ez _) as [mz ez']. apply bra_carries. lia.
Qed.

(** A number with a minus sign divided by a finite number above zero. *)
Lemma div_carries (x : spec_float) (m : positive) (e : Z) :
  Signs.carries true x ->
  Signs.carries true (SF64div x (S754_finite false m e)).
Proof.
  destruct x as [s|s| |s mx ex]; cbn [Signs.carries]; intros H;
    try contradiction; subst s; try reflexivity.
  unfold SF64div, SFdiv, SFdiv_core_binary. cbv zeta.
  set (m' := match ex - e - _ with
             | Zpos _ => Z.shiftl (Zpos mx) _
             | Z0 => Zpos mx
             | Zneg _ => 0
             end).
  assert (M : 0 <= m').
  { unfold m'. destruct (ex - e - _); try lia. apply Z.shiftl_nonneg. lia. }
  pose proof (Z_div_mod m' (Zpos m) ltac:(lia)) as DM.
  destruct (Z.div_eucl m' (Zpos m)) as [q r]. destruct DM as [DM RB].
  apply bra_carries. nia.
Qed.

Lemma carries_below_one (x : spec_float) :
  Signs.carries true x ->
  SFltb x (Prim2SF 1) = true /\ SFltb (S754_zero false) x = false.
Proof.
  assert (O : exists m e, Prim2SF 1 = S754_finite false m e)
    by (vm_compute; eauto).
  destruct O as (m & e & ->).
  destruct x as [s|s| |s mx ex]; cbn [Signs.carries]; intros H;
    try contradiction; subst s; split; reflexivity.
Qed.

Local Open Scope float_scope.

(** X17.  An element set whose epoch lies after the present moment has an
    age that is not above zero, and its label is the one in minutes,
    however far ahead the epoch is: the ladder tests [hours < 1] first
    and never looks at the sign. *)
Theorem future_epoch_is_reported_in_minutes (now epoch : number) :
  (now <? epoch) = true ->
  (0 <? getTLEAge now epoch) = false /\
  (getTLEAge now epoch <? 1) = true /\
  getTLEAgeString shortest now epoch =
    (ToString shortest (Math_round (getTLEAge now epoch * lit 60 0)) ++
     "m ago")%string.
Proof.
  intros H. rewrite FloatAxioms.ltb_spec in H.
  pose proof (@sub_carries _ _ (Prim2SF_valid now) (Prim2SF_valid epoch) H) as S.
  assert (C : exists m e, Prim2SF (lit 1000 0 * lit 60 0 * lit 60 0) =
                          S754_finite false m e) by (vm_compute; eauto).
  destruct C as (m & e & C).
  pose proof (@div_carries _ m e S) as D.
  rewrite <- C, <- sub_spec, <- div_spec in D.
  fold (getTLEAge now epoch) in D.
  destruct (@carries_below_one _ D) as [B Z].
  rewrite <- FloatAxioms.ltb_spec in B.
  change (S754_zero false) with (Prim2SF 0) in Z.
  rewrite <- FloatAxioms.ltb_spec in Z.
  split; [exact Z|]. split; [exact B|].
  unfold getTLEAgeString. cbv zeta. change (lit 1 0) with 1%float.
  now rewrite B.
Qed.

End AgeFacts.

(** * The revolution number *)

Section RevolutionNumber.
Import TleParser.
Local Open Scope float_scope.

Variable Math_pow : number -> number -> number.

(** What [parseInt] returns: [NaN], a zero, or the Number of an
    integer. *)
Lemma parseInt_cases (s : string) :
  is_nan (parseInt s) = true \/ is_zero (parseInt s) = true \/
  exists z : Z, parseInt s = of_Z z.
Proof.
  unfold parseInt.
  destruct (sign (trimStart s)) as [neg u].
  destruct (match u with
            | String "0" (String "x" r) => (16%Z, r)
            | String "0" (String "X" r) => (16%Z, r)
            | _ => (10%Z, u)
            end) as [radix v].
  destruct (fst (span (if (radix =? 16)%Z then hexDigit else digit) v))
    as [|d ds]; [now left|].
  destruct (valueOf radix (d :: ds)) as [|p|p].
  - right. left. now destruct neg.
  - right. right. eauto.
  - right. right. eauto.
Qed.

(** X18.  The revolution number is the one field of [parseTLE] with a
    default: it is never [NaN], whatever the lines hold, and it is always
    the Number of an integer; a field that does not start with a digit,
    or that reads as zero with a minus sign, gives [0]. *)
Theorem revolution_number_is_a_number (line1 line2 : string) :
  let field := parseInt (trim (substring line2 63 68)) in
  let r := revNumber (parseTLE Math_pow line1 line2) in
  is_nan r = false /\
  (exists z : Z, r = of_Z z) /\
  (is_nan field = true \/ is_zero field = true -> r = 0).
Proof.
  intros field r.
  assert (E : r = or_else field (lit 0 0)) by reflexivity.
  rewrite E. clear E r. unfold or_else, truthy.
  destruct (parseInt_cases (trim (substring line2 63 68))) as [N|[Z|(z & P)]];
    fold field in N || fold field in Z || fold field in P.
  - rewrite N. cbn [orb negb]. split; [reflexivity|].
    split; [now exists 0%Z|reflexivity].
  - rewrite Z, orb_true_r. cbn [negb]. split; [reflexivity|].
    split; [now exists 0%Z|reflexivity].
  - destruct (is_nan field) eqn:N; cbn [orb negb].
    + split; [reflexivity|]. split; [now exists 0%Z|reflexivity].
    + destruct (is_zero field) eqn:Z; cbn [negb].
      * split; [reflexivity|]. split; [now exists 0%Z|reflexivity].
      * split; [exact N|]. split; [now exists z|].
        intros [H|H]; discriminate H.
Qed.

End RevolutionNumber.

(** * The drag term *)

Section DragTerm.
Import TleParser Format DigitFacts.
Local Open Scope float_scope.

Variable Math_pow : number -> number -> number.

Lemma substring_prefix (p t : string) :
  String.substring 0 (String.length p) (p ++ t) = p.
Proof.
  induction p as [|c p IH]; cbn [String.length append String.substring].
  - now destruct t.
  - now rewrite IH.
Qed.

Lemma substring_whole (t : string) :
  String.substring 0 (String.length t) t = t.
Proof.
  induction t as [|c t IH]; cbn [String.length String.substring];
    [reflexivity|now rewrite IH].
Qed.

Lemma substring_suffix (p t : string) :
  String.substring (String.length p) (String.length t) (p ++ t) = t.
Proof.
  induction p as [|c p IH]; cbn [String.length append String.substring];
    [apply substring_whole|exact IH].
Qed.

(** The two parts [parseTLE] cuts the drag field into. *)
Lemma cut_before_last_two (p : string) (a b : ascii) :
  let s := (p ++ String a (String b EmptyString))%string in
  substring s 0 (length s - 2) = p /\
  substringFrom s (length s - 2) = String a (String b EmptyString).
Proof.
  cbv zeta. set (t := String a (String b EmptyString)).
  assert (L : String.length (p ++ t) = (String.length p + 2)%nat)
    by (rewrite append_length; reflexivity).
  unfold substringFrom, substring, clamp, length. rewrite !L.
  replace (Z.to_nat (Z.max 0 (Z.min 0 (Z.of_nat (String.length p + 2)))))
    with 0%nat by lia.
  replace (Z.to_nat (Z.max 0 (Z.min (Z.of_nat (String.length p + 2) - 2)
                                (Z.of_nat (String.length p + 2)))))
    with (String.length p) by lia.
  replace (Z.to_nat (Z.max 0 (Z.min (Z.of_nat (String.length p + 2))
                                (Z.of_nat (String.length p + 2)))))
    with (String.length p + 2)%nat by lia.
  split.
  - replace (Nat.min 0 (String.length p)) with 0%nat by lia.
    replace (Nat.max 0 (String.length p) - 0)%nat with (String.length p) by lia.
    apply substring_prefix.
  - replace (Nat.min (String.length p) (String.length p + 2))
      with (String.length p) by lia.
    replace (Nat.max (String.length p) (String.length p + 2) - String.length p)%nat
      with (String.length t) by (cbn [t String.length]; lia).
    apply substring_suffix.
Qed.

(** [replace] finds no space in a string of digits behind a sign. *)
Lemma replace_numeral (m : string) :
  numeral m -> replace m " " "+" = m.
Proof.
  unfold numeral. induction m as [|c m IH]; intros H; [reflexivity|].
  destruct (digit c) as [d|] eqn:D.
  - rewrite (span_cons c d m D) in H. cbn [snd] in H. cbn [replace].
    assert (E : Ascii.eqb c " " = false).
    { apply digit_inv in D. destruct D as [R ->].
      assert (C : (d = 0 \/ d = 1 \/ d = 2 \/ d = 3 \/ d = 4 \/ d = 5 \/
                   d = 6 \/ d = 7 \/ d = 8 \/ d = 9)%Z) by lia.
      repeat (destruct C as [->|C]; [reflexivity|]). now subst. }
    rewrite E. f_equal. now apply IH.
  - rewrite (span_stop c m D) in H. discriminate.
Qed.

(** A minus sign and one digit, as [parseInt] reads them. *)
Lemma parseInt_minus_digit (c : ascii) (d : Z) :
  digit c = Some d ->
  parseInt (String "-" (String c EmptyString)) =
  if (d =? 0)%Z then neg_zero else of_Z (- d).
Proof.
  intros D. apply digit_inv in D. destruct D as [R ->].
  assert (C : (d = 0 \/ d = 1 \/ d = 2 \/ d = 3 \/ d = 4 \/ d = 5 \/
               d = 6 \/ d = 7 \/ d = 8 \/ d = 9)%Z) by lia.
  repeat (destruct C as [->|C]; [reflexivity|]). now subst.
Qed.

(** X19.  The digits of the drag term are read as an integer.  When
    columns 54-61 of line 1 hold, between spaces, an optional minus sign,
    digits, a minus sign and one exponent digit [d] (the layout of an
    element set, as in [28098-4]), [bstar] is the integer the digits read
    as, with the sign, times [Math.pow(10, -d)]: no decimal point is put
    before the digits, unlike in the eccentricity. *)
Theorem drag_digits_are_read_as_an_integer (line1 line2 : string)
  (neg : bool) (m : string) (c : ascii) (d : Z) :
  trim (substring line1 53 61) =
    ((if neg then "-" else "") ++ m ++ String "-" (String c EmptyString))%string ->
  numeral m -> (1 <= String.length m)%nat -> digit c = Some d ->
  bstar (parseTLE Math_pow line1 line2) =
  of_decimal neg (dv m) 0 *
  Math_pow (lit 10 0) (if (d =? 0)%Z then neg_zero else of_Z (- d)).
Proof.
  intros F N L D.
  assert (E : bstar (parseTLE Math_pow line1 line2) =
              let bstarStr := trim (substring line1 53 61) in
              parseFloat (replace (substring bstarStr 0 (length bstarStr - 2))
                            " " "+") *
              Math_pow (lit 10 0)
                (parseInt (substringFrom bstarStr (length bstarStr - 2))))
    by reflexivity.
  rewrite E. cbv zeta. rewrite F. clear E F.
  rewrite <- append_assoc.
  destruct (cut_before_last_two ((if neg then "-" else "") ++ m) "-" c)
    as [-> ->].
  rewrite (parseInt_minus_digit _ D). f_equal.
  assert (R : replace ((if neg then "-" else "") ++ m) " " "+" =
              ((if neg then "-" else "") ++ m)%string).
  { destruct neg; cbn [append replace]; [|now apply replace_numeral].
    change (Ascii.eqb "-" " ") with false. cbv iota. f_equal.
    now apply replace_numeral. }
  rewrite R.
  pose proof (@parseFloat_fixed neg m EmptyString EmptyString 0 N L eq_refl
                eq_refl (or_introl eq_refl)) as P.
  cbn [append] in P. rewrite !append_empty_r in P. exact P.
Qed.

End DragTerm.

(** * The further statements on sample inputs *)

Section OnCases.
Import TleParser Worker Sample Cases Format.
Local Open Scope float_scope.

(** Two ticks and a message of an unknown type leave the catalog of one
    satellite as it was. *)
Lemma catalog_kept_over_two_ticks :
  map (@SatRecord.norad_id Trajectory)
    (fst (run satellite_js Date_parse [satellite 1 "A" burning None] two_ticks)) =
    [of_Z 1] /\
  map (@SatRecord.name Trajectory)
    (fst (run satellite_js Date_parse [satellite 1 "A" burning None] two_ticks)) =
    ["A"%string] /\
  map (@SatRecord.object_type Trajectory)
    (fst (run satellite_js Date_parse [satellite 1 "A" burning None] two_ticks)) =
    ["PAYLOAD"%string] /\
  map (@SatRecord.satrec Trajectory)
    (fst (run satellite_js Date_parse [satellite 1 "A" burning None] two_ticks)) =
    [burning].
Proof.
  apply (@propagation_keeps_the_catalog Trajectory satellite_js Date_parse
           [satellite 1 "A" burning None] two_ticks).
  repeat constructor; intros tles H; discriminate H.
Defined.

(** A velocity vector with a [NaN] component fires nothing, at the turn
    that sees it and at the next. *)
Lemma lost_satellite_fires_nothing :
  pushed_maneuver
    (propagateOne satellite_js tick0 (Date_parse tick0) (lit 0 0)
       (satellite 7 "G" lost (Some (lit 75 (-1))))) = None /\
  SatRecord.prevVelocity
    (left_as (propagateOne satellite_js tick0 (Date_parse tick0) (lit 0 0)
                (satellite 7 "G" lost (Some (lit 75 (-1)))))) =
    Some (o_velocity lost_observation) /\
  forall (ts' : string) (date' gmst' : number),
    pushed_maneuver
      (propagateOne satellite_js ts' date' gmst'
         (left_as (propagateOne satellite_js tick0 (Date_parse tick0) (lit 0 0)
                     (satellite 7 "G" lost (Some (lit 75 (-1))))))) = None.
Proof.
  exact (@nan_speed_disarms_the_detector Trajectory satellite_js tick0
           (Date_parse tick0) (lit 0 0)
           (satellite 7 "G" lost (Some (lit 75 (-1)))) lost_observation
           eq_refl eq_refl).
Defined.

(** [1.005 km] with two digits. *)
Lemma toFixed_of_1_005 :
  exists (n : Z) (q : Q) (a b : string),
    exact_value (lit 1005 (-3)) = Some q /\
    (Qabs (inject_Z n - Qabs q * inject_Z (10 ^ Z.of_nat 2)) <= 1 # 2)%Q /\
    toFixed no_digits (lit 1005 (-3)) (lit 2 0) =
      Normal ((if (lit 1005 (-3) <? 0)%float then "-" else "") ++ a ++ "." ++ b)%string /\
    formatOrbital no_digits (lit 1005 (-3)) (lit 2 0) "km" =
      Normal (((if (lit 1005 (-3) <? 0)%float then "-" else "") ++ a ++ "." ++ b) ++
              " km")%string /\
    String.length b = 2%nat /\ (1 <= String.length a)%nat /\
    numeral a /\ numeral b /\ dv (a ++ b) = n.
Proof.
  exact (@toFixed_prints_the_nearest_decimal no_digits (lit 1005 (-3)) (lit 2 0)
           "km" 2 eq_refl eq_refl).
Defined.

(** [-0.001 km] with two digits reads back as a zero with a minus
    sign. *)
Lemma small_negative_reads_back :
  exists (n : Z) (q : Q) (s : string),
    formatOrbital no_digits (lit (-1) (-3)) (lit 2 0) "km" = Normal s /\
    parseFloat s = of_decimal (lit (-1) (-3) <? 0) n (- Z.of_nat 2) /\
    exact_value (lit (-1) (-3)) = Some q /\
    (Qabs (inject_Z n - Qabs q * inject_Z (10 ^ Z.of_nat 2)) <= 1 # 2)%Q.
Proof.
  exact (@formatted_number_reads_back no_digits (lit (-1) (-3)) (lit 2 0)
           "km" 2 eq_refl eq_refl).
Defined.

(** A first line that ends before the epoch field. *)
Lemma cut_line_has_no_age :
  is_nan (epochDate (parseTLE pow_by_iteration cut_line1 iss_line2)) = true /\
  getTLEAgeString no_digits (lit 1704067200000 0)
    (epochDate (parseTLE pow_by_iteration cut_line1 iss_line2)) =
    "NaNw ago"%string.
Proof.
  exact (@unreadable_epoch_has_no_age no_digits pow_by_iteration
           (lit 1704067200000 0) cut_line1 iss_line2 eq_refl).
Defined.

(** An epoch two seconds ahead. *)
Lemma epoch_two_seconds_ahead :
  (0 <? getTLEAge (lit 1704067200000 0) (lit 1704067202000 0)) = false /\
  (getTLEAge (lit 1704067200000 0) (lit 1704067202000 0) <? 1) = true /\
  getTLEAgeString no_digits (lit 1704067200000 0) (lit 1704067202000 0) =
    (ToString no_digits
       (Math_round (getTLEAge (lit 1704067200000 0) (lit 1704067202000 0) *
                    lit 60 0)) ++ "m ago")%string.
Proof.
  exact (@future_epoch_is_reported_in_minutes no_digits
           (lit 1704067200000 0) (lit 1704067202000 0) eq_refl).
Defined.

(** The drag field [-11606-4] of the ISS element set. *)
Lemma drag_term_of_the_iss :
  bstar (parseTLE pow_by_iteration iss_line1 iss_line2) =
  lit (-11606) 0 * pow_by_iteration (lit 10 0) (of_Z (-4)).
Proof.
  exact (@drag_digits_are_read_as_an_integer pow_by_iteration
           iss_line1 iss_line2 true "11606" "4" 4 eq_refl eq_refl
           (le_S _ _ (le_S _ _ (le_S _ _ (le_S _ _ (le_n 1))))) eq_refl).
Defined.

End OnCases.
